(** * rox.py: the RoxieStreams playlist generator, embedded in Rocq

    The development follows [rox.py] function by function.

    - A Python [str] is the list of its Unicode code points ([list Z]).
    - "Falsy" values: [None] is [None], the empty string is [[]].
    - The exceptions that can escape a callee are the [ValueError] of
      [urllib.parse], the [ValueError] of [html.unescape] (the limit of [int]
      on the digits of a decimal character reference) and the
      [UnicodeEncodeError] of a write to a UTF-8 file; functions that can
      raise live in the [result] monad.  [fetch] catches everything inside
      its [try], so a failed request is the pair of [None] and the empty
      string.
    - Everything outside the interpreter and its pure standard library is a
      field of the record [world]: the HTTP server answers, the HTML parser,
      the Unicode tables behind [str.lower] and [\d], the entity table of
      [html.entities], the stricter netloc validation of [urlsplit], the
      limit of [int] on decimal digits and the clock.  Theorems quantify
      over every [world].
    - The output files are what the program writes to them, chunk by chunk,
      on a system whose line separator is the line feed and on which the
      files can be opened.
    - [print] calls are console logging and are left out. *)

From Stdlib Require Import ZArith List Bool Lia Arith.
From Stdlib Require String Ascii.
Import ListNotations String.StringSyntax Ascii.AsciiSyntax.

Set Implicit Arguments.

Delimit Scope char_scope with char.
Delimit Scope string_scope with string.
Open Scope string_scope.
Open Scope list_scope.

(* ================================================================== *)
(** ** Strings *)

Definition char := Z.
Definition str := list char.

Definition chr (a : Ascii.ascii) : char := Z.of_N (Ascii.N_of_ascii a).
Arguments chr a%_char.

(** [lit "abc"] is the Python literal ["abc"]. *)
Definition lit (s : String.string) : str := map chr (String.list_ascii_of_string s).

Definition char_eqb (a b : char) : bool := Z.eqb a b.
Arguments char_eqb : simpl never.

Fixpoint str_eqb (a b : str) : bool :=
  match a, b with
  | [], [] => true
  | x :: a', y :: b' => char_eqb x y && str_eqb a' b'
  | _, _ => false
  end.

(** The double quote and the line feed. *)
Definition dq : str := [34%Z].
Definition nl : str := [10%Z].

(** Python truthiness of a string and of an optional string. *)
Definition truthy (s : str) : bool :=
  match s with [] => false | _ :: _ => true end.

Definition otruthy (o : option str) : bool :=
  match o with Some s => truthy s | None => false end.

Definition truthy_list {A : Type} (l : list A) : bool :=
  match l with [] => false | _ :: _ => true end.

(** [x or y] on strings. *)
Definition or_else (x y : str) : str := if truthy x then x else y.

(** [o or y] where [o] may be [None]. *)
Definition oor_else (o : option str) (y : str) : str :=
  match o with Some s => or_else s y | None => y end.

(** [c in chars] *)
Definition mem_char (c : char) (chars : str) : bool := existsb (char_eqb c) chars.

(** [s.startswith(p)] *)
Fixpoint startswith (p s : str) : bool :=
  match p, s with
  | [], _ => true
  | x :: p', y :: s' => char_eqb x y && startswith p' s'
  | _ :: _, [] => false
  end.

(** [p in s] for strings. *)
Fixpoint contains (p s : str) : bool :=
  startswith p s || match s with [] => false | _ :: s' => contains p s' end.

(** [x in l] for a list or a set of strings. *)
Definition mem_str (x : str) (l : list str) : bool := existsb (str_eqb x) l.

(** [str.isspace] of one character; it is also the class [\s] of [re] on
    [str] patterns. *)
Definition is_space (c : char) : bool :=
  ((9 <=? c) && (c <=? 13) || (28 <=? c) && (c <=? 32) || (c =? 133) || (c =? 160)
   || (c =? 5760) || (8192 <=? c) && (c <=? 8202) || (c =? 8232) || (c =? 8233)
   || (c =? 8239) || (c =? 8287) || (c =? 12288))%Z.

(** [s.lstrip(chars)], [s.rstrip(chars)], [s.strip(chars)], with the set of
    characters given as a predicate. *)
Fixpoint lstrip_by (p : char -> bool) (s : str) : str :=
  match s with
  | c :: s' => if p c then lstrip_by p s' else s
  | [] => []
  end.

Definition rstrip_by (p : char -> bool) (s : str) : str :=
  rev (lstrip_by p (rev s)).

Definition strip_by (p : char -> bool) (s : str) : str :=
  rstrip_by p (lstrip_by p s).

(** [s.strip()] *)
Definition strip (s : str) : str := strip_by is_space s.

(** [s.strip(chars)] and [s.rstrip(chars)] *)
Definition strip_chars (chars s : str) : str := strip_by (fun c => mem_char c chars) s.
Definition rstrip_chars (chars s : str) : str := rstrip_by (fun c => mem_char c chars) s.

(** [s.split()]: the maximal runs of non-whitespace characters.
    [split_ws_acc w s] carries the word [w] being read, reversed. *)
Fixpoint split_ws_acc (w : str) (s : str) : list str :=
  match s with
  | [] => match w with [] => [] | _ => [rev w] end
  | c :: s' =>
      if is_space c
      then match w with [] => split_ws_acc [] s' | _ => rev w :: split_ws_acc [] s' end
      else split_ws_acc (c :: w) s'
  end.

Definition split_ws (s : str) : list str := split_ws_acc [] s.

(** [sep.join(l)] *)
Fixpoint join (sep : str) (l : list str) : str :=
  match l with
  | [] => []
  | [x] => x
  | x :: l' => x ++ sep ++ join sep l'
  end.

(** [s.split(c)] for a one-character separator: never the empty list. *)
Fixpoint split_on_acc (sep : char) (w : str) (s : str) : list str :=
  match s with
  | [] => [rev w]
  | c :: s' =>
      if char_eqb c sep then rev w :: split_on_acc sep [] s'
      else split_on_acc sep (c :: w) s'
  end.

Definition split_on (sep : char) (s : str) : list str := split_on_acc sep [] s.

(** [s.replace(old, new)] for a non-empty [old]: left to right, without
    overlaps. *)
Fixpoint replace_fuel (fuel : nat) (old new s : str) : str :=
  match fuel with
  | O => s
  | S f =>
      match s with
      | [] => []
      | c :: s' =>
          if startswith old s
          then new ++ replace_fuel f old new (skipn (length old) s)
          else c :: replace_fuel f old new s'
      end
  end.

Definition replace (old new s : str) : str := replace_fuel (length s) old new s.

(** The ASCII part of letter case. *)
Definition is_ascii_upper (c : char) : bool := ((65 <=? c) && (c <=? 90))%Z.
Definition is_ascii_lower (c : char) : bool := ((97 <=? c) && (c <=? 122))%Z.
Definition is_ascii_digit (c : char) : bool := ((48 <=? c) && (c <=? 57))%Z.
Definition is_ascii_alpha (c : char) : bool := is_ascii_upper c || is_ascii_lower c.
Definition lower_ascii (c : char) : char := if is_ascii_upper c then (c + 32)%Z else c.
Definition upper_ascii (c : char) : char := if is_ascii_lower c then (c - 32)%Z else c.

(* ================================================================== *)
(** ** Exceptions

    [ValueError] comes from [urllib.parse] and from [int] inside
    [html.unescape], [AttributeError] from a method call on [None], and
    [UnicodeEncodeError] from the UTF-8 codec of an output file. *)

Inductive exn := ValueError | AttributeError | UnicodeEncodeError.

Inductive result (A : Type) : Type :=
| Ok (a : A)
| Raise (e : exn).

Arguments Ok {A} a.
Arguments Raise {A} e.

Definition bind {A B : Type} (m : result A) (k : A -> result B) : result B :=
  match m with
  | Ok a => k a
  | Raise e => Raise e
  end.

Notation "x <- m ;; k" := (bind m (fun x => k))
  (at level 61, m at next level, right associativity).
Notation "' p <- m ;; k" := (bind m (fun x => let p := x in k))
  (at level 61, p pattern, m at next level, right associativity).

(** A loop whose body may raise: [for x in l: acc = body(acc, x)]. *)
Fixpoint foldM {A B : Type} (body : A -> B -> result A) (l : list B) (acc : A)
  : result A :=
  match l with
  | [] => Ok acc
  | x :: l' => acc' <- body acc x ;; foldM body l' acc'
  end.

(* ================================================================== *)
(** ** The fragment of [re] the program uses

    Patterns are built from single-character classes, sequencing, ordered
    alternation, counted repetition of a class (greedy or lazy) and the
    anchor [$].  Matching is by backtracking, in the order in which [re]
    tries the alternatives. *)

Definition cset := char -> bool.

Inductive regex : Type :=
| Eps
| Chr (p : cset)
| Seq (r1 r2 : regex)
| Alt (r1 r2 : regex)
| Rep (greedy : bool) (lo : nat) (hi : option nat) (p : cset)
| Eol.

Definition more_allowed (hi : option nat) : bool :=
  match hi with Some O => false | _ => true end.

Definition dec_bound (hi : option nat) : option nat :=
  match hi with Some n => Some (pred n) | None => None end.

(** [rep_run g p lo hi s k]: between [lo] and [hi] characters of class [p]
    at the head of [s], then the continuation [k] on what is left.  A greedy
    repetition tries the longer run first, a lazy one the shorter. *)
Fixpoint rep_run (greedy : bool) (p : cset) (lo : nat) (hi : option nat)
    (s : str) (k : str -> option str) {struct s} : option str :=
  let stop := match lo with O => k s | S _ => None end in
  let more :=
    match s with
    | c :: s' =>
        if p c && more_allowed hi
        then rep_run greedy p (pred lo) (dec_bound hi) s' k
        else None
    | [] => None
    end in
  if greedy
  then match more with Some r => Some r | None => stop end
  else match stop with Some r => Some r | None => more end.

(** [run r s k]: match [r] at the head of [s], then [k] on the rest; the
    answer is the input left after the whole match. *)
Fixpoint run (r : regex) (s : str) (k : str -> option str) : option str :=
  match r with
  | Eps => k s
  | Chr p => match s with c :: s' => if p c then k s' else None | [] => None end
  | Seq r1 r2 => run r1 s (fun s1 => run r2 s1 k)
  | Alt r1 r2 => match run r1 s k with Some x => Some x | None => run r2 s k end
  | Rep g lo hi p => rep_run g p lo hi s k
  | Eol =>
      match s with
      | [] => k s
      | [c] => if (c =? 10)%Z then k s else None
      | _ => None
      end
  end.

(** [pattern.match] at the head of [s]: the matched text and the rest. *)
Definition match_here (r : regex) (s : str) : option (str * str) :=
  match run r s (fun rest => Some rest) with
  | Some rest => Some (firstn (length s - length rest) s, rest)
  | None => None
  end.

(** [pattern.search(s)]: the leftmost match, as (text before, match, text
    after). *)
Fixpoint search (r : regex) (s : str) : option (str * str * str) :=
  match match_here r s with
  | Some (m, rest) => Some ([], m, rest)
  | None =>
      match s with
      | [] => None
      | c :: s' =>
          match search r s' with
          | Some (b, m, a) => Some (c :: b, m, a)
          | None => None
          end
      end
  end.

(** The successive non-overlapping matches of [finditer], with the text
    between them.  None of the program's patterns matches the empty string;
    after an empty match the scan moves one character on. *)
Inductive piece : Type :=
| Gap (s : str)
| Hit (m : str).

Fixpoint scan (fuel : nat) (r : regex) (s : str) : list piece :=
  match fuel with
  | O => [Gap s]
  | S f =>
      match search r s with
      | None => [Gap s]
      | Some (b, m, a) =>
          Gap b :: Hit m ::
            match m, a with
            | [], [] => []
            | [], c :: a' => Gap [c] :: scan f r a'
            | _ :: _, _ => scan f r a
            end
      end
  end.

Definition finditer (r : regex) (s : str) : list piece := scan (S (length s)) r s.

(** [pattern.findall(s)] for a pattern whose only group is the whole match. *)
Definition findall (r : regex) (s : str) : list str :=
  flat_map (fun p => match p with Hit m => [m] | Gap _ => [] end) (finditer r s).

(** [pattern.sub(repl, s)] with [repl] a function of the matched text. *)
Definition re_sub (r : regex) (repl : str -> str) (s : str) : str :=
  flat_map (fun p => match p with Hit m => repl m | Gap g => g end) (finditer r s).

(** [pattern.sub(repl, s)] with a [repl] that may raise: the replacements
    are computed from left to right, and the first exception ends the
    call. *)
Definition re_sub_raising (r : regex) (repl : str -> result str) (s : str)
  : result str :=
  foldM (fun acc p =>
           match p with
           | Hit m => x <- repl m ;; Ok (acc ++ x)
           | Gap g => Ok (acc ++ g)
           end)
        (finditer r s) [].

(** Pattern syntax. *)

(** A literal character of a pattern compiled without flags. *)
Definition c_is (a : Ascii.ascii) : cset := fun c => char_eqb c (chr a).
Arguments c_is a%_char _.

(** A literal character of a pattern compiled with [re.IGNORECASE]: [c]
    matches when its lower case is the lower case of the literal.  On [str]
    patterns the engine also accepts, as the documentation of the flag
    notes, U+017F (long s) for [s], U+0130 and U+0131 for [i] and U+212A
    (Kelvin sign) for [k]. *)
Definition c_ieq (a : Ascii.ascii) : cset := fun c =>
  let l := lower_ascii (chr a) in
  (char_eqb (lower_ascii c) l
   || char_eqb l (chr "s") && (c =? 383)
   || char_eqb l (chr "i") && ((c =? 304) || (c =? 305))
   || char_eqb l (chr "k") && (c =? 8490))%Z.
Arguments c_ieq a%_char _ : simpl never.

(** A literal string, case-sensitive or not. *)
Fixpoint Str_by (f : Ascii.ascii -> cset) (s : String.string) : regex :=
  match s with
  | String.EmptyString => Eps
  | String.String a s' => Seq (Chr (f a)) (Str_by f s')
  end.

Definition Str (s : String.string) : regex := Str_by c_is s.
Definition IStr (s : String.string) : regex := Str_by c_ieq s.

(** [r?], [c*], [c+], [c+?], [.] *)
Definition Opt (r : regex) : regex := Alt r Eps.
Definition Star (p : cset) : regex := Rep true 0 None p.
Definition Plus (p : cset) : regex := Rep true 1 None p.
Definition PlusLazy (p : cset) : regex := Rep false 1 None p.
Definition any_char : cset := fun c => negb (c =? 10)%Z.

Definition one_of (chars : String.string) : cset := fun c => mem_char c (lit chars).
Definition none_of (p : cset) : cset := fun c => negb (p c).
Definition cup (p q : cset) : cset := fun c => p c || q c.

Infix ";;;" := Seq (at level 60, right associativity).

(* ================================================================== *)
(** ** The world outside the program *)

(** A parsed element as the program reads it: its name, its attribute
    dictionary, [get_text(strip=True)], [get_text(" ", strip=True)] and its
    serialisation [str(tag)]. *)
Record tag : Type := {
  tag_name : str;
  tag_attrs : list (str * str);
  tag_text : str;
  tag_text_sp : str;
  tag_markup : str
}.

(** A [BeautifulSoup] document: its elements in document order. *)
Definition soup := list tag.

Record world : Type := {
  (** [SESSION.get(url).text] when the request succeeds with a success
      status; [None] stands for every exception inside [fetch]'s [try]. *)
  http_get : str -> option str;
  (** [BeautifulSoup(text, "html.parser")] *)
  html_parser : str -> soup;
  (** [urlsplit]'s validation of a non-empty netloc beyond the bracket
      balance ([_check_bracketed_netloc], [_checknetloc]): [true] when it
      raises [ValueError]. *)
  netloc_refused : str -> bool;
  (** [html.entities.html5] *)
  html5 : str -> option str;
  (** [str.lower] *)
  str_lower : str -> str;
  (** the class [\d] of [re] on [str] patterns *)
  is_decimal : char -> bool;
  (** [sys.get_int_max_str_digits()]: the longest decimal string that [int]
      converts, [0] for no limit (4300 unless the interpreter was started or
      set otherwise; the interpreter accepts [0] or at least 640) *)
  int_max_str_digits : nat;
  (** [datetime.utcnow().strftime("%Y-%m-%d %H:%M UTC")]: digits and ASCII
      punctuation *)
  utcnow : String.string
}.

(* ================================================================== *)
(** ** [urllib.parse] *)

Definition uses_relative : list str :=
  map lit ["";"ftp";"http";"gopher";"nntp";"imap";"wais";"file";"https";"shttp";
           "mms";"prospero";"rtsp";"rtspu";"sftp";"svn";"svn+ssh";"ws";"wss"].

Definition uses_netloc : list str :=
  map lit ["";"ftp";"http";"gopher";"nntp";"telnet";"imap";"wais";"file";"mms";
           "https";"shttp";"snews";"prospero";"rtsp";"rtspu";"rsync";"svn";
           "svn+ssh";"sftp";"nfs";"git";"git+ssh";"ws";"wss"].

Definition uses_params : list str :=
  map lit ["";"ftp";"hdl";"prospero";"http";"imap";"https";"shttp";"rtsp";
           "rtspu";"sip";"sips";"mms";"sftp";"tel"].

Definition scheme_chars (c : char) : bool :=
  is_ascii_alpha c || is_ascii_digit c || mem_char c (lit "+-.").

Definition c0_control_or_space (c : char) : bool := ((0 <=? c) && (c <=? 32))%Z.

(** [s.find(c)] as an option: the index of the first [c]. *)
Fixpoint find_char (c : char) (s : str) : option nat :=
  match s with
  | [] => None
  | x :: s' => if char_eqb x c then Some O
               else match find_char c s' with Some i => Some (S i) | None => None end
  end.

(** [s.split(c, 1)] when [c] occurs in [s]; [(s, "")] otherwise. *)
Definition split_once (c : char) (s : str) : str * str :=
  match find_char c s with
  | Some i => (firstn i s, skipn (S i) s)
  | None => (s, [])
  end.

(** [_splitnetloc(url, 2)] *)
Definition is_netloc_delim (c : char) : bool := mem_char c (lit "/?#").

Fixpoint span_until (p : char -> bool) (s : str) : str * str :=
  match s with
  | [] => ([], [])
  | c :: s' => if p c then ([], s)
               else let (a, b) := span_until p s' in (c :: a, b)
  end.

Definition splitnetloc2 (url : str) : str * str :=
  span_until is_netloc_delim (skipn 2 url).

Record SplitResult : Type := {
  sr_scheme : str; sr_netloc : str; sr_path : str; sr_query : str; sr_fragment : str
}.

Record ParseResult : Type := {
  scheme : str; netloc : str; path : str; params : str; query : str; fragment : str
}.

(** The first lines of [urlsplit]: leading C0 controls and spaces are
    stripped, tabs and line breaks removed. *)
Definition url_unsafe (c : char) : bool := mem_char c [9; 13; 10]%Z.

Definition clean_url (url : str) : str :=
  filter (fun c => negb (url_unsafe c)) (lstrip_by c0_control_or_space url).

Definition clean_scheme (sch : str) : str :=
  filter (fun c => negb (url_unsafe c)) (strip_by c0_control_or_space sch).

(** The scheme of [urlsplit]: the text before the first colon when it
    starts with an ASCII letter and holds scheme characters only. *)
Definition split_scheme (url sch : str) : str * str :=
  match find_char (chr ":") url, url with
  | Some (S i), c0 :: _ =>
      if is_ascii_alpha c0 && forallb scheme_chars (firstn (S i) url)
      then (map lower_ascii (firstn (S i) url), skipn (S (S i)) url)
      else (sch, url)
  | _, _ => (sch, url)
  end.

Section Urllib.
Variable W : world.

(** [urlsplit(url, scheme)].  It raises [ValueError] when the netloc has an
    unmatched square bracket, and when the further validation of the netloc
    fails. *)
Definition urlsplit (url0 scheme0 : str) : result SplitResult :=
  let url := clean_url url0 in
  let sch := clean_scheme scheme0 in
  let '(sch, url) := split_scheme url sch in
  '(nl, url) <-
    (if startswith (lit "//") url then
       let '(nl, rest) := splitnetloc2 url in
       let lb := mem_char (chr "[") nl in
       let rb := mem_char (chr "]") nl in
       if (lb && negb rb) || (rb && negb lb) then Raise ValueError
       else Ok (nl, rest)
     else Ok ([], url)) ;;
  let '(url, frag) :=
    if mem_char (chr "#") url then split_once (chr "#") url else (url, []) in
  let '(url, qry) :=
    if mem_char (chr "?") url then split_once (chr "?") url else (url, []) in
  if truthy nl && netloc_refused W nl then Raise ValueError
  else Ok {| sr_scheme := sch; sr_netloc := nl; sr_path := url;
             sr_query := qry; sr_fragment := frag |}.

(** [s.rfind("/")] followed by [s.find(";", i)]. *)
Definition splitparams (url : str) : str * str :=
  if mem_char (chr "/") url then
    let segs := split_on (chr "/") url in
    let lastseg := last segs [] in
    let front := firstn (length url - length lastseg) url in
    match find_char (chr ";") lastseg with
    | Some i => (front ++ firstn i lastseg, skipn (S i) lastseg)
    | None => (url, [])
    end
  else split_once (chr ";") url.

Definition urlparse_with (url scheme0 : str) : result ParseResult :=
  r <- urlsplit url scheme0 ;;
  let '(url, prm) :=
    if mem_str (sr_scheme r) uses_params && mem_char (chr ";") (sr_path r)
    then splitparams (sr_path r) else (sr_path r, []) in
  Ok {| scheme := sr_scheme r; netloc := sr_netloc r; path := url; params := prm;
        query := sr_query r; fragment := sr_fragment r |}.

Definition urlparse (url : str) : result ParseResult := urlparse_with url [].

Definition urlunsplit (sch nl url qry frag : str) : str :=
  let url :=
    if truthy nl || (truthy sch && mem_str sch uses_netloc
                     && negb (startswith (lit "//") url))
    then let url := if truthy url && negb (startswith (lit "/") url)
                    then lit "/" ++ url else url in
         lit "//" ++ nl ++ url
    else url in
  let url := if truthy sch then sch ++ lit ":" ++ url else url in
  let url := if truthy qry then url ++ lit "?" ++ qry else url in
  if truthy frag then url ++ lit "#" ++ frag else url.

Definition urlunparse (p : ParseResult) : str :=
  let url := if truthy (params p) then path p ++ lit ";" ++ params p else path p in
  urlunsplit (scheme p) (netloc p) url (query p) (fragment p).

(** [segments[1:-1] = filter(None, segments[1:-1])] *)
Definition filter_middle (segments : list str) : list str :=
  match segments with
  | [] => []
  | [x] => [x]
  | x :: rest => x :: filter truthy (removelast rest) ++ [last rest []]
  end.

(** The loop of [urljoin] over the segments. *)
Fixpoint resolve_segments (segments resolved : list str) : list str :=
  match segments with
  | [] => resolved
  | seg :: rest =>
      if str_eqb seg (lit "..") then resolve_segments rest (removelast resolved)
      else if str_eqb seg (lit ".") then resolve_segments rest resolved
      else resolve_segments rest (resolved ++ [seg])
  end.

Definition urljoin (base url : str) : result str :=
  if negb (truthy base) then Ok url
  else if negb (truthy url) then Ok base
  else
    b <- urlparse_with base [] ;;
    u <- urlparse_with url (scheme b) ;;
    if negb (str_eqb (scheme u) (scheme b)) || negb (mem_str (scheme u) uses_relative)
    then Ok url
    else if mem_str (scheme u) uses_netloc && truthy (netloc u)
    then Ok (urlunparse u)
    else
      let nl := if mem_str (scheme u) uses_netloc then netloc b else netloc u in
      if negb (truthy (path u)) && negb (truthy (params u))
      then
        let qry := if negb (truthy (query u)) then query b else query u in
        Ok (urlunparse {| scheme := scheme u; netloc := nl; path := path b;
                          params := params b; query := qry;
                          fragment := fragment u |})
      else
        let base_parts := split_on (chr "/") (path b) in
        let base_parts :=
          if negb (str_eqb (last base_parts []) []) then removelast base_parts
          else base_parts in
        let segments :=
          if startswith (lit "/") (path u) then split_on (chr "/") (path u)
          else filter_middle (base_parts ++ split_on (chr "/") (path u)) in
        let resolved := resolve_segments segments [] in
        let resolved :=
          if mem_str (last segments []) [lit "."; lit ".."] then resolved ++ [[]]
          else resolved in
        Ok (urlunparse {| scheme := scheme u; netloc := nl;
                          path := or_else (join (lit "/") resolved) (lit "/");
                          params := params u; query := query u;
                          fragment := fragment u |}).

End Urllib.

(** [quote(s, safe="")]: the UTF-8 bytes of [s], percent-encoded except for
    letters, digits and [_.-~]. *)
Definition hex_digit_upper (n : Z) : char :=
  (if n <? 10 then 48 + n else 55 + n)%Z.

Definition utf8 (c : char) : list Z :=
  (if c <? 128 then [c]
   else if c <? 2048 then [192 + c / 64; 128 + c mod 64]
   else if c <? 65536 then [224 + c / 4096; 128 + (c / 64) mod 64; 128 + c mod 64]
   else [240 + c / 262144; 128 + (c / 4096) mod 64; 128 + (c / 64) mod 64;
         128 + c mod 64])%Z.

Definition quote_all (s : str) : str :=
  flat_map (fun c =>
    if (c <? 128)%Z && (is_ascii_alpha c || is_ascii_digit c || mem_char c (lit "_.-~"))
    then [c]
    else flat_map (fun b => [chr "%"; hex_digit_upper (b / 16); hex_digit_upper (b mod 16)]%Z)
                  (utf8 c)) s.

(* ================================================================== *)
(** ** [html.unescape] *)

Definition invalid_charrefs : list (Z * Z) :=
  [(0, 65533); (13, 13); (128, 8364); (129, 129); (130, 8218); (131, 402);
   (132, 8222); (133, 8230); (134, 8224); (135, 8225); (136, 710); (137, 8240);
   (138, 352); (139, 8249); (140, 338); (141, 141); (142, 381); (143, 143);
   (144, 144); (145, 8216); (146, 8217); (147, 8220); (148, 8221); (149, 8226);
   (150, 8211); (151, 8212); (152, 732); (153, 8482); (154, 353); (155, 8250);
   (156, 339); (157, 157); (158, 382); (159, 376)]%Z.

Definition invalid_codepoint (n : Z) : bool :=
  ((1 <=? n) && (n <=? 8) || (14 <=? n) && (n <=? 31) || (127 <=? n) && (n <=? 159)
   || (64976 <=? n) && (n <=? 65007) || (n =? 11)
   || (n <=? 1114111) && (65534 <=? n mod 65536))%Z.

Fixpoint assoc_Z (n : Z) (l : list (Z * Z)) : option Z :=
  match l with
  | [] => None
  | (k, v) :: l' => if (k =? n)%Z then Some v else assoc_Z n l'
  end.

Definition is_hex_digit (c : char) : bool :=
  is_ascii_digit c || ((97 <=? c) && (c <=? 102) || (65 <=? c) && (c <=? 70))%Z.

Definition hex_value (c : char) : Z :=
  (if is_ascii_digit c then c - 48 else lower_ascii c - 87)%Z.

(** [int(s, base)] on a string of digits of that base. *)
Definition int_of (base : Z) (s : str) : Z :=
  fold_left (fun acc c => (acc * base + hex_value c)%Z) s 0%Z.

Definition charref_name_char : cset :=
  fun c => negb (mem_char c ([9; 10; 12]%Z ++ lit " <&#;")).

(** [_charref] *)
Definition charref_re : regex :=
  Chr (c_is "&") ;;;
  Alt (Chr (c_is "#") ;;; Plus is_ascii_digit ;;; Opt (Chr (c_is ";")))
 (Alt (Chr (c_is "#") ;;; Chr (one_of "xX") ;;; Plus is_hex_digit ;;; Opt (Chr (c_is ";")))
      (Rep true 1 (Some 32) charref_name_char ;;; Opt (Chr (c_is ";")))).

Section Html.
Variable W : world.

(** The loop [for x in range(len(s)-1, 1, -1)] of [_replace_charref]. *)
Fixpoint longest_name (s : str) (x : nat) : option str :=
  match x with
  | O | 1 => None
  | S x' =>
      match html5 W (firstn x s) with
      | Some v => Some (v ++ skipn x s)
      | None => longest_name s x'
      end
  end.

(** [int(s)] on a string of decimal digits: [ValueError] when the string has
    more digits than the limit of the interpreter allows (leading zeros
    count). *)
Definition int_decimal (s : str) : result Z :=
  if (0 <? int_max_str_digits W) && (int_max_str_digits W <? length s)
  then Raise ValueError
  else Ok (int_of 10 s).

(** [_replace_charref], on the text of group 1.  The conversion of a hexadecimal
    reference has no limit. *)
Definition replace_charref (s : str) : result str :=
  match s with
  | [] => Ok []
  | c0 :: s1 =>
      if char_eqb c0 (chr "#") then
        num <- match s1 with
               | c1 :: s2 =>
                   if mem_char c1 (lit "xX")
                   then Ok (int_of 16 (rstrip_chars (lit ";") s2))
                   else int_decimal (rstrip_chars (lit ";") s1)
               | [] => Ok 0%Z
               end ;;
        Ok match assoc_Z num invalid_charrefs with
           | Some v => [v]
           | None =>
               if ((55296 <=? num) && (num <=? 57343) || (1114111 <? num))%Z
               then [65533%Z]
               else if invalid_codepoint num then []
               else [num]
           end
      else
        Ok match html5 W s with
           | Some v => v
           | None =>
               match longest_name s (length s - 1) with
               | Some v => v
               | None => chr "&" :: s
               end
           end
  end.

(** [html.unescape]: it raises what [int] raises on a decimal reference. *)
Definition unescape (s : str) : result str :=
  if negb (mem_char (chr "&") s) then Ok s
  else re_sub_raising charref_re (fun m => replace_charref (skipn 1 m)) s.

End Html.

(* ================================================================== *)
(** ** The program: constants *)

Definition BASE_URL : str := lit "https://roxiestreams.live/".

Definition CATEGORIES : list str :=
  map lit [""; "soccer"; "mlb"; "nba"; "nfl"; "nhl"; "fighting"; "motorsports";
           "motogp"; "ufc"; "ppv"; "wwe-streams"; "f1"; "f1-streams"; "nascar"].

Definition USER_AGENT : str :=
  lit "Mozilla/5.0 (Windows NT 10.0; Win64; x64; rv:144.0) Gecko/20100101 Firefox/144.0".

Definition REFERER : str := BASE_URL.

(** The names of the two output files; the contents are the result of
    [write_playlists]. *)
Definition VLC_OUTPUT : str := lit "Roxiestreams_VLC.m3u8".
Definition TIVIMATE_OUTPUT : str := lit "Roxiestreams_TiviMate.m3u8".

Definition TV_INFO : list (str * (str * str * str)) :=
  map (fun e => let '(k, a, b, c) := e in (lit k, (lit a, lit b, lit c)))
  [("soccer", "Soccer.Dummy.us", "https://i.postimg.cc/HsWHFvV0/Soccer.png", "Soccer");
   ("mlb", "MLB.Baseball.Dummy.us", "https://i.postimg.cc/FsFmwC7K/Baseball3.png", "MLB");
   ("nba", "NBA.Basketball.Dummy.us", "https://i.postimg.cc/jdqKB3LW/Basketball-2.png", "NBA");
   ("nfl", "Football.Dummy.us", "https://i.postimg.cc/tRNpSGCq/Maxx.png", "NFL");
   ("nhl", "NHL.Hockey.Dummy.us", "https://i.postimg.cc/mgMRQ7FR/nhl-logo-png-seeklogo-534236.png", "NHL");
   ("fighting", "PPV.EVENTS.Dummy.us", "https://i.postimg.cc/8c4GjMnH/Combat-Sports.png", "Combat Sports");
   ("motorsports", "Racing.Dummy.us", "https://i.postimg.cc/yY6B2pkv/F1.png", "Motorsports");
   ("ufc", "UFC.Fight.Pass.Dummy.us", "https://i.postimg.cc/59Sb7W9D/Combat-Sports2.png", "UFC");
   ("ppv", "PPV.EVENTS.Dummy.us", "https://i.postimg.cc/mkj4tC62/PPV.png", "PPV");
   ("wwe-streams", "PPV.EVENTS.Dummy.us", "https://i.postimg.cc/wTxHn47J/WWE2.png", "WWE");
   ("f1", "Racing.Dummy.us", "https://i.postimg.cc/yY6B2pkv/F1.png", "Formula 1");
   ("f1-streams", "Racing.Dummy.us", "https://i.postimg.cc/yY6B2pkv/F1.png", "Formula 1");
   ("nascar", "Racing.Dummy.us", "https://i.postimg.cc/m2dR43HV/Motorsports2.png", "NASCAR Cup Series");
   ("misc", "Sports.Dummy.us", "https://i.postimg.cc/qMm0rc3L/247.png", "Random Events")].

(** The characters that end a manifest URL: whitespace, both quote
    characters, the angle brackets and the backquote. *)
Definition url_stop : cset :=
  cup is_space (fun c => mem_char c (34%Z :: lit "'<>`")).

(** [M3U8_RE], compiled with [re.IGNORECASE]; its only group is the whole
    match. *)
Definition M3U8_RE : regex :=
  IStr "http" ;;; Opt (Chr (c_ieq "s")) ;;; IStr "://" ;;;
  PlusLazy (none_of url_stop) ;;; IStr ".m3u8" ;;;
  Opt (Chr (c_ieq "?") ;;; Star (none_of url_stop)).

(* ================================================================== *)
(** ** The program: functions *)

(** [BeautifulSoup] queries. *)
Definition attr (name : String.string) (t : tag) : option str :=
  match find (fun kv => str_eqb (fst kv) (lit name)) (tag_attrs t) with
  | Some kv => Some (snd kv)
  | None => None
  end.

Definition has_attr (name : String.string) (t : tag) : bool :=
  match attr name t with Some _ => true | None => false end.

(** [tag.get(name, "")] *)
Definition attr_or_empty (name : String.string) (t : tag) : str :=
  match attr name t with Some v => v | None => [] end.

(** [soup.find_all(names, a=True)] *)
Definition find_all (names : list String.string) (a : String.string) (s : soup) : list tag :=
  filter (fun t => mem_str (tag_name t) (map lit names) && has_attr a t) s.

(** [soup.find(name)] *)
Definition find_tag (name : String.string) (s : soup) : option tag :=
  find (fun t => str_eqb (tag_name t) (lit name)) s.

(** [soup.find(name, a=v)] *)
Definition find_tag_attr (name a v : String.string) (s : soup) : option tag :=
  find (fun t => str_eqb (tag_name t) (lit name)
                 && match attr a t with Some x => str_eqb x (lit v) | None => false end) s.

Section Program.
Variable W : world.

Definition fetch (url : str) : option soup * str :=
  match http_get W url with
  | Some text => (Some (html_parser W text), text)
  | None => (None, [])
  end.

Definition abs_url (base : str) (href : option str) : result (option str) :=
  if negb (otruthy href) then Ok None
  else u <- urljoin W base (oor_else href []) ;; Ok (Some u).

Definition extract_m3u8_from_text (text : str) (base : option str)
  : result (option str) :=
  if negb (truthy text) then Ok None
  else
    match search M3U8_RE text with
    | Some (_, m, _) =>
        let url := m in
        let url := if startswith (lit "//") url then lit "https:" ++ url else url in
        match base with
        | Some b =>
            if truthy b then
              p <- urlparse W url ;;
              if negb (truthy (scheme p))
              then u <- urljoin W b url ;; Ok (Some u)
              else Ok (Some url)
            else Ok (Some url)
        | None => Ok (Some url)
        end
    | None => Ok None
    end.

(** The five substitutions of [clean_event_title]. *)
Definition suffix_re (word : String.string) : regex :=
  Star is_space ;;; Chr (c_ieq "-") ;;; Star is_space ;;; IStr word ;;;
  Star any_char ;;; Eol.

Definition pipe_re : regex :=
  Star is_space ;;; Chr (c_is "|") ;;; Star any_char ;;; Eol.

Definition erase (r : regex) (t : str) : str := re_sub r (fun _ => []) t.

Definition clean_event_title (raw_title : str) : result str :=
  if negb (truthy raw_title) then Ok []
  else
    t <- unescape W raw_title ;;
    let t := strip t in
    let t := join (lit " ") (split_ws t) in
    let t := erase (suffix_re "Roxiestreams") t in
    let t := erase (suffix_re "Watch Live") t in
    let t := erase (suffix_re "Watch") t in
    let t := erase (suffix_re "Live Stream") t in
    let t := erase pipe_re t in
    Ok (strip_chars (lit " -,:") t).

Definition derive_title_from_page (sp : option soup) (fallback_url : option str)
  : result str :=
  match sp with
  | None => Ok []
  | Some sp =>
      let h1 := find_tag "h1" sp in
      if match h1 with Some t => truthy (tag_text t) | None => false end
      then clean_event_title (match h1 with Some t => tag_text t | None => [] end)
      else
        let og :=
          match find_tag_attr "meta" "property" "og:title" sp with
          | Some t => Some t
          | None => find_tag_attr "meta" "name" "og:title" sp
          end in
        let content := match og with Some t => attr "content" t | None => None end in
        if otruthy content
        then clean_event_title (oor_else content [])
        else
          let title := find_tag "title" sp in
          if match title with Some t => truthy (tag_text t) | None => false end
          then clean_event_title
                 (match title with Some t => tag_text t | None => [] end)
          else
            if otruthy fallback_url then
              p <- urlparse W (oor_else fallback_url []) ;;
              let pth := rstrip_chars (lit "/") (path p) in
              if truthy pth then
                let slug := replace (lit "-") (lit " ")
                                    (last (split_on (chr "/") pth) []) in
                clean_event_title slug
              else Ok []
            else Ok []
  end.

(** One element of the per-call scan: the set [seen] and the list
    [results]. *)
Definition scan_state : Type := list str * list (str * str).

(** [if cand and cand not in seen: seen.add(cand); title = ...;
    title = clean_event_title(title); results.append((title, cand))], the
    title being the first non-empty string among the element's own title,
    [base_title] and [cand]. *)
Definition note_cand (base_title : str) (own_title : str) (cand : option str)
    (st : scan_state) : result scan_state :=
  match cand with
  | Some c =>
      if truthy c && negb (mem_str c (fst st))
      then
        title <- clean_event_title (or_else own_title (or_else base_title c)) ;;
        Ok (c :: fst st, snd st ++ [(title, c)])
      else Ok st
  | None => Ok st
  end.

(** [tag.get("title") or tag.get("alt")] and the like. *)
Definition first_attr (a b : String.string) (t : tag) : str :=
  oor_else (attr a t) (oor_else (attr b t) []).

Definition get_event_m3u8 (event_href : str) (anchor_text : option str)
  : result (list (str * str)) :=
  if negb (truthy event_href) then Ok []
  else
    event_url <- (if startswith (lit "http") event_href then Ok event_href
                  else urljoin W BASE_URL event_href) ;;
    direct <- extract_m3u8_from_text event_href (Some event_url) ;;
    if otruthy direct then
      let direct := oor_else direct [] in
      t <- (if otruthy anchor_text then Ok (oor_else anchor_text [])
            else d <- derive_title_from_page None (Some event_url) ;;
                 Ok (or_else d direct)) ;;
      title <- clean_event_title t ;;
      Ok [(title, direct)]
    else
      match fetch event_url with
      | (None, html_text) =>
          if truthy html_text then Raise AttributeError else Ok []
      | (Some sp, html_text) =>
          base_title <- (if otruthy anchor_text
                         then clean_event_title (oor_else anchor_text [])
                         else Ok []) ;;
          base_title <- (if negb (truthy base_title)
                         then derive_title_from_page (Some sp) (Some event_url)
                         else Ok base_title) ;;
          (* 1) anchors with .m3u8 href *)
          st <- foldM (fun (st : scan_state) a =>
                  let href := strip (attr_or_empty "href" a) in
                  c1 <- extract_m3u8_from_text href (Some event_url) ;;
                  cand <- (if otruthy c1 then Ok c1
                           else extract_m3u8_from_text (tag_markup a) (Some event_url)) ;;
                  if otruthy cand then
                    let cand := strip (oor_else cand []) in
                    let cand := if startswith (lit "//") cand
                                then lit "https:" ++ cand else cand in
                    if negb (mem_str cand (fst st)) then
                      title <- clean_event_title
                                 (or_else (tag_text a) (or_else base_title cand)) ;;
                      Ok (cand :: fst st, snd st ++ [(title, cand)])
                    else Ok st
                  else Ok st)
                (find_all ["a"] "href" sp) ([], []) ;;
          (* 2) <source src=...> or <video src=...> *)
          st <- foldM (fun (st : scan_state) t =>
                  let src := strip (attr_or_empty "src" t) in
                  cand <- extract_m3u8_from_text src (Some event_url) ;;
                  note_cand base_title (first_attr "title" "alt" t) cand st)
                (find_all ["source"; "video"] "src" sp) st ;;
          (* 3) iframes: fetch iframe content and search *)
          st <- foldM (fun (st : scan_state) iframe =>
                  let src := strip (attr_or_empty "src" iframe) in
                  iframe_url <- urljoin W event_url src ;;
                  let '(soup_if, html_if) := fetch iframe_url in
                  if truthy html_if then
                    cand <- extract_m3u8_from_text html_if (Some iframe_url) ;;
                    st <- note_cand base_title (first_attr "title" "name" iframe)
                                    cand st ;;
                    match soup_if with
                    | Some soup_if =>
                        st <- foldM (fun (st : scan_state) a =>
                                cand <- extract_m3u8_from_text (attr_or_empty "href" a)
                                                               (Some iframe_url) ;;
                                note_cand base_title (tag_text a) cand st)
                              (find_all ["a"] "href" soup_if) st ;;
                        foldM (fun (st : scan_state) t =>
                                cand <- extract_m3u8_from_text (attr_or_empty "src" t)
                                                               (Some iframe_url) ;;
                                note_cand base_title (first_attr "title" "alt" t)
                                          cand st)
                              (find_all ["source"; "video"] "src" soup_if) st
                    | None => Ok st
                    end
                  else Ok st)
                (find_all ["iframe"] "src" sp) st ;;
          (* 4) inline JS / page HTML search for m3u8 *)
          cand <- extract_m3u8_from_text html_text (Some event_url) ;;
          let st : scan_state :=
            match cand with
            | Some c =>
                if truthy c && negb (mem_str c (fst st))
                then (c :: fst st, snd st ++ [(or_else base_title c, c)])
                else st
            | None => st
            end in
          (* Final normalization: absolute urls and dedupe *)
          fin <- foldM (fun (fs : scan_state) (tu : str * str) =>
                   let '(t, u) := tu in
                   if negb (truthy u) then Ok fs
                   else
                     let u := strip u in
                     let u := if startswith (lit "//") u then lit "https:" ++ u else u in
                     p <- urlparse W u ;;
                     u <- (if negb (truthy (scheme p)) then urljoin W event_url u
                           else Ok u) ;;
                     if mem_str u (fst fs) then Ok fs
                     else
                       title_clean <- clean_event_title t ;;
                       title_clean <-
                         (if negb (truthy title_clean)
                          then d <- derive_title_from_page (Some sp) (Some event_url) ;;
                               Ok (or_else d u)
                          else Ok title_clean) ;;
                       Ok (u :: fst fs, snd fs ++ [(title_clean, u)]))
                 (snd st) ([], []) ;;
          Ok (snd fin)
      end.

(** [any(k in low for k in ("stream", "streams", "match", "game", "event"))] *)
Definition has_keyword (low : str) : bool :=
  existsb (fun k => contains (lit k) low) ["stream"; "streams"; "match"; "game"; "event"].

(** The pattern [-\d+$] *)
Definition slug_number_re : regex :=
  Chr (c_is "-") ;;; Plus (is_decimal W) ;;; Eol.

Definition is_match (r : regex) (s : str) : bool :=
  match search r s with Some _ => true | None => false end.

Definition get_category_event_candidates (category_path : str)
  : result (list (str * str)) :=
  cat_url <- (if negb (truthy category_path) then Ok BASE_URL
              else urljoin W BASE_URL category_path) ;;
  match fetch cat_url with
  | (None, html_text) => if truthy html_text then Raise AttributeError else Ok []
  | (Some sp, html_text) =>
      st <- foldM (fun (st : scan_state) a =>
              let href := strip (attr_or_empty "href" a) in
              let text := or_else (tag_text_sp a) [] in
              if negb (truthy href)
                 || startswith (lit "mailto:") href || startswith (lit "javascript:") href
              then Ok st
              else
                full <- (if startswith (lit "http") href then Ok href
                         else urljoin W cat_url href) ;;
                let low := str_lower W href in
                if contains (lit ".m3u8") href || has_keyword low
                   || is_match slug_number_re low
                then
                  if negb (mem_str full (fst st))
                  then Ok (full :: fst st, snd st ++ [(strip text, full)])
                  else Ok st
                else Ok st)
            (find_all ["a"] "href" sp) ([], []) ;;
      let st : scan_state :=
        if negb (truthy_list (snd st)) then
          fold_left (fun (st : scan_state) m =>
                       if truthy m && negb (mem_str m (fst st))
                       then (m :: fst st, snd st ++ [([], m)])
                       else st)
                    (findall M3U8_RE html_text) st
        else st in
      Ok (snd st)
  end.

Definition get_tv_data_for_category (cat_path : str) : str * str * str :=
  let key := strip (str_lower W (or_else cat_path (lit "misc"))) in
  let key := replace (lit "streams") [] (replace (lit "-streams") [] key) in
  match find (fun kv => str_eqb (fst kv) key) TV_INFO with
  | Some kv => snd kv
  | None =>
      match find (fun kv => contains (fst kv) key) TV_INFO with
      | Some kv => snd kv
      | None => (lit "Sports.Dummy.us", lit "https://i.postimg.cc/qMm0rc3L/247.png",
                 lit "Random Events")
      end
  end.

(** A [StreamRecord]: the triple appended to [all_streams]. *)
Record stream : Type := {
  category : str;
  displayName : str;
  manifestUrl : str
}.


Definition playlist_header : str :=
  lit "#EXTM3U x-tvg-url=" ++ dq
  ++ lit "https://epgshare01.online/epgshare01/epg_ripper_ALL_SOURCES1.xml.gz" ++ dq ++ nl
  ++ lit "# Last Updated: " ++ lit (utcnow W) ++ nl ++ nl.

Definition extinf_line (s : stream) : str :=
  let '(tvg_id, logo, group_name) := get_tv_data_for_category (category s) in
  lit "#EXTINF:-1 tvg-logo=" ++ dq ++ logo ++ dq ++ lit " tvg-id=" ++ dq ++ tvg_id ++ dq
  ++ lit " group-title=" ++ dq ++ lit "Roxiestreams - " ++ group_name ++ dq
  ++ lit "," ++ displayName s ++ nl.

(** The strings that a file opened with [encoding="utf-8"] takes: those
    without a surrogate code point. *)
Definition encodable (s : str) : bool :=
  forallb (fun c => negb ((55296 <=? c) && (c <=? 57343))%Z) s.

(** [f.write(chunk)] for each chunk in turn, after [written]: the text that
    the file holds when it is closed, and the exception that ended the
    writing, if any.  A chunk that cannot be encoded raises
    [UnicodeEncodeError]; what was written before it stays in the file. *)
Fixpoint write_chunks (chunks : list str) (written : str) : str * option exn :=
  match chunks with
  | [] => (written, None)
  | c :: rest =>
      if encodable c then write_chunks rest (written ++ c)
      else (written, Some UnicodeEncodeError)
  end.

(** The two writes of the loop body, the second line ending in [tail]. *)
Definition entry_chunks (tail : str) (s : stream) : list str :=
  [extinf_line s; manifestUrl s ++ tail].

(** What the two output files hold after a call: [None] for a file that was
    not opened. *)
Record outputs : Type := {
  vlc_output : option str;
  tivimate_output : option str
}.

(** [write_playlists]: the contents of [VLC_OUTPUT] and of [TIVIMATE_OUTPUT],
    and how the call ended. *)
Definition write_playlists (streams : list stream) : outputs * result unit :=
  let header := playlist_header in
  match write_chunks (header :: flat_map (entry_chunks (nl ++ nl)) streams) [] with
  | (vlc, Some e) =>
      ({| vlc_output := Some vlc; tivimate_output := None |}, Raise e)
  | (vlc, None) =>
      let ua_enc := quote_all USER_AGENT in
      match write_chunks
              (header :: flat_map (entry_chunks (lit "|referer=" ++ REFERER
                                                 ++ lit "|user-agent=" ++ ua_enc
                                                 ++ nl ++ nl)) streams) [] with
      | (tivimate, Some e) =>
          ({| vlc_output := Some vlc; tivimate_output := Some tivimate |}, Raise e)
      | (tivimate, None) =>
          ({| vlc_output := Some vlc; tivimate_output := Some tivimate |}, Ok tt)
      end
  end.

(** [s.title()] on ASCII text: the program applies it to category names. *)
Fixpoint title_from (prev_cased : bool) (s : str) : str :=
  match s with
  | [] => []
  | c :: s' =>
      if is_ascii_alpha c
      then (if prev_cased then lower_ascii c else upper_ascii c) :: title_from true s'
      else c :: title_from false s'
  end.

Definition str_title (s : str) : str := title_from false s.

Definition display_name (cat title : str) : str :=
  str_title (or_else cat (lit "Roxiestreams")) ++ lit " - " ++ title.

(** The state of the run: [all_streams] and [seen_urls]. *)
Definition run_state : Type := list stream * list str.

(** The body of [for anchor_text, href in candidates] for category [cat]. *)
Definition process_candidate (cat : str) (st : run_state) (cand : str * str)
  : result run_state :=
  let '(anchor_text, href) := cand in
  if contains (lit ".m3u8") href then
    e <- extract_m3u8_from_text href (Some href) ;;
    let clean := oor_else e href in
    if truthy clean && negb (mem_str clean (snd st)) then
      t <- clean_event_title anchor_text ;;
      title <- (if truthy t then Ok t
                else d <- derive_title_from_page None (Some href) ;;
                     Ok (or_else d clean)) ;;
      Ok (fst st ++ [{| category := or_else cat (lit "misc");
                        displayName := display_name cat title;
                        manifestUrl := clean |}],
          clean :: snd st)
    else Ok st
  else
    found <- get_event_m3u8 href (Some anchor_text) ;;
    foldM (fun (st : run_state) (ev : str * str) =>
             let '(ev_title, ev_url) := ev in
             if negb (truthy ev_url) || negb (contains (lit ".m3u8") ev_url) then Ok st
             else
               e <- extract_m3u8_from_text ev_url (Some href) ;;
               let clean := oor_else e ev_url in
               if negb (truthy clean) then Ok st
               else if mem_str clean (snd st) then Ok st
               else
                 final_title <-
                   (if truthy ev_title then Ok ev_title
                    else if truthy anchor_text then Ok anchor_text
                    else d <- derive_title_from_page None (Some href) ;;
                         Ok (or_else d clean)) ;;
                 final_title <- clean_event_title final_title ;;
                 Ok (fst st ++ [{| category := or_else cat (lit "misc");
                                   displayName := display_name cat final_title;
                                   manifestUrl := clean |}],
                     clean :: snd st))
          found st.

(** The body of [for cat in CATEGORIES]: a category whose crawl raises is
    skipped. *)
Definition process_category (st : run_state) (cat : str) : result run_state :=
  match get_category_event_candidates cat with
  | Raise _ => Ok st
  | Ok candidates => foldM (process_candidate cat) candidates st
  end.

(** [all_streams] at the end of the loop of [main]. *)
Definition collect_streams : result (list stream) :=
  st <- foldM process_category CATEGORIES ([], []) ;;
  Ok (fst st).

(** [main]: the contents of the two files, and [all_streams] or the
    exception that ended the run.  An exception of the loop leaves no file
    opened. *)
Definition main : outputs * result (list stream) :=
  match collect_streams with
  | Raise e => ({| vlc_output := None; tivimate_output := None |}, Raise e)
  | Ok all_streams =>
      let '(files, written) := write_playlists all_streams in
      (files, match written with Ok _ => Ok all_streams | Raise e => Raise e end)
  end.

End Program.

(* ================================================================== *)
(** ** Reference worlds *)

Fixpoint assoc_str {A : Type} (k : str) (l : list (str * A)) : option A :=
  match l with
  | [] => None
  | (k', v) :: l' => if str_eqb k' k then Some v else assoc_str k l'
  end.

(** The entries of [html.entities.html5] that the examples below use. *)
Definition html5_excerpt : list (str * str) :=
  [(lit "amp;", lit "&"); (lit "amp", lit "&"); (lit "lt;", lit "<");
   (lit "lt", lit "<"); (lit "gt;", lit ">"); (lit "gt", lit ">");
   (lit "quot;", dq); (lit "quot", dq)].

(** A site given by its pages: URL, response text and parsed document.
    Every other URL fails; letter case and digits are those of ASCII. *)
Definition site (pages : list (str * (str * soup))) : world := {|
  http_get := fun url =>
    match assoc_str url pages with Some ts => Some (fst ts) | None => None end;
  html_parser := fun text =>
    match find (fun p => str_eqb (fst (snd p)) text) pages with
    | Some p => snd (snd p)
    | None => []
    end;
  netloc_refused := fun _ => false;
  html5 := fun name => assoc_str name html5_excerpt;
  str_lower := map lower_ascii;
  is_decimal := is_ascii_digit;
  int_max_str_digits := 4300;
  utcnow := "2025-11-04 12:00 UTC"
|}.

(** No page answers. *)
Definition offline : world := site [].

(** An anchor element and its serialisation. *)
Definition anchor (href text : str) : tag := {|
  tag_name := lit "a";
  tag_attrs := [(lit "href", href)];
  tag_text := text;
  tag_text_sp := text;
  tag_markup := lit "<a href=" ++ dq ++ href ++ dq ++ lit ">" ++ text ++ lit "</a>"
|}.

(** A page made of anchors, at [url]. *)
Definition page_of_anchors (url : str) (anchors : list tag) : str * (str * soup) :=
  (url, (flat_map tag_markup anchors, anchors)).

(** The root category page links to one manifest, without anchor text. *)
Definition slug_site : world :=
  site [page_of_anchors BASE_URL [anchor (lit "/live/123-match.m3u8") []]].


(** An iframe element. *)
Definition iframe_tag (src : str) : tag := {|
  tag_name := lit "iframe";
  tag_attrs := [(lit "src", src)];
  tag_text := [];
  tag_text_sp := [];
  tag_markup := lit "<iframe src=" ++ dq ++ src ++ dq ++ lit "></iframe>"
|}.

(** An event page embeds [/embed/1], whose document embeds [/embed/2];
    only the document of [/embed/2] names a manifest. *)
Definition nested_site : world :=
  site [(lit "https://roxiestreams.live/nba/lakers-celtics-7",
         (tag_markup (iframe_tag (lit "/embed/1")), [iframe_tag (lit "/embed/1")]));
        (lit "https://roxiestreams.live/embed/1",
         (tag_markup (iframe_tag (lit "/embed/2")), [iframe_tag (lit "/embed/2")]));
        (lit "https://roxiestreams.live/embed/2",
         (lit "var src = 'https://cdn.example.com/deep.m3u8';", []))].

(** The server of [nested_site] without the document of [/embed/2]. *)
Definition nested_site_cut (url : str) : option str :=
  if str_eqb url (lit "https://roxiestreams.live/embed/2") then None
  else http_get nested_site url.


(** The root page links to an event page; the event page embeds
    [/embed/1], whose body names a manifest in a script, outside any tag. *)
Definition iframe_site : world :=
  site [page_of_anchors BASE_URL
          [anchor (lit "/nba/lakers-celtics-7") (lit "Lakers vs Celtics")];
        (lit "https://roxiestreams.live/nba/lakers-celtics-7",
         (tag_markup (iframe_tag (lit "/embed/1")), [iframe_tag (lit "/embed/1")]));
        (lit "https://roxiestreams.live/embed/1",
         (lit "var src = 'https://cdn.example.com/live/lakers.m3u8?token=abc';", []))].

(** The same, but the event page embeds an iframe whose [src] is [//[]. *)
Definition broken_iframe_site : world :=
  site [page_of_anchors BASE_URL
          [anchor (lit "/nba/lakers-celtics-7") (lit "Lakers vs Celtics")];
        (lit "https://roxiestreams.live/nba/lakers-celtics-7",
         (tag_markup (iframe_tag (lit "//[")), [iframe_tag (lit "//[")]))].



(** The root page and the soccer page link to the same manifest. *)
Definition shared_site : world :=
  site [page_of_anchors BASE_URL
          [anchor (lit "https://cdn.example.com/live/a.m3u8") (lit "Cup Final")];
        page_of_anchors (lit "https://roxiestreams.live/soccer")
          [anchor (lit "https://cdn.example.com/live/a.m3u8") (lit "Soccer Final");
           anchor (lit "https://cdn.example.com/live/b.m3u8") (lit "Derby")]].

(** An event page that links to one manifest twice and to another once. *)
Definition mirror_site : world :=
  site [page_of_anchors (lit "https://roxiestreams.live/nba/lakers-celtics-7")
          [anchor (lit "https://cdn.example.com/live/a.m3u8") (lit "Main");
           anchor (lit "https://cdn.example.com/live/a.m3u8") (lit "Mirror");
           anchor (lit "https://cdn.example.com/live/b.m3u8") (lit "Backup")]].

(** A server that answers every request with the same text. *)
Definition echo (text : str) (url : str) : option str := Some text.

(** A category page whose two links do not qualify, and whose script names
    two manifests, one of them twice. *)
Definition script_page : str * soup :=
  let anchors := [anchor (lit "mailto:admin@example.com") (lit "Contact");
                  anchor (lit "/about") (lit "About")] in
  (flat_map tag_markup anchors
   ++ lit "<script>var a='https://cdn.example.com/a.m3u8', b='https://cdn.example.com/b.m3u8?x=1', c='https://cdn.example.com/a.m3u8';</script>",
   anchors).

Definition script_site : world := site [(BASE_URL, script_page)].

(* ================================================================== *)
(** ** What a pattern matches

    [Matches r m rest]: the pattern [r] matches the text [m] when [rest] is
    what follows it (only [$] looks at [rest]). *)

Definition within (hi : option nat) (n : nat) : Prop :=
  match hi with Some h => n <= h | None => True end.

Inductive Matches : regex -> str -> str -> Prop :=
| M_Eps : forall rest, Matches Eps [] rest
| M_Chr : forall p c rest, p c = true -> Matches (Chr p) [c] rest
| M_Seq : forall r1 r2 m1 m2 rest,
    Matches r1 m1 (m2 ++ rest) -> Matches r2 m2 rest ->
    Matches (Seq r1 r2) (m1 ++ m2) rest
| M_AltL : forall r1 r2 m rest, Matches r1 m rest -> Matches (Alt r1 r2) m rest
| M_AltR : forall r1 r2 m rest, Matches r2 m rest -> Matches (Alt r1 r2) m rest
| M_Rep : forall g lo hi p m rest,
    forallb p m = true -> lo <= length m -> within hi (length m) ->
    Matches (Rep g lo hi p) m rest
| M_Eol : forall rest, rest = [] \/ rest = [10%Z] -> Matches Eol [] rest.

(** [r] matches somewhere in [s], starting after [b]. *)
Definition occurs_at (r : regex) (s b : str) : Prop :=
  exists m a, s = b ++ m ++ a /\ Matches r m a.

(* ================================================================== *)
(** ** Reference definitions

    The predicates and reference functions in which the properties below
    are stated. *)

(** [spells f pat m]: [m] is the literal [pat], character by character
    under the comparison [f]. *)
Fixpoint spells (f : Ascii.ascii -> cset) (pat : String.string) (m : str) : bool :=
  match pat, m with
  | String.EmptyString, [] => true
  | String.String a pat', c :: m' => f a c && spells f pat' m'
  | _, _ => false
  end.

(** Equality up to letter case, as [re.IGNORECASE] compares. *)
Definition caseless (pat : String.string) (m : str) : bool := spells c_ieq pat m.

(** A character that may stand in a manifest URL. *)
Definition url_char : cset := none_of url_stop.

(** What [M3U8_RE] describes: [http] or [https], [://], at least one URL
    character, [.m3u8], and possibly [?] with a query; letters in any
    case. *)
Definition manifest_url (u : str) : Prop :=
  exists sch body ext qry,
    u = sch ++ lit "://" ++ body ++ ext ++ qry /\
    (caseless "http" sch = true \/ caseless "https" sch = true) /\
    body <> [] /\ forallb url_char body = true /\
    caseless ".m3u8" ext = true /\
    (qry = [] \/ exists q, qry = chr "?" :: q /\ forallb url_char q = true).


(** The record [main] appends for a category, a title and a URL. *)
Definition stream_of (cat title clean : str) : stream :=
  {| category := or_else cat (lit "misc");
     displayName := display_name cat title;
     manifestUrl := clean |}.

(** The record with a cleaned title, if the title can be cleaned.  The run
    cleans the title of an encounter only when its URL is new: it raises on
    a new URL whose title cannot be cleaned, and passes over a known URL
    without looking at the title. *)
Definition titled (W : world) (cat title clean : str) : list stream :=
  match clean_event_title W title with
  | Ok t => [stream_of cat t clean]
  | Raise _ => []
  end.

(** The record that one resolved stream of an event page offers to
    [all_streams], before [seen_urls] is consulted. *)
Definition event_offer (W : world) (cat anchor_text href : str) (ev : str * str)
  : result (list stream) :=
  let '(ev_title, ev_url) := ev in
  if negb (truthy ev_url) || negb (contains (lit ".m3u8") ev_url) then Ok []
  else
    e <- extract_m3u8_from_text W ev_url (Some href) ;;
    let clean := oor_else e ev_url in
    if negb (truthy clean) then Ok []
    else
      final_title <-
        (if truthy ev_title then Ok ev_title
         else if truthy anchor_text then Ok anchor_text
         else d <- derive_title_from_page W None (Some href) ;;
              Ok (or_else d clean)) ;;
      Ok (titled W cat final_title clean).

(** The records one candidate offers, in order. *)
Definition candidate_offers (W : world) (cat : str) (cand : str * str)
  : result (list stream) :=
  let '(anchor_text, href) := cand in
  if contains (lit ".m3u8") href then
    e <- extract_m3u8_from_text W href (Some href) ;;
    let clean := oor_else e href in
    if truthy clean then
      match clean_event_title W anchor_text with
      | Ok t =>
          title <- (if truthy t then Ok t
                    else d <- derive_title_from_page W None (Some href) ;;
                         Ok (or_else d clean)) ;;
          Ok [stream_of cat title clean]
      | Raise _ => Ok []
      end
    else Ok []
  else
    found <- get_event_m3u8 W href (Some anchor_text) ;;
    foldM (fun acc ev => o <- event_offer W cat anchor_text href ev ;; Ok (acc ++ o))
          found [].

(** The run comes to the URL [u] for the candidate [cand] of a category
    page: [u] is not empty and is [extract_m3u8_from_text(x, base=href) or x]
    for the href [x] of the candidate, when the href contains [.m3u8], and
    else for a URL [x] that contains [.m3u8] among those that
    [get_event_m3u8] returns for the candidate. *)
Definition met_for (W : world) (cand : str * str) (u : str) : Prop :=
  let '(anchor_text, href) := cand in
  u <> [] /\
  if contains (lit ".m3u8") href then
    exists e,
      extract_m3u8_from_text W href (Some href) = Ok e /\ u = oor_else e href
  else
    exists found t ev_url e,
      get_event_m3u8 W href (Some anchor_text) = Ok found
      /\ In (t, ev_url) found
      /\ contains (lit ".m3u8") ev_url = true
      /\ extract_m3u8_from_text W ev_url (Some href) = Ok e
      /\ u = oor_else e ev_url.

(** Every record the run meets, in processing order: category by category,
    candidate by candidate, resolved stream by resolved stream. *)
Definition encounters (W : world) : result (list stream) :=
  foldM (fun acc cat =>
           match get_category_event_candidates W cat with
           | Raise _ => Ok acc
           | Ok candidates =>
               foldM (fun acc c => o <- candidate_offers W cat c ;; Ok (acc ++ o))
                     candidates acc
           end)
        CATEGORIES [].

(** Appending a record unless its URL is already there. *)
Definition add_new (st : run_state) (r : stream) : run_state :=
  if mem_str (manifestUrl r) (snd st) then st
  else (fst st ++ [r], manifestUrl r :: snd st).

(** The first record of each URL, in order of first appearance. *)
Definition keep_first (l : list stream) : list stream :=
  fst (fold_left add_new l ([], [])).

(** The first record of [l] with URL [u]. *)
Definition first_with (u : str) (l : list stream) : option stream :=
  find (fun r => str_eqb (manifestUrl r) u) l.

(** The state of the run is consistent when [seen_urls] holds exactly the
    URLs of [all_streams], each once. *)
Definition consistent (st : run_state) : Prop :=
  NoDup (map manifestUrl (fst st)) /\
  forall u, In u (snd st) <-> In u (map manifestUrl (fst st)).



(** The world [W] with another HTTP server. *)
Definition with_http (g : str -> option str) (W : world) : world := {|
  http_get := g;
  html_parser := html_parser W;
  netloc_refused := netloc_refused W;
  html5 := html5 W;
  str_lower := str_lower W;
  is_decimal := is_decimal W;
  int_max_str_digits := int_max_str_digits W;
  utcnow := utcnow W
|}.


(** [s] neither starts nor ends with a character of the class [p]. *)
Definition trimmed (p : char -> bool) (s : str) : Prop :=
  lstrip_by p s = s /\ lstrip_by p (rev s) = rev s.

(** Every whitespace character of [s] is the space. *)
Definition spaces_only (s : str) : Prop :=
  forall c, In c s -> is_space c = true -> c = 32%Z.

(** Whitespace occurs in [s] only as single spaces. *)
Fixpoint tidy (s : str) : bool :=
  match s with
  | [] => true
  | c :: s' =>
      (if is_space c
       then (c =? 32)%Z && match s' with [] => true | c' :: _ => negb (is_space c') end
       else true)
      && tidy s'
  end.

(** A character that is not whitespace. *)
Definition not_space (c : char) : bool := negb (is_space c).

(** [s] does not end with whitespace. *)
Definition no_trailing_space (s : str) : Prop :=
  match rev s with c :: _ => is_space c = false | [] => True end.

(** [s] does not start with whitespace. *)
Definition no_leading_space (s : str) : Prop :=
  match s with c :: _ => is_space c = false | [] => True end.

(** A word: non-empty, without whitespace. *)
Definition word (w : str) : Prop := w <> [] /\ forallb not_space w = true.

(** The pattern [r] reads: whitespace, a marker of [core], then anything up
    to the end of the line. *)
Definition cut_spec (r : regex) (core : str -> Prop) : Prop :=
  forall m rest,
    Matches r m rest <->
    exists ws x tl,
      m = ws ++ x ++ tl /\ forallb is_space ws = true /\ core x
      /\ forallb any_char tl = true /\ (rest = [] \/ rest = [10%Z]).

(** A marker occurs in [s]. *)
Definition has (core : str -> Prop) (s : str) : Prop :=
  exists b x c, s = b ++ x ++ c /\ core x.

(** The markers of the four suffix rules: a dash, whitespace, the word. *)
Definition marker (w : String.string) (x : str) : Prop :=
  exists c ws lw,
    x = c :: ws ++ lw /\ c_ieq "-" c = true /\ forallb is_space ws = true
    /\ caseless w lw = true.

(** The marker of the pipe rule. *)
Definition pipe_marker (x : str) : Prop := x = [chr "|"].

(** What every cleaned title satisfies. *)
Definition cleaned (t : str) : Prop :=
  tidy t = true
  /\ trimmed (fun c => mem_char c (lit " -,:")) t
  /\ ~ has (marker "Roxiestreams") t
  /\ ~ has (marker "Watch Live") t
  /\ ~ has (marker "Watch") t
  /\ ~ has (marker "Live Stream") t
  /\ ~ has pipe_marker t.

(** A pattern without the anchor [$]. *)
Fixpoint eol_free (r : regex) : bool :=
  match r with
  | Eps | Chr _ | Rep _ _ _ _ => true
  | Seq r1 r2 | Alt r1 r2 => eol_free r1 && eol_free r2
  | Eol => false
  end.

(** A continuation that returns no more than it was given. *)
Definition shorter (k : str -> option str) : Prop :=
  forall x out, k x = Some out -> length out <= length x.

(** [o'] is the outcome [o] once the text [a] is cut off the input: a
    failure stays a failure, and a success that left [a] untouched stays
    that success. *)
Definition cut_off (a : str) (o o' : option str) : Prop :=
  (o = None -> o' = None) /\ (forall y, o = Some (y ++ a) -> o' = Some y).

(** The set [seen] covers the URLs of [results], and these are pairwise
    distinct. *)
Definition distinct_urls (st : scan_state) : Prop :=
  NoDup (map snd (snd st)) /\ forall u, In u (map snd (snd st)) -> In u (fst st).

(** Every URL of [seen] has an entry in [results]. *)
Definition seen_recorded (st : scan_state) : Prop :=
  forall u, In u (fst st) -> exists t, In (t, u) (snd st).

(** The test of [get_category_event_candidates] on a stripped href: it
    names a manifest, or holds a keyword, or ends in a dash and digits. *)
Definition qualifies (W : world) (href : str) : bool :=
  contains (lit ".m3u8") href || has_keyword (str_lower W href)
  || is_match (slug_number_re W) (str_lower W href).

(** The body of the loop of [get_category_event_candidates] over the
    anchors of the page at [cat_url]. *)
Definition crawl_step (W : world) (cat_url : str) (st : scan_state) (a : tag)
  : result scan_state :=
  let href := strip (attr_or_empty "href" a) in
  let text := or_else (tag_text_sp a) [] in
  if negb (truthy href)
     || startswith (lit "mailto:") href || startswith (lit "javascript:") href
  then Ok st
  else
    full <- (if startswith (lit "http") href then Ok href
             else urljoin W cat_url href) ;;
    let low := str_lower W href in
    if contains (lit ".m3u8") href || has_keyword low
       || is_match (slug_number_re W) low
    then
      if negb (mem_str full (fst st))
      then Ok (full :: fst st, snd st ++ [(strip text, full)])
      else Ok st
    else Ok st.

(** The body of its loop over the matches of [M3U8_RE.findall]. *)
Definition fallback_step (st : scan_state) (m : str) : scan_state :=
  if truthy m && negb (mem_str m (fst st))
  then (m :: fst st, snd st ++ [([], m)])
  else st.

(** The candidate that the anchor [a] of the page at [cat_url] gives: its
    stripped href is not empty, is no [mailto:] or [javascript:] link and
    passes the test; the candidate is the stripped anchor text with the
    resolved href. *)
Definition candidate_of (W : world) (cat_url : str) (a : tag) (cand : str * str)
  : Prop :=
  let href := strip (attr_or_empty "href" a) in
  truthy href = true
  /\ startswith (lit "mailto:") href = false
  /\ startswith (lit "javascript:") href = false
  /\ qualifies W href = true
  /\ (if startswith (lit "http") href then Ok href else urljoin W cat_url href)
     = Ok (snd cand)
  /\ fst cand = strip (or_else (tag_text_sp a) []).

(** The bodies of the loops of [get_event_m3u8], for the event page at
    [event_url] and the title [base_title]: over the anchors, *)
Definition anchor_step (W : world) (event_url base_title : str)
    (st : scan_state) (a : tag) : result scan_state :=
  let href := strip (attr_or_empty "href" a) in
  c1 <- extract_m3u8_from_text W href (Some event_url) ;;
  cand <- (if otruthy c1 then Ok c1
           else extract_m3u8_from_text W (tag_markup a) (Some event_url)) ;;
  if otruthy cand then
    let cand := strip (oor_else cand []) in
    let cand := if startswith (lit "//") cand
                then lit "https:" ++ cand else cand in
    if negb (mem_str cand (fst st)) then
      title <- clean_event_title W
                 (or_else (tag_text a) (or_else base_title cand)) ;;
      Ok (cand :: fst st, snd st ++ [(title, cand)])
    else Ok st
  else Ok st.

(** over the [source] and [video] elements, *)
Definition media_step (W : world) (event_url base_title : str)
    (st : scan_state) (t : tag) : result scan_state :=
  let src := strip (attr_or_empty "src" t) in
  cand <- extract_m3u8_from_text W src (Some event_url) ;;
  note_cand W base_title (first_attr "title" "alt" t) cand st.

(** over the iframes, *)
Definition iframe_step (W : world) (event_url base_title : str)
    (st : scan_state) (iframe : tag) : result scan_state :=
  let src := strip (attr_or_empty "src" iframe) in
  iframe_url <- urljoin W event_url src ;;
  let '(soup_if, html_if) := fetch W iframe_url in
  if truthy html_if then
    cand <- extract_m3u8_from_text W html_if (Some iframe_url) ;;
    st <- note_cand W base_title (first_attr "title" "name" iframe)
                    cand st ;;
    match soup_if with
    | Some soup_if =>
        st <- foldM (fun (st : scan_state) a =>
                cand <- extract_m3u8_from_text W (attr_or_empty "href" a)
                                               (Some iframe_url) ;;
                note_cand W base_title (tag_text a) cand st)
              (find_all ["a"] "href" soup_if) st ;;
        foldM (fun (st : scan_state) t =>
                cand <- extract_m3u8_from_text W (attr_or_empty "src" t)
                                               (Some iframe_url) ;;
                note_cand W base_title (first_attr "title" "alt" t)
                          cand st)
              (find_all ["source"; "video"] "src" soup_if) st
    | None => Ok st
    end
  else Ok st.

(** the step that searches the text of the page, *)
Definition text_step (base_title : str) (cand : option str) (st : scan_state)
  : scan_state :=
  match cand with
  | Some c =>
      if truthy c && negb (mem_str c (fst st))
      then (c :: fst st, snd st ++ [(or_else base_title c, c)])
      else st
  | None => st
  end.

(** and the final pass over [results]. *)
Definition final_step (W : world) (sp : soup) (event_url : str)
    (fs : scan_state) (tu : str * str) : result scan_state :=
  let '(t, u) := tu in
  if negb (truthy u) then Ok fs
  else
    let u := strip u in
    let u := if startswith (lit "//") u then lit "https:" ++ u else u in
    p <- urlparse W u ;;
    u <- (if negb (truthy (scheme p)) then urljoin W event_url u
          else Ok u) ;;
    if mem_str u (fst fs) then Ok fs
    else
      title_clean <- clean_event_title W t ;;
      title_clean <-
        (if negb (truthy title_clean)
         then d <- derive_title_from_page W (Some sp) (Some event_url) ;;
              Ok (or_else d u)
         else Ok title_clean) ;;
      Ok (u :: fst fs, snd fs ++ [(title_clean, u)]).

(** [st'] is [st] after some URLs, none of them seen before, were added to
    [seen] and to [results]. *)
Inductive grows : scan_state -> scan_state -> Prop :=
| grows_refl : forall st, grows st st
| grows_add : forall st st' t u,
    grows st st' -> mem_str u (fst st') = false ->
    grows st (u :: fst st', snd st' ++ [(t, u)]).

(** The event page at [event_url], with text [text], names the manifest URL
    [c]: the extractor finds [c] in the href of an anchor, in the [src] of a
    [source] or [video] element, in the document of one of its iframes, or
    in its text. *)
Definition named_by_page (W : world) (event_url text c : str) : Prop :=
  let sp := html_parser W text in
  (exists a, In a (find_all ["a"] "href" sp)
     /\ extract_m3u8_from_text W (strip (attr_or_empty "href" a)) None = Ok (Some c))
  \/ (exists t, In t (find_all ["source"; "video"] "src" sp)
     /\ extract_m3u8_from_text W (strip (attr_or_empty "src" t)) None = Ok (Some c))
  \/ (exists iframe iframe_url html_if,
        In iframe (find_all ["iframe"] "src" sp)
        /\ urljoin W event_url (strip (attr_or_empty "src" iframe)) = Ok iframe_url
        /\ http_get W iframe_url = Some html_if
        /\ extract_m3u8_from_text W html_if None = Ok (Some c))
  \/ extract_m3u8_from_text W text None = Ok (Some c).

(** The document [html_if] of an iframe names the manifest URL [c]: the
    extractor finds [c] in the text of the document, in the href of one of
    its anchors, or in the [src] of one of its [source] or [video]
    elements. *)
Definition named_by_iframe (W : world) (html_if c : str) : Prop :=
  extract_m3u8_from_text W html_if None = Ok (Some c)
  \/ (exists a, In a (find_all ["a"] "href" (html_parser W html_if))
       /\ extract_m3u8_from_text W (attr_or_empty "href" a) None = Ok (Some c))
  \/ (exists t, In t (find_all ["source"; "video"] "src" (html_parser W html_if))
       /\ extract_m3u8_from_text W (attr_or_empty "src" t) None = Ok (Some c)).

(** [TV_INFO[k]] for a key of the table. *)
Definition tv_row (k : String.string) : str * str * str :=
  match find (fun kv => str_eqb (fst kv) (lit k)) TV_INFO with
  | Some kv => snd kv
  | None => ([], [], [])
  end.

(** The row of [TV_INFO] that [get_tv_data_for_category] returns for the
    records of each category of [CATEGORIES]. *)
Definition category_rows : list (String.string * String.string) :=
  [("", "misc"); ("soccer", "soccer"); ("mlb", "mlb"); ("nba", "nba"); ("nfl", "nfl");
   ("nhl", "nhl"); ("fighting", "fighting"); ("motorsports", "motorsports");
   ("motogp", "misc"); ("ufc", "ufc"); ("ppv", "ppv"); ("wwe-streams", "misc");
   ("f1", "f1"); ("f1-streams", "f1"); ("nascar", "nascar")].

(** The record [r] was found under the category [cat]. *)
Definition found_under (cat : str) (r : stream) : Prop :=
  category r = or_else cat (lit "misc")
  /\ (exists title, displayName r = display_name cat title)
  /\ manifestUrl r <> [].

(** The loop of [get_category_event_candidates] passes over the anchor [a]:
    its stripped href is empty, or a [mailto:] or [javascript:] link, or it
    resolves to a URL but fails the test. *)
Definition passed_over (W : world) (cat_url : str) (a : tag) : Prop :=
  let href := strip (attr_or_empty "href" a) in
  truthy href = false
  \/ startswith (lit "mailto:") href = true
  \/ startswith (lit "javascript:") href = true
  \/ ((exists full, (if startswith (lit "http") href then Ok href
                     else urljoin W cat_url href) = Ok full)
      /\ qualifies W href = false).

(** [s.split] at line feeds: the lines of a file. *)
Definition lines (s : str) : list str := split_on 10%Z s.

(** The text of the [#EXTINF] line of a record, without its line feed. *)
Definition extinf_text (W : world) (s : stream) : str :=
  let '(tvg_id, logo, group_name) := get_tv_data_for_category W (category s) in
  lit "#EXTINF:-1 tvg-logo=" ++ dq ++ logo ++ dq ++ lit " tvg-id=" ++ dq ++ tvg_id ++ dq
  ++ lit " group-title=" ++ dq ++ lit "Roxiestreams - " ++ group_name ++ dq
  ++ lit "," ++ displayName s.

(** What the TiviMate file appends to each URL. *)
Definition tivimate_suffix : str :=
  lit "|referer=" ++ REFERER ++ lit "|user-agent=" ++ quote_all USER_AGENT.

(** The text of one record in the VLC file and in the TiviMate file. *)
Definition vlc_entry (W : world) (s : stream) : str :=
  extinf_line W s ++ manifestUrl s ++ nl ++ nl.

Definition tivimate_entry (W : world) (s : stream) : str :=
  extinf_line W s ++ manifestUrl s ++ tivimate_suffix ++ nl ++ nl.

(** A record whose name and URL a UTF-8 file takes. *)
Definition record_encodable (s : stream) : bool :=
  encodable (displayName s) && encodable (manifestUrl s).

(** The two lines of the header. *)
Definition header_lines (W : world) : list str :=
  [lit "#EXTM3U x-tvg-url=" ++ dq
   ++ lit "https://epgshare01.online/epgshare01/epg_ripper_ALL_SOURCES1.xml.gz" ++ dq;
   lit "# Last Updated: " ++ lit (utcnow W)].

(* ================================================================== *)
(** ** Properties of the matcher *)

Lemma rep_run_sound : forall g p s lo hi k out,
  rep_run g p lo hi s k = Some out ->
  exists m rest, s = m ++ rest /\ forallb p m = true /\ lo <= length m
                 /\ within hi (length m) /\ k rest = Some out.
Proof.
  intros g p s; induction s as [|c s IH]; intros lo hi k out H.
  - assert (Hk : lo = 0 /\ k [] = Some out).
    { destruct lo; destruct g; simpl in H; try discriminate; auto;
        destruct (k []); try discriminate; auto. }
    destruct Hk as [-> Hk]. exists [], []. simpl.
    repeat split; auto. destruct hi; simpl; lia.
  - simpl in H.
    assert (Hcases :
      (lo = 0 /\ k (c :: s) = Some out) \/
      (p c = true /\ more_allowed hi = true /\
       rep_run g p (pred lo) (dec_bound hi) s k = Some out)).
    { destruct (p c) eqn:Hp; destruct (more_allowed hi) eqn:Hm;
        destruct lo; destruct g; simpl in H;
        try (destruct (rep_run _ p _ (dec_bound hi) s k) eqn:Hr);
        try (destruct (k (c :: s)) eqn:Hk);
        try discriminate; auto. }
    destruct Hcases as [[-> Hk] | (Hp & Hm & Hr)].
    + exists [], (c :: s). simpl. repeat split; auto. destruct hi; simpl; lia.
    + apply IH in Hr. destruct Hr as (m & rest & -> & Hall & Hlo & Hhi & Hk).
      exists (c :: m), rest. simpl. rewrite Hp, Hall. repeat split; auto.
      * lia.
      * destruct hi as [[|h]|]; simpl in *; try discriminate; auto; lia.
Qed.

Lemma rep_run_complete : forall g p m rest lo hi k out,
  forallb p m = true -> lo <= length m -> within hi (length m) ->
  k rest = Some out ->
  exists out', rep_run g p lo hi (m ++ rest) k = Some out'.
Proof.
  intros g p m; induction m as [|c m IH]; intros rest lo hi k out Hall Hlo Hhi Hk.
  - simpl in Hlo. assert (lo = 0) by lia. subst lo. simpl.
    destruct rest as [|c s]; simpl.
    + rewrite Hk. destruct g; eauto.
    + rewrite Hk.
      destruct g; eauto.
      destruct (p c && more_allowed hi); eauto.
      destruct (rep_run true p 0 (dec_bound hi) s k); eauto.
  - simpl in Hall. apply andb_prop in Hall. destruct Hall as [Hp Hall].
    assert (Hm : more_allowed hi = true).
    { destruct hi as [[|h]|]; simpl in *; auto; lia. }
    destruct (IH rest (pred lo) (dec_bound hi) k out) as [out' Hr]; auto.
    { simpl in Hlo. lia. }
    { destruct hi as [h|]; simpl in *; auto; lia. }
    simpl. rewrite Hp, Hm. simpl. rewrite Hr.
    destruct g; eauto.
    destruct lo; eauto. destruct (k (c :: m ++ rest)); eauto.
Qed.

Lemma run_sound : forall r s k out,
  run r s k = Some out ->
  exists m rest, s = m ++ rest /\ Matches r m rest /\ k rest = Some out.
Proof.
  induction r as [|p|r1 IH1 r2 IH2|r1 IH1 r2 IH2|g lo hi p|]; intros s k out H; simpl in H.
  - exists [], s. repeat split; auto. constructor.
  - destruct s as [|c s]; try discriminate.
    destruct (p c) eqn:Hp; try discriminate.
    exists [c], s. repeat split; auto. constructor; auto.
  - apply IH1 in H. destruct H as (m1 & rest1 & -> & HM1 & H).
    apply IH2 in H. destruct H as (m2 & rest & -> & HM2 & H).
    exists (m1 ++ m2), rest. rewrite app_assoc. repeat split; auto.
    constructor; auto.
  - destruct (run r1 s k) eqn:H1.
    + inversion H; subst. apply IH1 in H1. destruct H1 as (m & rest & -> & HM & Hk).
      exists m, rest. repeat split; auto. apply M_AltL; auto.
    + apply IH2 in H. destruct H as (m & rest & -> & HM & Hk).
      exists m, rest. repeat split; auto. apply M_AltR; auto.
  - apply rep_run_sound in H. destruct H as (m & rest & -> & Hall & Hlo & Hhi & Hk).
    exists m, rest. repeat split; auto. constructor; auto.
  - exists [], s. simpl.
    destruct s as [|c [|c' s]]; try discriminate.
    + repeat split; auto. constructor; auto.
    + destruct (c =? 10)%Z eqn:Hc; try discriminate.
      apply Z.eqb_eq in Hc. subst c. repeat split; auto. constructor; auto.
Qed.

Lemma run_complete : forall r m rest k out,
  Matches r m rest -> k rest = Some out ->
  exists out', run r (m ++ rest) k = Some out'.
Proof.
  intros r m rest k out HM; revert k out.
  induction HM as [rest|p c rest Hp|r1 r2 m1 m2 rest HM1 IH1 HM2 IH2
                  |r1 r2 m rest HM IH|r1 r2 m rest HM IH
                  |g lo hi p m rest Hall Hlo Hhi|rest Hrest];
    intros k out Hk; simpl.
  - eauto.
  - rewrite Hp. eauto.
  - destruct (IH2 k out Hk) as [o2 H2].
    rewrite <- app_assoc. eapply IH1. exact H2.
  - destruct (IH k out Hk) as [o H]. rewrite H. eauto.
  - destruct (IH k out Hk) as [o H]. rewrite H.
    destruct (run r1 (m ++ rest) k); eauto.
  - eapply rep_run_complete; eauto.
  - destruct Hrest as [-> | ->]; simpl; eauto.
Qed.

Lemma match_here_sound : forall r s m rest,
  match_here r s = Some (m, rest) -> s = m ++ rest /\ Matches r m rest.
Proof.
  unfold match_here. intros r s m rest H.
  destruct (run r s (fun rest => Some rest)) as [rest'|] eqn:Hr; try discriminate.
  apply run_sound in Hr. destruct Hr as (m' & rest'' & -> & HM & Hk).
  inversion Hk; subst rest''. inversion H; subst.
  rewrite length_app, Nat.add_sub, firstn_app, Nat.sub_diag, firstn_all.
  simpl. rewrite app_nil_r. auto.
Qed.

Lemma match_here_complete : forall r m rest,
  Matches r m rest -> match_here r (m ++ rest) <> None.
Proof.
  unfold match_here. intros r m rest HM.
  destruct (@run_complete r m rest (fun x => Some x) rest HM eq_refl) as [o Ho].
  rewrite Ho. discriminate.
Qed.

(** [search] returns the leftmost match. *)
Lemma search_sound : forall r s b m a,
  search r s = Some (b, m, a) ->
  s = b ++ m ++ a /\ Matches r m a /\
  forall b', length b' < length b -> ~ occurs_at r s b'.
Proof.
  intros r s; induction s as [|c s IH]; intros b m a H; simpl in H.
  - destruct (match_here r []) as [[m' rest]|] eqn:Hh; try discriminate.
    inversion H; subst. apply match_here_sound in Hh. destruct Hh as [Hs HM].
    repeat split; auto. simpl. intros b' Hb. lia.
  - destruct (match_here r (c :: s)) as [[m' rest]|] eqn:Hh.
    + inversion H; subst. apply match_here_sound in Hh. destruct Hh as [Hs HM].
      repeat split; auto. simpl. intros b' Hb. lia.
    + destruct (search r s) as [[[b0 m0] a0]|] eqn:Hs; try discriminate.
      inversion H; subst. destruct (IH _ _ _ eq_refl) as (Hs' & HM & Hleft).
      repeat split; auto.
      * simpl. rewrite Hs' at 1. reflexivity.
      * intros b' Hb (m' & a' & Heq & HM').
        destruct b' as [|c' b'].
        -- simpl in Heq. apply (match_here_complete HM'). rewrite <- Heq. exact Hh.
        -- simpl in Heq. inversion Heq; subst c'.
           apply (Hleft b'). { simpl in Hb. lia. }
           exists m', a'. auto.
Qed.

Lemma search_none : forall r s b, search r s = None -> ~ occurs_at r s b.
Proof.
  intros r s; induction s as [|c s IH]; intros b H (m & a & Heq & HM); simpl in H.
  - destruct (match_here r []) as [[m' rest]|] eqn:Hh; try discriminate.
    symmetry in Heq. apply app_eq_nil in Heq. destruct Heq as [-> Heq].
    apply (match_here_complete HM). rewrite Heq. exact Hh.
  - destruct (match_here r (c :: s)) as [[m' rest]|] eqn:Hh; try discriminate.
    destruct (search r s) as [[[b0 m0] a0]|] eqn:Hs; try discriminate.
    destruct b as [|c' b].
    + simpl in Heq. apply (match_here_complete HM). rewrite <- Heq. exact Hh.
    + simpl in Heq. inversion Heq; subst. apply (IH b eq_refl). exists m, a. auto.
Qed.

(** The fuel of [finditer] and of [replace] is enough: more fuel changes
    nothing. *)
Lemma scan_fuel_enough : forall r f f' s,
  length s < f -> length s < f' -> scan f r s = scan f' r s.
Proof.
  intros r f; induction f as [|f IH]; intros f' s H H'; [lia|].
  destruct f' as [|f']; [lia|]. simpl.
  destruct (search r s) as [[[b m] a]|] eqn:Hs; [|reflexivity].
  apply search_sound in Hs. destruct Hs as (Heq & _).
  apply (f_equal (@length char)) in Heq. rewrite !length_app in Heq.
  destruct m as [|c m]; [destruct a as [|c a]|]; try reflexivity.
  - rewrite (IH f' a); [reflexivity | simpl in *; lia | simpl in *; lia].
  - rewrite (IH f' a); [reflexivity | simpl in *; lia | simpl in *; lia].
Qed.

Lemma startswith_length : forall p s, startswith p s = true -> length p <= length s.
Proof.
  induction p as [|x p IH]; intros s H; simpl; [lia|].
  destruct s as [|y s]; simpl in H; [discriminate|].
  apply andb_prop in H. destruct H as [_ H]. apply IH in H. simpl. lia.
Qed.

Lemma replace_fuel_enough : forall old new f f' s,
  old <> [] -> length s <= f -> length s <= f' ->
  replace_fuel f old new s = replace_fuel f' old new s.
Proof.
  intros old new f; induction f as [|f IH]; intros f' s Hold H H'.
  - destruct s; [|simpl in H; lia]. destruct f'; reflexivity.
  - destruct f' as [|f'].
    + destruct s; [reflexivity | simpl in H'; lia].
    + simpl. destruct s as [|c s]; [reflexivity|].
      destruct (startswith old (c :: s)) eqn:Hsw.
      * f_equal. apply IH; auto.
        -- apply startswith_length in Hsw. rewrite length_skipn.
           destruct old; [congruence|]. simpl in *. lia.
        -- apply startswith_length in Hsw. rewrite length_skipn.
           destruct old; [congruence|]. simpl in *. lia.
      * f_equal. apply IH; auto; simpl in *; lia.
Qed.

(* ================================================================== *)
(** ** The shape of a manifest URL *)

Ltac inv H := inversion H; subst; clear H.

Lemma Matches_Str_by_inv : forall f pat m rest,
  Matches (Str_by f pat) m rest -> spells f pat m = true.
Proof.
  intros f pat; induction pat as [|a pat IH]; intros m rest H; simpl in H.
  - inv H. reflexivity.
  - inv H. match goal with H : Matches (Chr _) _ _ |- _ => inv H end.
    simpl. match goal with H : f a _ = true |- _ => rewrite H end.
    simpl. eapply IH; eauto.
Qed.

Lemma Matches_Str_by_intro : forall f pat m rest,
  spells f pat m = true -> Matches (Str_by f pat) m rest.
Proof.
  intros f pat; induction pat as [|a pat IH]; intros m rest H; simpl in *.
  - destruct m; try discriminate. constructor.
  - destruct m as [|c m]; try discriminate.
    apply andb_prop in H. destruct H as [Hc H].
    change (c :: m) with ([c] ++ m). constructor.
    + constructor; auto.
    + apply IH; auto.
Qed.

Lemma c_ieq_exact : forall a c,
  is_ascii_alpha (chr a) = false -> c_ieq a c = true -> c = chr a.
Proof.
  intros a c Ha H. unfold c_ieq in H.
  assert (Hl : lower_ascii (chr a) = chr a).
  { unfold lower_ascii. unfold is_ascii_alpha in Ha.
    apply orb_false_iff in Ha. destruct Ha as [-> _]. reflexivity. }
  rewrite Hl in H.
  assert (Hs : char_eqb (chr a) (chr "s") = false).
  { unfold char_eqb. apply Z.eqb_neq. intro E. rewrite E in Ha. discriminate. }
  assert (Hi : char_eqb (chr a) (chr "i") = false).
  { unfold char_eqb. apply Z.eqb_neq. intro E. rewrite E in Ha. discriminate. }
  assert (Hk : char_eqb (chr a) (chr "k") = false).
  { unfold char_eqb. apply Z.eqb_neq. intro E. rewrite E in Ha. discriminate. }
  rewrite Hs, Hi, Hk in H. simpl in H. rewrite !orb_false_r in H.
  unfold char_eqb in H. apply Z.eqb_eq in H.
  unfold lower_ascii in H. destruct (is_ascii_upper c) eqn:Hu; auto.
  exfalso. unfold is_ascii_alpha, is_ascii_upper, is_ascii_lower in *.
  rewrite <- H in Ha. apply orb_false_iff in Ha. destruct Ha as [_ Ha].
  apply andb_prop in Hu. destruct Hu as [H1 H2].
  apply Z.leb_le in H1. apply Z.leb_le in H2.
  apply andb_false_iff in Ha.
  destruct Ha as [Ha | Ha]; apply Z.leb_gt in Ha; lia.
Qed.

Lemma caseless_sep : forall m, caseless "://" m = true -> m = lit "://".
Proof.
  intros m H. unfold caseless in H.
  destruct m as [|c1 [|c2 [|c3 [|c4 m]]]]; simpl in H; try discriminate;
    try (rewrite !andb_false_r in H; discriminate).
  apply andb_prop in H. destruct H as [H1 H].
  apply andb_prop in H. destruct H as [H2 H].
  apply andb_prop in H. destruct H as [H3 _].
  apply c_ieq_exact in H1; [|reflexivity].
  apply c_ieq_exact in H2; [|reflexivity].
  apply c_ieq_exact in H3; [|reflexivity].
  subst. reflexivity.
Qed.

Lemma Matches_Seq_inv : forall r1 r2 m rest,
  Matches (Seq r1 r2) m rest ->
  exists m1 m2, m = m1 ++ m2 /\ Matches r1 m1 (m2 ++ rest) /\ Matches r2 m2 rest.
Proof. intros r1 r2 m rest H. inv H. eauto. Qed.

Lemma Matches_Alt_inv : forall r1 r2 m rest,
  Matches (Alt r1 r2) m rest -> Matches r1 m rest \/ Matches r2 m rest.
Proof. intros r1 r2 m rest H. inv H; auto. Qed.

Lemma Matches_Chr_inv : forall p m rest,
  Matches (Chr p) m rest -> exists c, m = [c] /\ p c = true.
Proof. intros p m rest H. inv H. eauto. Qed.

Lemma Matches_Eps_inv : forall m rest, Matches Eps m rest -> m = [].
Proof. intros m rest H. inv H. reflexivity. Qed.

Lemma Matches_Rep_inv : forall g lo hi p m rest,
  Matches (Rep g lo hi p) m rest ->
  forallb p m = true /\ lo <= length m /\ within hi (length m).
Proof. intros g lo hi p m rest H. inv H. auto. Qed.

Lemma Matches_Eol_inv : forall m rest,
  Matches Eol m rest -> m = [] /\ (rest = [] \/ rest = [10%Z]).
Proof. intros m rest H. inv H. auto. Qed.

Lemma M3U8_RE_shape : forall m rest, Matches M3U8_RE m rest -> manifest_url m.
Proof.
  intros m rest H. unfold M3U8_RE, Opt, PlusLazy, Star in H.
  apply Matches_Seq_inv in H. destruct H as (h & m1 & -> & Hh & H).
  apply Matches_Seq_inv in H. destruct H as (s & m2 & -> & Hs & H).
  apply Matches_Seq_inv in H. destruct H as (sep & m3 & -> & Hsep & H).
  apply Matches_Seq_inv in H. destruct H as (body & m4 & -> & Hbody & H).
  apply Matches_Seq_inv in H. destruct H as (ext & qry & -> & Hext & Hq).
  apply Matches_Str_by_inv in Hh, Hsep, Hext.
  apply caseless_sep in Hsep. subst sep.
  apply Matches_Rep_inv in Hbody. destruct Hbody as (Hbody & Hlen & _).
  exists (h ++ s), body, ext, qry. rewrite <- !app_assoc. repeat split; auto.
  - apply Matches_Alt_inv in Hs. destruct Hs as [Hs | Hs].
    + apply Matches_Chr_inv in Hs. destruct Hs as (c & -> & Hc).
      right. unfold caseless in *.
      destruct h as [|c1 [|c2 [|c3 [|c4 [|c5 h]]]]]; simpl in Hh |- *;
        try discriminate; try (rewrite !andb_false_r in Hh; discriminate).
      do 4 (apply andb_prop in Hh; destruct Hh as [?H Hh]).
      repeat match goal with H : _ = true |- _ => rewrite H; clear H end.
      reflexivity.
    + apply Matches_Eps_inv in Hs. subst s.
      left. rewrite app_nil_r. exact Hh.
  - intro E. subst body. simpl in Hlen. lia.
  - apply Matches_Alt_inv in Hq. destruct Hq as [Hq | Hq].
    + apply Matches_Seq_inv in Hq. destruct Hq as (q1 & q & -> & Hq1 & Hq).
      apply Matches_Chr_inv in Hq1. destruct Hq1 as (c & -> & Hc).
      apply Matches_Rep_inv in Hq. destruct Hq as (Hq & _).
      apply c_ieq_exact in Hc; [|reflexivity]. subst c.
      right. exists q. auto.
    + apply Matches_Eps_inv in Hq. left. exact Hq.
Qed.

Lemma caseless_https_split : forall sch,
  caseless "https" sch = true ->
  exists h c, sch = h ++ [c] /\ caseless "http" h = true /\ c_ieq "s" c = true.
Proof.
  intros sch H. unfold caseless in *.
  destruct sch as [|c1 [|c2 [|c3 [|c4 [|c5 [|c6 sch]]]]]]; simpl in H;
    try discriminate; try (rewrite !andb_false_r in H; discriminate).
  rewrite andb_true_r in H.
  do 4 (apply andb_prop in H; destruct H as [?H H]).
  exists [c1; c2; c3; c4], c5. simpl.
  repeat split; auto.
  repeat match goal with H : _ = true |- _ => rewrite H; clear H end.
  reflexivity.
Qed.

Lemma M3U8_RE_matches : forall m rest, manifest_url m -> Matches M3U8_RE m rest.
Proof.
  intros m rest (sch & body & ext & qry & -> & Hsch & Hne & Hbody & Hext & Hq).
  unfold M3U8_RE.
  assert (HQ : Matches (Opt (Chr (c_ieq "?") ;;; Star (none_of url_stop))) qry rest).
  { destruct Hq as [-> | (q & -> & Hq)].
    - apply M_AltR. constructor.
    - apply M_AltL. change (chr "?" :: q) with ([chr "?"] ++ q).
      constructor; [constructor; reflexivity|].
      constructor; auto. simpl; lia. exact I. }
  assert (HT : Matches (IStr "://" ;;; PlusLazy (none_of url_stop) ;;; IStr ".m3u8" ;;;
                        Opt (Chr (c_ieq "?") ;;; Star (none_of url_stop)))
                       (lit "://" ++ body ++ ext ++ qry) rest).
  { constructor; [apply Matches_Str_by_intro; reflexivity|].
    constructor.
    - constructor; auto. destruct body; [congruence | simpl; lia]. exact I.
    - constructor; auto. apply Matches_Str_by_intro; auto. }
  destruct Hsch as [Hh | Hs].
  - constructor; [apply Matches_Str_by_intro; exact Hh|].
    change (lit "://" ++ body ++ ext ++ qry) with ([] ++ lit "://" ++ body ++ ext ++ qry).
    constructor; auto. apply M_AltR. constructor.
  - apply caseless_https_split in Hs. destruct Hs as (h & c & -> & Hh & Hc).
    rewrite <- app_assoc.
    constructor; [apply Matches_Str_by_intro; exact Hh|].
    constructor; auto. apply M_AltL. constructor. exact Hc.
Qed.

Lemma manifest_url_head : forall u,
  manifest_url u -> exists c u', u = c :: u' /\ c_ieq "h" c = true.
Proof.
  intros u (sch & body & ext & qry & -> & Hsch & _).
  unfold caseless in Hsch.
  destruct sch as [|c sch]; simpl in Hsch.
  - destruct Hsch; discriminate.
  - exists c. eexists. split; [reflexivity|].
    destruct Hsch as [H | H]; apply andb_prop in H; tauto.
Qed.

Lemma manifest_url_not_protocol_relative : forall u,
  manifest_url u -> startswith (lit "//") u = false.
Proof.
  intros u Hu. apply manifest_url_head in Hu. destruct Hu as (c & u' & -> & Hc).
  destruct (startswith (lit "//") (c :: u')) eqn:E; auto.
  exfalso. simpl in E. apply andb_prop in E. destruct E as [E _].
  unfold char_eqb in E. apply Z.eqb_eq in E. subst c.
  vm_compute in Hc. discriminate.
Qed.

(* ================================================================== *)
(** ** [extract_m3u8_from_text] *)

Lemma search_M3U8_RE : forall text b m a,
  search M3U8_RE text = Some (b, m, a) ->
  text = b ++ m ++ a /\ manifest_url m /\
  forall b' m' a', text = b' ++ m' ++ a' -> manifest_url m' -> length b <= length b'.
Proof.
  intros text b m a H. apply search_sound in H. destruct H as (Heq & HM & Hleft).
  split; [exact Heq|]. split; [eapply M3U8_RE_shape; eauto|].
  intros b' m' a' Heq' Hm'.
  destruct (Nat.le_gt_cases (length b) (length b')) as [Hle | Hgt]; auto.
  exfalso. apply (Hleft b' Hgt). exists m', a'. split; auto.
  apply M3U8_RE_matches; auto.
Qed.


(** C2.  On the protocol-relative input [//host/path.m3u8] the extractor
    returns [None], with or without a base: the pattern asks for [http]. *)
Theorem protocol_relative_input_is_not_extracted : forall W base,
  extract_m3u8_from_text W (lit "//host/path.m3u8") base = Ok None /\
  extract_m3u8_from_text W (lit "//host/path.m3u8?token=1") base = Ok None.
Proof.
  intros W base. split; reflexivity.
Qed.

Lemma urlsplit_scheme : forall W url0 s0 r,
  urlsplit W url0 s0 = Ok r ->
  sr_scheme r = fst (split_scheme (clean_url url0) (clean_scheme s0)).
Proof.
  intros W url0 s0 r H. unfold urlsplit in H.
  destruct (split_scheme (clean_url url0) (clean_scheme s0)) as [sch url].
  simpl.
  repeat match type of H with
  | context [if ?c then _ else _] => destruct c; simpl in H
  | context [let '(_, _) := ?x in _] => destruct x; simpl in H
  end; try discriminate; inversion H; reflexivity.
Qed.

Lemma urlparse_scheme : forall W url p,
  urlparse W url = Ok p ->
  scheme p = fst (split_scheme (clean_url url) (clean_scheme [])).
Proof.
  intros W url p H. unfold urlparse, urlparse_with in H.
  destruct (urlsplit W url []) as [r|e] eqn:Hr; cbn [bind] in H; try discriminate.
  apply urlsplit_scheme in Hr. rewrite <- Hr.
  destruct (mem_str (sr_scheme r) uses_params && mem_char (chr ";") (sr_path r));
    [destruct (splitparams (sr_path r))|]; inversion H; reflexivity.
Qed.

Lemma c_ieq_letter : forall a c,
  c_ieq a c = true ->
  (c = lower_ascii (chr a) \/ c = lower_ascii (chr a) - 32
   \/ c = 383 \/ c = 304 \/ c = 305 \/ c = 8490)%Z.
Proof.
  intros a c H. unfold c_ieq in H.
  repeat (apply orb_prop in H; destruct H as [H | H]).
  - unfold char_eqb in H. apply Z.eqb_eq in H. unfold lower_ascii in H at 1.
    destruct (is_ascii_upper c); [right; left; lia | left; auto].
  - apply andb_prop in H. destruct H as [_ H]. apply Z.eqb_eq in H. auto.
  - apply andb_prop in H. destruct H as [_ H].
    apply orb_prop in H. destruct H as [H | H]; apply Z.eqb_eq in H; auto 6.
  - apply andb_prop in H. destruct H as [_ H]. apply Z.eqb_eq in H. auto 6.
Qed.

Ltac letter_cases H :=
  let E := fresh "E" in
  pose proof (c_ieq_letter _ _ H) as E;
  destruct E as [E | [E | [E | [E | [E | E]]]]]; subst;
  try (vm_compute in H; discriminate); clear H.

(** [urlsplit] finds the scheme of a manifest URL, except when its fifth
    character is U+017F. *)
Lemma scheme_of_manifest_url : forall u,
  manifest_url u ->
  truthy (fst (split_scheme (clean_url u) (clean_scheme [])))
  = negb (nth 4 u 0 =? 383)%Z.
Proof.
  intros u (sch & body & ext & qry & -> & Hsch & _).
  unfold caseless in Hsch.
  destruct Hsch as [H | H].
  - destruct sch as [|c1 [|c2 [|c3 [|c4 [|c5 sch]]]]]; simpl in H;
      try discriminate; try (rewrite !andb_false_r in H; discriminate).
    do 3 (apply andb_prop in H; destruct H as [?H H]).
    rewrite andb_true_r in H.
    letter_cases H; letter_cases H0; letter_cases H1; letter_cases H2;
      vm_compute; reflexivity.
  - destruct sch as [|c1 [|c2 [|c3 [|c4 [|c5 [|c6 sch]]]]]]; simpl in H;
      try discriminate; try (rewrite !andb_false_r in H; discriminate).
    do 4 (apply andb_prop in H; destruct H as [?H H]).
    rewrite andb_true_r in H.
    letter_cases H; letter_cases H0; letter_cases H1; letter_cases H2;
      letter_cases H3; vm_compute; reflexivity.
Qed.

(** C10 (counterexample).  With a base, the text [http://[x.m3u8] makes the
    extractor raise: [urlparse] refuses the unmatched bracket.  Without a
    base the same text is returned. *)
Lemma base_changes_the_outcome :
  extract_m3u8_from_text offline (lit "http://[x.m3u8") (Some BASE_URL)
    = Raise ValueError /\
  extract_m3u8_from_text offline (lit "http://[x.m3u8") None
    = Ok (Some (lit "http://[x.m3u8")).
Proof. split; vm_compute; reflexivity. Qed.

(** C10 (amended).  The result with a base is the result without one,
    except that, for a non-empty base and a match [u], the call raises when
    [urlparse(u)] raises, and joins [u] to the base when the fifth character
    of [u] is U+017F, which leaves [urlparse] without a scheme.  The
    protocol-relative rewrite is never applied. *)
Theorem extract_with_base : forall W text b,
  extract_m3u8_from_text W text (Some b) =
  match extract_m3u8_from_text W text None with
  | Ok (Some u) =>
      if truthy b then
        match urlparse W u with
        | Raise e => Raise e
        | Ok _ =>
            if (nth 4 u 0 =? 383)%Z
            then j <- urljoin W b u ;; Ok (Some j)
            else Ok (Some u)
        end
      else Ok (Some u)
  | r => r
  end.
Proof.
  intros W text b. unfold extract_m3u8_from_text.
  destruct (truthy text); cbn [negb]; auto.
  destruct (search M3U8_RE text) as [[[bf m] a]|] eqn:Hs; auto.
  apply search_M3U8_RE in Hs. destruct Hs as (_ & Hm & _).
  rewrite (manifest_url_not_protocol_relative Hm).
  destruct (truthy b); auto.
  destruct (urlparse W m) as [p|e] eqn:Hp; cbn [bind]; auto.
  apply urlparse_scheme in Hp. rewrite Hp, (scheme_of_manifest_url Hm).
  destruct (nth 4 m 0 =? 383)%Z; reflexivity.
Qed.

(* ================================================================== *)
(** ** [clean_event_title] *)

(** C8.  The title [Team A vs Team B - Roxiestreams - Watch Live Sports]
    cleans to [Team A vs Team B].  The brand rule, applied first, cuts at
    the dash before the brand name; the [Watch Live] rule alone would have
    cut at the later dash and kept the brand. *)
Theorem clean_title_brand_suffix : forall W,
  clean_event_title W (lit "Team A vs Team B - Roxiestreams - Watch Live Sports")
    = Ok (lit "Team A vs Team B") /\
  erase (suffix_re "Roxiestreams")
        (lit "Team A vs Team B - Roxiestreams - Watch Live Sports")
    = lit "Team A vs Team B" /\
  erase (suffix_re "Watch Live")
        (lit "Team A vs Team B - Roxiestreams - Watch Live Sports")
    = lit "Team A vs Team B - Roxiestreams".
Proof.
  intro W. repeat split; vm_compute; reflexivity.
Qed.

(* ================================================================== *)
(** ** The run: what the loop of [main] meets, and what it keeps *)

Lemma str_eqb_eq : forall a b, str_eqb a b = true <-> a = b.
Proof.
  induction a as [|x a IH]; destruct b as [|y b]; simpl; split; intro H;
    try discriminate; auto.
  - apply andb_prop in H. destruct H as [Hx H]. apply Z.eqb_eq in Hx.
    apply IH in H. subst. reflexivity.
  - inversion H; subst. unfold char_eqb. rewrite Z.eqb_refl. simpl. apply IH. reflexivity.
Qed.

Lemma str_eqb_refl : forall a, str_eqb a a = true.
Proof. intro a. apply str_eqb_eq. reflexivity. Qed.

Lemma mem_str_In : forall x l, mem_str x l = true <-> In x l.
Proof.
  intros x l. unfold mem_str. rewrite existsb_exists. split.
  - intros (y & Hy & E). apply str_eqb_eq in E. subst. exact Hy.
  - intro H. exists x. split; auto. apply str_eqb_refl.
Qed.

Lemma mem_str_false : forall x l, mem_str x l = false <-> ~ In x l.
Proof.
  intros x l. rewrite <- mem_str_In. destruct (mem_str x l); split; intro H;
    try discriminate; auto. exfalso. apply H. reflexivity.
Qed.

Lemma consistent_init : consistent ([], []).
Proof. split; simpl; [constructor | tauto]. Qed.

Lemma add_new_consistent : forall st r, consistent st -> consistent (add_new st r).
Proof.
  intros [streams seen] r [Hnd Hseen]. unfold add_new. simpl in *.
  destruct (mem_str (manifestUrl r) seen) eqn:Hm; [split; auto|].
  apply mem_str_false in Hm. split; simpl.
  - rewrite map_app. simpl. apply NoDup_app; auto.
    + constructor; [simpl; tauto | constructor].
    + intros x Hx [E | []]. subst x. apply Hm. apply Hseen. exact Hx.
  - intro u. rewrite map_app, in_app_iff. simpl. rewrite Hseen. tauto.
Qed.

Lemma fold_add_new_consistent : forall l st,
  consistent st -> consistent (fold_left add_new l st).
Proof.
  induction l as [|r l IH]; intros st H; simpl; auto.
  apply IH. apply add_new_consistent. exact H.
Qed.

Lemma fold_add_new_app : forall l1 l2 st,
  fold_left add_new (l1 ++ l2) st = fold_left add_new l2 (fold_left add_new l1 st).
Proof. intros. apply fold_left_app. Qed.

Lemma bind_assoc : forall (A B C : Type) (m : result A) (f : A -> result B)
    (g : B -> result C),
  bind (bind m f) g = bind m (fun a => bind (f a) g).
Proof. intros A B C [a|e] f g; reflexivity. Qed.

Lemma bind_ext : forall (A B : Type) (m : result A) (f g : A -> result B),
  (forall a, f a = g a) -> bind m f = bind m g.
Proof. intros A B [a|e] f g H; simpl; auto. Qed.

(** A loop whose body offers records and adds the new ones is, when it
    completes, the loop that collects the offers, followed by the
    additions. *)
Lemma foldM_offers : forall (B : Type) (body : run_state -> B -> result run_state)
    (offer : B -> result (list stream)),
  (forall s x s', body s x = Ok s' ->
     exists o, offer x = Ok o /\ s' = fold_left add_new o s) ->
  forall l acc st st',
    foldM body l (fold_left add_new acc st) = Ok st' ->
    exists o, foldM (fun acc x => o <- offer x ;; Ok (acc ++ o)) l acc = Ok o
              /\ st' = fold_left add_new o st.
Proof.
  intros B body offer Hbody l; induction l as [|x l IH]; intros acc st st' H;
    simpl in *.
  - injection H as <-. exists acc. auto.
  - destruct (body (fold_left add_new acc st) x) as [s1|] eqn:Hb; cbn [bind] in H;
      [|discriminate].
    destruct (Hbody _ _ _ Hb) as (o & Ho & ->). rewrite Ho. cbn [bind].
    rewrite <- fold_add_new_app in H. apply IH in H. exact H.
Qed.

Lemma add_titled : forall W cat title clean st st',
  mem_str clean (snd st) = false ->
  (t <- clean_event_title W title ;;
   Ok (fst st ++ [{| category := or_else cat (lit "misc");
                     displayName := display_name cat t;
                     manifestUrl := clean |}],
       clean :: snd st)) = Ok st' ->
  st' = fold_left add_new (titled W cat title clean) st.
Proof.
  intros W cat title clean st st' Hm H. unfold titled.
  destruct (clean_event_title W title) as [t|]; cbn [bind] in H; [|discriminate].
  injection H as <-. cbn [fold_left]. unfold add_new, stream_of. cbn [manifestUrl].
  rewrite Hm. reflexivity.
Qed.

Lemma skip_titled : forall W cat title clean st,
  mem_str clean (snd st) = true ->
  st = fold_left add_new (titled W cat title clean) st.
Proof.
  intros W cat title clean st Hm. unfold titled.
  destruct (clean_event_title W title) as [t|]; [|reflexivity].
  cbn [fold_left]. unfold add_new, stream_of. cbn [manifestUrl].
  rewrite Hm. reflexivity.
Qed.

Lemma event_step_offers : forall W cat anchor_text href st ev st',
  (let '(ev_title, ev_url) := ev in
   if negb (truthy ev_url) || negb (contains (lit ".m3u8") ev_url) then Ok st
   else
     e <- extract_m3u8_from_text W ev_url (Some href) ;;
     let clean := oor_else e ev_url in
     if negb (truthy clean) then Ok st
     else if mem_str clean (snd st) then Ok st
     else
       final_title <-
         (if truthy ev_title then Ok ev_title
          else if truthy anchor_text then Ok anchor_text
          else d <- derive_title_from_page W None (Some href) ;;
               Ok (or_else d clean)) ;;
       final_title <- clean_event_title W final_title ;;
       Ok (fst st ++ [{| category := or_else cat (lit "misc");
                         displayName := display_name cat final_title;
                         manifestUrl := clean |}],
           clean :: snd st)) = Ok st' ->
  exists o, event_offer W cat anchor_text href ev = Ok o
            /\ st' = fold_left add_new o st.
Proof.
  intros W cat anchor_text href st [ev_title ev_url] st' H. unfold event_offer.
  destruct (negb (truthy ev_url) || negb (contains (lit ".m3u8") ev_url));
    [injection H as <-; exists []; auto|].
  destruct (extract_m3u8_from_text W ev_url (Some href)) as [e|x]; [|discriminate].
  cbn [bind] in *. cbv zeta in *.
  destruct (negb (truthy (oor_else e ev_url))); [injection H as <-; exists []; auto|].
  unfold derive_title_from_page in *.
  destruct (mem_str (oor_else e ev_url) (snd st)) eqn:Hm.
  - injection H as <-.
    destruct (truthy ev_title); [|destruct (truthy anchor_text)]; cbn [bind];
      eexists; (split; [reflexivity|]); apply skip_titled; exact Hm.
  - destruct (truthy ev_title); [|destruct (truthy anchor_text)]; cbn [bind] in *;
      eexists; (split; [reflexivity|]); apply add_titled; assumption.
Qed.

Lemma process_candidate_offers : forall W cat st c st',
  process_candidate W cat st c = Ok st' ->
  exists o, candidate_offers W cat c = Ok o /\ st' = fold_left add_new o st.
Proof.
  intros W cat st [anchor_text href] st' H.
  unfold process_candidate in H. unfold candidate_offers.
  destruct (contains (lit ".m3u8") href).
  - destruct (extract_m3u8_from_text W href (Some href)) as [e|x]; [|discriminate].
    cbn [bind] in *. cbv zeta in *. unfold derive_title_from_page in *.
    destruct (truthy (oor_else e href)); [|injection H as <-; exists []; auto].
    cbn [andb] in H.
    destruct (mem_str (oor_else e href) (snd st)) eqn:Hm; cbn [negb] in H.
    + injection H as <-.
      destruct (clean_event_title W anchor_text) as [t|]; [|exists []; auto].
      destruct (truthy t); cbn [bind]; eexists; (split; [reflexivity|]);
        cbn [fold_left]; unfold add_new, stream_of; cbn [manifestUrl];
        rewrite Hm; reflexivity.
    + destruct (clean_event_title W anchor_text) as [t|]; cbn [bind] in H;
        [|discriminate].
      destruct (truthy t); cbn [bind] in *; injection H as <-;
        eexists; (split; [reflexivity|]);
        cbn [fold_left]; unfold add_new, stream_of; cbn [manifestUrl];
        rewrite Hm; reflexivity.
  - destruct (get_event_m3u8 W href (Some anchor_text)) as [found|x]; [|discriminate].
    cbn [bind] in *.
    change st with (fold_left add_new [] st) in H at 1.
    apply (foldM_offers _ (event_offer W cat anchor_text href)) in H; [exact H|].
    intros s ev s' Hs. apply event_step_offers. exact Hs.
Qed.

Lemma process_categories_offers : forall W cats acc st st',
  foldM (process_category W) cats (fold_left add_new acc st) = Ok st' ->
  exists o,
    foldM (fun acc cat =>
             match get_category_event_candidates W cat with
             | Raise _ => Ok acc
             | Ok candidates =>
                 foldM (fun acc c => o <- candidate_offers W cat c ;; Ok (acc ++ o))
                       candidates acc
             end) cats acc = Ok o
    /\ st' = fold_left add_new o st.
Proof.
  intros W cats; induction cats as [|cat cats IH]; intros acc st st' H; simpl in *.
  - injection H as <-. exists acc. auto.
  - unfold process_category in H at 1.
    destruct (get_category_event_candidates W cat) as [cands|x].
    + destruct (foldM (process_candidate W cat) cands (fold_left add_new acc st))
        as [s1|] eqn:Hc; cbn [bind] in H; [|discriminate].
      apply (foldM_offers _ (candidate_offers W cat)
               (process_candidate_offers W cat)) in Hc.
      destruct Hc as (o & Ho & ->). rewrite Ho. cbn [bind]. apply IH. exact H.
    + cbn [bind] in *. apply IH. exact H.
Qed.

(** [all_streams] is the first record of each URL among the encounters. *)
Lemma collect_streams_keep_first : forall W streams,
  collect_streams W = Ok streams ->
  exists enc, encounters W = Ok enc /\ streams = keep_first enc.
Proof.
  intros W streams H. unfold collect_streams in H. unfold encounters.
  destruct (foldM (process_category W) CATEGORIES ([], [])) as [st|] eqn:Hst;
    cbn [bind] in H; [|discriminate].
  injection H as <-.
  change (@nil stream, @nil str) with (fold_left add_new [] (@nil stream, @nil str))
    in Hst.
  apply process_categories_offers in Hst. destruct Hst as (o & Ho & ->).
  exists o. split; [exact Ho | reflexivity].
Qed.

Lemma fold_add_new_spec : forall l st,
  consistent st ->
  forall r, In r (fst (fold_left add_new l st)) <->
            In r (fst st) \/
            (first_with (manifestUrl r) l = Some r
             /\ ~ In (manifestUrl r) (map manifestUrl (fst st))).
Proof.
  induction l as [|r0 l IH]; intros st Hst r; simpl.
  - unfold first_with. simpl. split; [auto | intros [H | [H _]]; [auto | discriminate]].
  - rewrite (IH _ (add_new_consistent r0 Hst)).
    destruct Hst as [Hnd Hseen]. unfold add_new, first_with. simpl.
    destruct (str_eqb (manifestUrl r0) (manifestUrl r)) eqn:E.
    + apply str_eqb_eq in E.
      destruct (mem_str (manifestUrl r0) (snd st)) eqn:Hm; simpl.
      * apply mem_str_In in Hm. apply Hseen in Hm. rewrite E in Hm. tauto.
      * apply mem_str_false in Hm. rewrite Hseen, E in Hm.
        rewrite map_app, !in_app_iff. simpl.
        split.
        -- intros [[H | [H | []]] | [_ H]]; auto.
           ++ subst. auto.
           ++ exfalso. apply H. rewrite E. auto.
        -- intros [H | [H _]]; auto. inversion H; subst. auto.
    + assert (Hne : manifestUrl r0 <> manifestUrl r).
      { intro H. apply str_eqb_eq in H. congruence. }
      destruct (mem_str (manifestUrl r0) (snd st)) eqn:Hm; simpl; [tauto|].
      rewrite map_app, !in_app_iff. simpl.
      split.
      * intros [[H | [H | []]] | [H1 H2]]; auto.
        -- subst. congruence.
        -- right. split; auto.
      * intros [H | [H1 H2]]; auto. right. split; auto.
        intros [H | [H | []]]; auto.
Qed.

Lemma keep_first_spec : forall l r,
  In r (keep_first l) <-> first_with (manifestUrl r) l = Some r.
Proof.
  intros l r. unfold keep_first.
  rewrite (fold_add_new_spec l consistent_init). simpl. tauto.
Qed.

Lemma keep_first_NoDup : forall l, NoDup (map manifestUrl (keep_first l)).
Proof.
  intro l. unfold keep_first.
  apply (fold_add_new_consistent l consistent_init).
Qed.

Lemma first_with_exists : forall u l r,
  In r l -> manifestUrl r = u -> exists r1, first_with u l = Some r1.
Proof.
  intros u l r Hin Hu. unfold first_with.
  destruct (find (fun x => str_eqb (manifestUrl x) u) l) as [r1|] eqn:Hf; eauto.
  exfalso. apply (find_none _ _ Hf) in Hin. rewrite Hu, str_eqb_refl in Hin.
  discriminate.
Qed.

Lemma first_with_url : forall u l r, first_with u l = Some r -> manifestUrl r = u.
Proof.
  intros u l r H. apply find_some in H. destruct H as [_ H].
  apply str_eqb_eq in H. exact H.
Qed.

(* ================================================================== *)
(** ** The URLs that reach [all_streams] *)

(** The result with a base, in terms of the result without one. *)
Lemma extract_with_base_eq : forall W text b,
  extract_m3u8_from_text W text (Some b) =
  match extract_m3u8_from_text W text None with
  | Ok (Some u) =>
      if truthy b then
        match urlparse W u with
        | Raise e => Raise e
        | Ok _ =>
            if (nth 4 u 0 =? 383)%Z
            then j <- urljoin W b u ;; Ok (Some j)
            else Ok (Some u)
        end
      else Ok (Some u)
  | r => r
  end.
Proof.
  intros W text b. unfold extract_m3u8_from_text.
  destruct (truthy text); cbn [negb]; auto.
  destruct (search M3U8_RE text) as [[[bf m] a]|] eqn:Hs; auto.
  apply search_M3U8_RE in Hs. destruct Hs as (_ & Hm & _).
  rewrite (manifest_url_not_protocol_relative Hm).
  destruct (truthy b); auto.
  destruct (urlparse W m) as [p|e] eqn:Hp; cbn [bind]; auto.
  apply urlparse_scheme in Hp. rewrite Hp, (scheme_of_manifest_url Hm).
  destruct (nth 4 m 0 =? 383)%Z; reflexivity.
Qed.




Lemma foldM_collect_Forall : forall (B : Type) (P : stream -> Prop)
    (offer : B -> result (list stream)),
  (forall x o, offer x = Ok o -> Forall P o) ->
  forall l acc res,
    foldM (fun acc x => o <- offer x ;; Ok (acc ++ o)) l acc = Ok res ->
    Forall P acc -> Forall P res.
Proof.
  intros B P offer Hoffer l; induction l as [|x l IH]; intros acc res H Hacc; simpl in H.
  - inversion H; subst. exact Hacc.
  - destruct (offer x) as [o|] eqn:Ho; cbn [bind] in H; [|discriminate].
    eapply IH; eauto. apply Forall_app. split; eauto.
Qed.








(* ================================================================== *)
(** ** Titles of direct candidates *)

(** C7.  The root category page has one candidate anchor, with href
    [/live/123-match.m3u8] and no text.  The run yields one record, with
    the absolute URL, but its title is that URL: called without a document,
    [derive_title_from_page] returns the empty string before it looks at
    the fallback URL.  With a document, even an empty one, it derives the
    title [123 match.m3u8] from the slug. *)
Theorem slug_title_is_not_derived :
  collect_streams slug_site
    = Ok [{| category := lit "misc";
             displayName :=
               lit "Roxiestreams - https://roxiestreams.live/live/123-match.m3u8";
             manifestUrl := lit "https://roxiestreams.live/live/123-match.m3u8" |}]
  /\ derive_title_from_page slug_site None
       (Some (lit "https://roxiestreams.live/live/123-match.m3u8")) = Ok []
  /\ derive_title_from_page slug_site (Some [])
       (Some (lit "https://roxiestreams.live/live/123-match.m3u8"))
     = Ok (lit "123 match.m3u8").
Proof. repeat split; vm_compute; reflexivity. Qed.

(* ================================================================== *)
(** ** Failed fetches and empty results *)




(* ================================================================== *)
(** ** How far [get_event_m3u8] follows iframes *)

Lemma foldM_ext_in : forall (A B : Type) (f g : A -> B -> result A) (l : list B),
  (forall x, In x l -> forall a, f a x = g a x) ->
  forall a, foldM f l a = foldM g l a.
Proof.
  intros A B f g l; induction l as [|x l IH]; intros H a; simpl; [reflexivity|].
  rewrite (H x (or_introl eq_refl) a). apply bind_ext. intro a'.
  apply IH. intros y Hy. apply H. right. exact Hy.
Qed.

Lemma fetch_with_http : forall W g url,
  g url = http_get W url -> fetch (with_http g W) url = fetch W url.
Proof. intros W g url H. unfold fetch. simpl. rewrite H. reflexivity. Qed.

(** The result of [get_event_m3u8] depends on the server only through the
    event page and the documents of the iframes that occur in the event
    page itself. *)
Lemma get_event_m3u8_with_http : forall W g event_href anchor_text,
  (forall event_url,
     (if startswith (lit "http") event_href then Ok event_href
      else urljoin W BASE_URL event_href) = Ok event_url ->
     g event_url = http_get W event_url /\
     forall text iframe iframe_url,
       http_get W event_url = Some text ->
       In iframe (find_all ["iframe"] "src" (html_parser W text)) ->
       urljoin W event_url (strip (attr_or_empty "src" iframe)) = Ok iframe_url ->
       g iframe_url = http_get W iframe_url) ->
  get_event_m3u8 (with_http g W) event_href anchor_text
  = get_event_m3u8 W event_href anchor_text.
Proof.
  intros W g event_href anchor_text Hagree. unfold get_event_m3u8.
  change (urljoin (with_http g W)) with (urljoin W).
  change (urlparse (with_http g W)) with (urlparse W).
  change (extract_m3u8_from_text (with_http g W)) with (extract_m3u8_from_text W).
  change (clean_event_title (with_http g W)) with (clean_event_title W).
  change (derive_title_from_page (with_http g W)) with (derive_title_from_page W).
  change (note_cand (with_http g W)) with (note_cand W).
  destruct (negb (truthy event_href)); [reflexivity|].
  destruct (if startswith (lit "http") event_href then Ok event_href
            else urljoin W BASE_URL event_href) as [event_url|e] eqn:Hu;
    cbn [bind]; [|reflexivity].
  destruct (Hagree event_url eq_refl) as [Hpage Hframes].
  apply bind_ext. intro direct.
  destruct (otruthy direct); [reflexivity|].
  rewrite (fetch_with_http W g event_url Hpage).
  destruct (fetch W event_url) as [[sp|] html_text] eqn:Hf; [|reflexivity].
  assert (Hsp : exists text, http_get W event_url = Some text /\ sp = html_parser W text).
  { unfold fetch in Hf. destruct (http_get W event_url) as [text|]; [|discriminate].
    exists text. inversion Hf. auto. }
  destruct Hsp as (text & Htext & ->).
  apply bind_ext. intro base_title0.
  apply bind_ext. intro base_title.
  apply bind_ext. intro st1.
  apply bind_ext. intro st2.
  rewrite (foldM_ext_in
    (fun (st : scan_state) iframe =>
       let src := strip (attr_or_empty "src" iframe) in
       iframe_url <- urljoin W event_url src ;;
       let '(soup_if, html_if) := fetch (with_http g W) iframe_url in
       if truthy html_if then
         cand <- extract_m3u8_from_text W html_if (Some iframe_url) ;;
         st <- note_cand W base_title (first_attr "title" "name" iframe) cand st ;;
         match soup_if with
         | Some soup_if =>
             st <- foldM (fun (st : scan_state) a =>
                     cand <- extract_m3u8_from_text W (attr_or_empty "href" a)
                                                    (Some iframe_url) ;;
                     note_cand W base_title (tag_text a) cand st)
                   (find_all ["a"] "href" soup_if) st ;;
             foldM (fun (st : scan_state) t =>
                     cand <- extract_m3u8_from_text W (attr_or_empty "src" t)
                                                    (Some iframe_url) ;;
                     note_cand W base_title (first_attr "title" "alt" t) cand st)
                   (find_all ["source"; "video"] "src" soup_if) st
         | None => Ok st
         end
       else Ok st)
    (fun (st : scan_state) iframe =>
       let src := strip (attr_or_empty "src" iframe) in
       iframe_url <- urljoin W event_url src ;;
       let '(soup_if, html_if) := fetch W iframe_url in
       if truthy html_if then
         cand <- extract_m3u8_from_text W html_if (Some iframe_url) ;;
         st <- note_cand W base_title (first_attr "title" "name" iframe) cand st ;;
         match soup_if with
         | Some soup_if =>
             st <- foldM (fun (st : scan_state) a =>
                     cand <- extract_m3u8_from_text W (attr_or_empty "href" a)
                                                    (Some iframe_url) ;;
                     note_cand W base_title (tag_text a) cand st)
                   (find_all ["a"] "href" soup_if) st ;;
             foldM (fun (st : scan_state) t =>
                     cand <- extract_m3u8_from_text W (attr_or_empty "src" t)
                                                    (Some iframe_url) ;;
                     note_cand W base_title (first_attr "title" "alt" t) cand st)
                   (find_all ["source"; "video"] "src" soup_if) st
         | None => Ok st
         end
       else Ok st)
    (find_all ["iframe"] "src" (html_parser W text))).
  - reflexivity.
  - intros iframe Hin st. cbv zeta.
    destruct (urljoin W event_url (strip (attr_or_empty "src" iframe)))
      as [iframe_url|e] eqn:Hj; cbn [bind]; [|reflexivity].
    rewrite (fetch_with_http W g iframe_url (Hframes text iframe iframe_url Htext Hin Hj)).
    reflexivity.
Qed.

(* ================================================================== *)
(** ** Stripping, splitting and joining *)

Lemma lstrip_by_split : forall p s,
  exists a, s = a ++ lstrip_by p s /\ forallb p a = true.
Proof.
  intros p s; induction s as [|c s IH]; simpl.
  - exists []. auto.
  - destruct (p c) eqn:Hc.
    + destruct IH as (a & Ha & Hp). exists (c :: a). simpl.
      rewrite Hc, Hp. split; [congruence | reflexivity].
    + exists []. auto.
Qed.

Lemma lstrip_by_head : forall p s c s',
  lstrip_by p s = c :: s' -> p c = false.
Proof.
  intros p s; induction s as [|x s IH]; intros c s' H; simpl in H; [discriminate|].
  destruct (p x) eqn:Hx; [eauto|]. inversion H; subst. exact Hx.
Qed.

Lemma lstrip_by_id : forall p s,
  match s with [] => True | c :: _ => p c = false end -> lstrip_by p s = s.
Proof. intros p [|c s] H; simpl; [reflexivity|]. rewrite H. reflexivity. Qed.

Lemma lstrip_by_idem : forall p s, lstrip_by p (lstrip_by p s) = lstrip_by p s.
Proof.
  intros p s. apply lstrip_by_id.
  destruct (lstrip_by p s) as [|c s'] eqn:H; [exact I|].
  eapply lstrip_by_head; eauto.
Qed.

Lemma strip_by_split : forall p s, exists a b, s = a ++ strip_by p s ++ b.
Proof.
  intros p s. unfold strip_by, rstrip_by.
  destruct (lstrip_by_split p s) as (a & Ha & _).
  destruct (lstrip_by_split p (rev (lstrip_by p s))) as (b & Hb & _).
  exists a, (rev b). rewrite <- rev_app_distr, <- Hb, rev_involutive. exact Ha.
Qed.

Lemma strip_by_trimmed : forall p s, trimmed p (strip_by p s).
Proof.
  intros p s. unfold trimmed, strip_by, rstrip_by.
  rewrite rev_involutive. split; [|apply lstrip_by_idem].
  destruct (lstrip_by_split p (rev (lstrip_by p s))) as (b & Hb & _).
  apply lstrip_by_id.
  destruct (rev (lstrip_by p (rev (lstrip_by p s)))) as [|c r] eqn:Hr; [exact I|].
  apply (f_equal (@rev char)) in Hb. rewrite rev_involutive, rev_app_distr, Hr in Hb.
  simpl in Hb. eapply lstrip_by_head. exact Hb.
Qed.

Lemma strip_by_id : forall p s, trimmed p s -> strip_by p s = s.
Proof.
  intros p s [H1 H2]. unfold strip_by, rstrip_by.
  rewrite H1, H2. apply rev_involutive.
Qed.

Lemma trimmed_weaken : forall (p q : char -> bool) s,
  (forall c, In c s -> q c = true -> p c = true) ->
  trimmed p s -> trimmed q s.
Proof.
  intros p q s Hpq [H1 H2]. split; apply lstrip_by_id.
  - destruct s as [|c s']; [exact I|].
    destruct (q c) eqn:Hq; [|reflexivity].
    apply Hpq in Hq; [|left; reflexivity].
    simpl in H1. rewrite Hq in H1.
    destruct (lstrip_by_split p s') as (a & Ha & _).
    apply (f_equal (@length char)) in H1. apply (f_equal (@length char)) in Ha.
    rewrite length_app in Ha. simpl in H1. lia.
  - destruct (rev s) as [|c r] eqn:Hr; [exact I|].
    destruct (q c) eqn:Hq; [|reflexivity].
    apply Hpq in Hq; [|apply in_rev; rewrite Hr; left; reflexivity].
    simpl in H2. rewrite Hq in H2.
    destruct (lstrip_by_split p r) as (a & Ha & _).
    apply (f_equal (@length char)) in H2. apply (f_equal (@length char)) in Ha.
    rewrite length_app in Ha. simpl in H2. lia.
Qed.

Lemma tidy_app_r : forall a b, tidy (a ++ b) = true -> tidy b = true.
Proof.
  induction a as [|c a IH]; intros b H; simpl in H; [exact H|].
  apply andb_prop in H. destruct H as [_ H]. apply IH. exact H.
Qed.

Lemma tidy_app_l : forall a b, tidy (a ++ b) = true -> tidy a = true.
Proof.
  induction a as [|c a IH]; intros b H; simpl in *; [reflexivity|].
  apply andb_prop in H. destruct H as [Hc H]. rewrite (IH _ H), andb_true_r.
  destruct (is_space c); [|reflexivity].
  apply andb_prop in Hc. destruct Hc as [Hc Hn]. rewrite Hc. simpl.
  destruct a as [|c' a]; [reflexivity|]. exact Hn.
Qed.

Lemma tidy_spaces_only : forall s, tidy s = true -> spaces_only s.
Proof.
  induction s as [|c s IH]; intros H x Hx Hsp; simpl in *; [contradiction|].
  apply andb_prop in H. destruct H as [Hc H].
  destruct Hx as [-> | Hx]; [|apply IH; auto].
  rewrite Hsp in Hc. apply andb_prop in Hc. destruct Hc as [Hc _].
  apply Z.eqb_eq in Hc. exact Hc.
Qed.

Lemma tidy_no_newline : forall s, tidy s = true -> forallb any_char s = true.
Proof.
  intros s H. apply forallb_forall. intros c Hc. unfold any_char.
  destruct (c =? 10)%Z eqn:E; [|reflexivity].
  apply Z.eqb_eq in E. subst c.
  pose proof (tidy_spaces_only s H 10%Z Hc eq_refl). discriminate.
Qed.

Lemma join_cons : forall sep x l,
  l <> [] -> join sep (x :: l) = x ++ sep ++ join sep l.
Proof. intros sep x [|y l] H; [congruence | reflexivity]. Qed.

Lemma no_trailing_space_tail : forall c s,
  s <> [] -> no_trailing_space (c :: s) -> no_trailing_space s.
Proof.
  intros c s Hs H. unfold no_trailing_space in *. simpl in H.
  destruct (rev s) as [|x r] eqn:Hr; [exact I|]. exact H.
Qed.

Lemma no_trailing_space_single : forall c, no_trailing_space [c] -> is_space c = false.
Proof. intros c H. exact H. Qed.

(** Splitting at whitespace and joining with single spaces gives a tidy
    string back unchanged. *)
Lemma join_split_ws_acc : forall s w,
  tidy s = true -> no_trailing_space s ->
  (w = [] -> no_leading_space s) ->
  join (lit " ") (split_ws_acc w s) = rev w ++ s.
Proof.
  induction s as [|c s IH]; intros w Ht Hnt Hw; simpl.
  - destruct w; simpl; [reflexivity | rewrite app_nil_r; reflexivity].
  - simpl in Ht. apply andb_prop in Ht. destruct Ht as [Hc Ht].
    destruct (is_space c) eqn:Hsp.
    + apply andb_prop in Hc. destruct Hc as [Hc Hn]. apply Z.eqb_eq in Hc. subst c.
      destruct s as [|c' s].
      { apply no_trailing_space_single in Hnt. discriminate. }
      assert (Hs' : join (lit " ") (split_ws_acc [] (c' :: s)) = c' :: s).
      { apply (IH [] Ht).
        - eapply no_trailing_space_tail; eauto. discriminate.
        - intros _. simpl. apply negb_true_iff. exact Hn. }
      destruct w as [|x w].
      { specialize (Hw eq_refl). simpl in Hw. discriminate. }
      rewrite join_cons.
      * rewrite Hs'. reflexivity.
      * intro E. rewrite E in Hs'. discriminate.
    + rewrite (IH (c :: w) Ht).
      * simpl. rewrite <- app_assoc. reflexivity.
      * destruct s as [|c' s]; [exact I|].
        eapply no_trailing_space_tail; eauto. discriminate.
      * discriminate.
Qed.

Lemma join_split_ws_id : forall s,
  tidy s = true -> trimmed is_space s -> join (lit " ") (split_ws s) = s.
Proof.
  intros s Ht [H1 H2]. unfold split_ws. rewrite join_split_ws_acc; auto.
  - unfold no_trailing_space. destruct (rev s) as [|c r] eqn:Hr; [exact I|].
    eapply lstrip_by_head. exact H2.
  - intros _. unfold no_leading_space. destruct s as [|c s']; [exact I|].
    eapply lstrip_by_head. exact H1.
Qed.

Lemma forallb_rev_eq : forall (p : char -> bool) l, forallb p (rev l) = forallb p l.
Proof.
  intros p l; induction l as [|x l IH]; simpl; [reflexivity|].
  rewrite forallb_app, IH. simpl. rewrite andb_true_r. apply andb_comm.
Qed.

Lemma split_ws_acc_words : forall s w,
  forallb not_space w = true -> Forall word (split_ws_acc w s).
Proof.
  induction s as [|c s IH]; intros w Hw; simpl.
  - destruct w as [|x w]; [constructor|]. constructor; [|constructor].
    split.
    + intro E. apply (f_equal (@length char)) in E. rewrite length_rev in E. discriminate.
    + rewrite forallb_rev_eq. exact Hw.
  - destruct (is_space c) eqn:Hsp.
    + destruct w as [|x w]; [apply IH; reflexivity|].
      constructor; [|apply IH; reflexivity].
      split.
      * intro E. apply (f_equal (@length char)) in E. rewrite length_rev in E. discriminate.
      * rewrite forallb_rev_eq. exact Hw.
    + apply IH. simpl. unfold not_space at 1. rewrite Hsp. exact Hw.
Qed.

Lemma tidy_word_then : forall w rest,
  forallb not_space w = true -> tidy rest = true -> tidy (w ++ rest) = true.
Proof.
  induction w as [|c w IH]; intros rest Hw Hr; simpl in *; [exact Hr|].
  apply andb_prop in Hw. destruct Hw as [Hc Hw].
  unfold not_space in Hc. apply negb_true_iff in Hc. rewrite Hc. simpl.
  apply IH; auto.
Qed.

Lemma join_words : forall ws,
  Forall word ws ->
  tidy (join (lit " ") ws) = true /\ no_leading_space (join (lit " ") ws)
  /\ (ws <> [] -> join (lit " ") ws <> []).
Proof.
  induction ws as [|w ws IH]; intro H.
  - simpl. repeat split; auto; congruence.
  - inversion H as [|? ? [Hne Hw] Hws]; subst.
    destruct (IH Hws) as (Ht & Hl & Hn).
    assert (Hhead : no_leading_space (w ++ lit " " ++ join (lit " ") ws)
                    /\ no_leading_space w).
    { destruct w as [|c w]; [congruence|]. simpl in *.
      apply andb_prop in Hw. destruct Hw as [Hc _].
      unfold not_space in Hc. apply negb_true_iff in Hc. auto. }
    destruct ws as [|w' ws].
    + simpl. repeat split; try tauto.
      rewrite <- (app_nil_r w). apply tidy_word_then; auto.
    + rewrite join_cons by discriminate. repeat split; try tauto.
      * apply tidy_word_then; auto.
        assert (Hn' : join (lit " ") (w' :: ws) <> []) by (apply Hn; discriminate).
        change (lit " " ++ join (lit " ") (w' :: ws))
          with (32%Z :: join (lit " ") (w' :: ws)).
        remember (join (lit " ") (w' :: ws)) as J eqn:HJ. clear HJ.
        destruct J as [|c r]; [congruence|].
        simpl in Hl. change (tidy (32%Z :: c :: r))
          with ((true && negb (is_space c)) && tidy (c :: r)).
        rewrite Hl, Ht. reflexivity.
      * destruct w; [congruence | discriminate].
Qed.

(* ================================================================== *)
(** ** Substitutions that cut a title at a marker

    Each pattern of [clean_event_title] reads: whitespace, a marker, then
    everything up to the end.  [cut_spec r core] says so of the pattern [r],
    [core] being the set of its markers. *)

Unset Implicit Arguments.

Lemma has_subword : forall core p s q, has core s -> has core (p ++ s ++ q).
Proof.
  intros core p s q (b & x & c & -> & Hx).
  exists (p ++ b), x, (c ++ q). split; [|exact Hx].
  rewrite <- !app_assoc. reflexivity.
Qed.

Lemma scan_S : forall f r s,
  scan (S f) r s =
  match search r s with
  | None => [Gap s]
  | Some (b, m, a) =>
      Gap b :: Hit m ::
        match m, a with
        | [], [] => []
        | [], c :: a' => Gap [c] :: scan f r a'
        | _ :: _, _ => scan f r a
        end
  end.
Proof. reflexivity. Qed.

Section Cut.
Variable r : regex.
Variable core : str -> Prop.
Hypothesis Hspec : cut_spec r core.
Hypothesis Hne : forall x, core x -> x <> [].

Lemma cut_matches_tail : forall x c,
  core x -> forallb any_char c = true -> Matches r (x ++ c) [].
Proof.
  intros x c Hx Hc. apply Hspec. exists [], x, c. simpl. repeat split; auto.
Qed.

Lemma cut_search_none : forall s,
  forallb any_char s = true -> search r s = None -> ~ has core s.
Proof.
  intros s Hs Hnone (b & x & c & -> & Hx).
  apply (@search_none r (b ++ x ++ c) b Hnone). exists (x ++ c), [].
  split; [rewrite app_nil_r; reflexivity|].
  apply cut_matches_tail; auto.
  rewrite !forallb_app in Hs. apply andb_prop in Hs. destruct Hs as [_ Hs].
  apply andb_prop in Hs. tauto.
Qed.

Lemma cut_no_match_without_marker : forall s, ~ has core s -> search r s = None.
Proof.
  intros s Hno. destruct (search r s) as [[[b m] a]|] eqn:Hs; [|reflexivity].
  exfalso. apply Hno. apply search_sound in Hs. destruct Hs as (-> & HM & _).
  apply Hspec in HM. destruct HM as (ws & x & tl & -> & _ & Hx & _).
  exists (b ++ ws), x, (tl ++ a). split; [|exact Hx].
  rewrite <- !app_assoc. reflexivity.
Qed.

Lemma erase_without_match : forall s, search r s = None -> erase r s = s.
Proof.
  intros s H. unfold erase, re_sub, finditer. rewrite scan_S, H. simpl.
  apply app_nil_r.
Qed.

Lemma erase_with_match : forall s b m a,
  forallb any_char s = true -> search r s = Some (b, m, a) -> erase r s = b.
Proof.
  intros s b m a Hs H. pose proof H as H'.
  apply search_sound in H'. destruct H' as (Heq & HM & _).
  apply Hspec in HM. destruct HM as (ws & x & tl & -> & _ & Hx & _ & Ha).
  assert (a = []) as ->.
  { destruct Ha as [-> | ->]; [reflexivity|]. exfalso.
    subst s. rewrite !forallb_app in Hs. simpl in Hs.
    rewrite !andb_false_r in Hs. discriminate. }
  assert (Hm : exists c m', ws ++ x ++ tl = c :: m').
  { destruct (ws ++ x ++ tl) as [|c m'] eqn:E; [|eauto].
    apply app_eq_nil in E. destruct E as [_ E]. apply app_eq_nil in E.
    destruct E as [E _]. apply Hne in Hx. contradiction. }
  destruct Hm as (c & m' & Hm).
  assert (Hnil : forall f, scan f r [] = [Gap []]).
  { intros [|f]; [reflexivity|]. rewrite scan_S.
    rewrite (cut_no_match_without_marker []); [reflexivity|].
    intros (b' & x' & c' & E & Hx'). symmetry in E.
    apply app_eq_nil in E. destruct E as [_ E]. apply app_eq_nil in E.
    destruct E as [E _]. apply Hne in Hx'. contradiction. }
  unfold erase, re_sub, finditer. rewrite scan_S, H, Hm, Hnil. simpl.
  apply app_nil_r.
Qed.

Lemma erase_prefix : forall s,
  forallb any_char s = true -> exists q, s = erase r s ++ q.
Proof.
  intros s Hs. destruct (search r s) as [[[b m] a]|] eqn:H.
  - rewrite (erase_with_match s b m a Hs H). apply search_sound in H.
    destruct H as (-> & _). eauto.
  - rewrite (erase_without_match s H). exists []. rewrite app_nil_r. reflexivity.
Qed.

Lemma erase_free : forall s,
  forallb any_char s = true -> ~ has core (erase r s).
Proof.
  intros s Hs. destruct (search r s) as [[[b m] a]|] eqn:H.
  - rewrite (erase_with_match s b m a Hs H). pose proof H as H'.
    apply search_sound in H'. destruct H' as (Heq & _ & Hleft).
    intros (b1 & x & c1 & Hb & Hx).
    apply (Hleft b1).
    + rewrite Hb, !length_app. apply Hne in Hx. destruct x; [congruence|]. simpl. lia.
    + exists (x ++ c1 ++ m ++ a), []. split.
      * rewrite Heq, Hb, app_nil_r, <- !app_assoc. reflexivity.
      * apply cut_matches_tail; auto.
        rewrite forallb_forall in Hs |- *. intros ch Hin. apply Hs.
        rewrite Heq, Hb. rewrite !in_app_iff in *. tauto.
  - rewrite (erase_without_match s H). apply cut_search_none; auto.
Qed.

Lemma erase_id : forall s, ~ has core s -> erase r s = s.
Proof.
  intros s H. apply erase_without_match. apply cut_no_match_without_marker. exact H.
Qed.

End Cut.

Lemma marker_nonempty : forall w x, marker w x -> x <> [].
Proof. intros w x (c & ws & lw & -> & _). discriminate. Qed.

Lemma pipe_marker_nonempty : forall x, pipe_marker x -> x <> [].
Proof. intros x ->. discriminate. Qed.

Lemma Matches_Star_intro : forall p m rest,
  forallb p m = true -> Matches (Star p) m rest.
Proof. intros p m rest H. constructor; [exact H | lia | exact I]. Qed.

Lemma Matches_tail_inv : forall m rest,
  Matches (Star any_char ;;; Eol) m rest ->
  forallb any_char m = true /\ (rest = [] \/ rest = [10%Z]).
Proof.
  intros m rest H.
  apply Matches_Seq_inv in H. destruct H as (tl & e & -> & Htl & He).
  apply Matches_Eol_inv in He. destruct He as [-> He].
  apply Matches_Rep_inv in Htl. destruct Htl as [Htl _].
  rewrite app_nil_r. auto.
Qed.

Lemma Matches_tail_intro : forall m rest,
  forallb any_char m = true -> rest = [] \/ rest = [10%Z] ->
  Matches (Star any_char ;;; Eol) m rest.
Proof.
  intros m rest Hm Hr. rewrite <- (app_nil_r m).
  constructor; [apply Matches_Star_intro; exact Hm | constructor; exact Hr].
Qed.

Lemma suffix_re_cut : forall w, cut_spec (suffix_re w) (marker w).
Proof.
  intros w m rest. unfold suffix_re. split.
  - intro H.
    apply Matches_Seq_inv in H. destruct H as (ws1 & m1 & -> & Hws1 & H).
    apply Matches_Seq_inv in H. destruct H as (d & m2 & -> & Hd & H).
    apply Matches_Seq_inv in H. destruct H as (ws2 & m3 & -> & Hws2 & H).
    apply Matches_Seq_inv in H. destruct H as (lw & tl & -> & Hlw & H).
    apply Matches_tail_inv in H. destruct H as [Htl Hrest].
    apply Matches_Rep_inv in Hws1. destruct Hws1 as [Hws1 _].
    apply Matches_Rep_inv in Hws2. destruct Hws2 as [Hws2 _].
    apply Matches_Chr_inv in Hd. destruct Hd as (c & -> & Hc).
    apply Matches_Str_by_inv in Hlw.
    exists ws1, (c :: ws2 ++ lw), tl. repeat split; auto.
    + simpl. rewrite <- !app_assoc. reflexivity.
    + exists c, ws2, lw. auto.
  - intros (ws1 & x & tl & -> & Hws1 & (c & ws2 & lw & -> & Hc & Hws2 & Hlw) & Htl & Hrest).
    constructor; [apply Matches_Star_intro; exact Hws1|].
    change ((c :: ws2 ++ lw) ++ tl) with ([c] ++ (ws2 ++ lw) ++ tl).
    constructor; [constructor; exact Hc|].
    rewrite <- app_assoc.
    constructor; [apply Matches_Star_intro; exact Hws2|].
    constructor; [apply Matches_Str_by_intro; exact Hlw|].
    apply Matches_tail_intro; auto.
Qed.

Lemma pipe_re_cut : cut_spec pipe_re pipe_marker.
Proof.
  intros m rest. unfold pipe_re. split.
  - intro H.
    apply Matches_Seq_inv in H. destruct H as (ws1 & m1 & -> & Hws1 & H).
    apply Matches_Seq_inv in H. destruct H as (d & tl & -> & Hd & H).
    apply Matches_tail_inv in H. destruct H as [Htl Hrest].
    apply Matches_Rep_inv in Hws1. destruct Hws1 as [Hws1 _].
    apply Matches_Chr_inv in Hd. destruct Hd as (c & -> & Hc).
    unfold c_is, char_eqb in Hc. apply Z.eqb_eq in Hc. subst c.
    exists ws1, [chr "|"], tl. repeat split; auto.
  - intros (ws1 & x & tl & -> & Hws1 & -> & Htl & Hrest).
    constructor; [apply Matches_Star_intro; exact Hws1|].
    constructor; [constructor; reflexivity|].
    apply Matches_tail_intro; auto.
Qed.

(* ================================================================== *)
(** ** Cleaning a cleaned title *)

Lemma not_has_prefix : forall core s q, ~ has core (s ++ q) -> ~ has core s.
Proof.
  intros core s q H Hs. apply H.
  apply (has_subword core [] s q) in Hs. exact Hs.
Qed.

(** One substitution: the result is a prefix of the input, tidy like it,
    and free of the rule's marker. *)
Lemma erase_step : forall r core s,
  cut_spec r core -> (forall x, core x -> x <> []) -> tidy s = true ->
  tidy (erase r s) = true /\ ~ has core (erase r s)
  /\ forall core', ~ has core' s -> ~ has core' (erase r s).
Proof.
  intros r core s Hspec Hne Ht.
  pose proof (tidy_no_newline s Ht) as Hnl.
  destruct (erase_prefix r core Hspec Hne s Hnl) as [q Hq].
  repeat split.
  - rewrite Hq in Ht. eapply tidy_app_l; eauto.
  - apply (erase_free r core Hspec Hne s Hnl).
  - intros core' H. rewrite Hq in H. eapply not_has_prefix; eauto.
Qed.

Lemma clean_event_title_cleaned : forall W x t,
  clean_event_title W x = Ok t -> cleaned t.
Proof.
  intros W x t Hclean. unfold clean_event_title in Hclean.
  destruct (truthy x); cbn [negb] in Hclean.
  2:{ injection Hclean as <-. unfold cleaned, trimmed. simpl.
      repeat split; auto; intros (b & y & c & E & Hy); symmetry in E;
        apply app_eq_nil in E; destruct E as [_ E];
        apply app_eq_nil in E; destruct E as [-> _];
        [apply marker_nonempty in Hy | apply marker_nonempty in Hy
        | apply marker_nonempty in Hy | apply marker_nonempty in Hy
        | apply pipe_marker_nonempty in Hy]; congruence. }
  destruct (unescape W x) as [d|]; cbn [bind] in Hclean; [|discriminate].
  injection Hclean as <-.
  set (t0 := join (lit " ") (split_ws (strip d))).
  assert (H0 : tidy t0 = true).
  { apply join_words. apply split_ws_acc_words. reflexivity. }
  destruct (erase_step (suffix_re "Roxiestreams") (marker "Roxiestreams") t0
              (suffix_re_cut _) (marker_nonempty _) H0) as (H1 & F1 & K1).
  set (t1 := erase (suffix_re "Roxiestreams") t0) in *.
  destruct (erase_step (suffix_re "Watch Live") (marker "Watch Live") t1
              (suffix_re_cut _) (marker_nonempty _) H1) as (H2 & F2 & K2).
  set (t2 := erase (suffix_re "Watch Live") t1) in *.
  destruct (erase_step (suffix_re "Watch") (marker "Watch") t2
              (suffix_re_cut _) (marker_nonempty _) H2) as (H3 & F3 & K3).
  set (t3 := erase (suffix_re "Watch") t2) in *.
  destruct (erase_step (suffix_re "Live Stream") (marker "Live Stream") t3
              (suffix_re_cut _) (marker_nonempty _) H3) as (H4 & F4 & K4).
  set (t4 := erase (suffix_re "Live Stream") t3) in *.
  destruct (erase_step pipe_re pipe_marker t4
              pipe_re_cut pipe_marker_nonempty H4) as (H5 & F5 & K5).
  set (t5 := erase pipe_re t4) in *.
  unfold strip_chars.
  destruct (strip_by_split (fun c => mem_char c (lit " -,:")) t5) as (a & b & Hab).
  set (t6 := strip_by (fun c => mem_char c (lit " -,:")) t5) in *.
  assert (Hsub : forall core, ~ has core t5 -> ~ has core t6).
  { intros core H Hc. apply H. rewrite Hab. apply has_subword. exact Hc. }
  unfold cleaned. repeat split.
  - rewrite Hab in H5. apply tidy_app_r in H5. apply tidy_app_l in H5. exact H5.
  - apply strip_by_trimmed.
  - apply strip_by_trimmed.
  - apply Hsub, K5, K4, K3, K2, F1.
  - apply Hsub, K5, K4, K3, F2.
  - apply Hsub, K5, K4, F3.
  - apply Hsub, K5, F4.
  - apply Hsub, F5.
Qed.

Lemma cleaned_fixed : forall W t,
  cleaned t -> unescape W t = Ok t -> clean_event_title W t = Ok t.
Proof.
  intros W t (Ht & Htr & F1 & F2 & F3 & F4 & F5) Hu. unfold clean_event_title.
  destruct (truthy t) eqn:Hty; cbn [negb]; [|destruct t; [reflexivity|discriminate]].
  rewrite Hu. cbn [bind]. f_equal.
  assert (Hsp : trimmed is_space t).
  { apply (@trimmed_weaken (fun c => mem_char c (lit " -,:")) is_space t); [|exact Htr].
    intros c Hc Hs. rewrite (@tidy_spaces_only t Ht c Hc Hs). reflexivity. }
  unfold strip. rewrite (@strip_by_id is_space t Hsp).
  rewrite (@join_split_ws_id t Ht Hsp).
  rewrite (erase_id _ _ (suffix_re_cut "Roxiestreams") t F1).
  rewrite (erase_id _ _ (suffix_re_cut "Watch Live") t F2).
  rewrite (erase_id _ _ (suffix_re_cut "Watch") t F3).
  rewrite (erase_id _ _ (suffix_re_cut "Live Stream") t F4).
  rewrite (erase_id _ _ pipe_re_cut t F5).
  apply strip_by_id. exact Htr.
Qed.

Lemma unescape_without_amp : forall W s,
  mem_char (chr "&") s = false -> unescape W s = Ok s.
Proof. intros W s H. unfold unescape. rewrite H. reflexivity. Qed.

(** C6 (counterexample).  [&amp;amp;] cleans to [&amp;], which cleans to
    [&]: [html.unescape] decodes one level of entities at each call. *)
Lemma clean_twice_decodes_twice :
  clean_event_title offline (lit "&amp;amp;") = Ok (lit "&amp;")
  /\ (t <- clean_event_title offline (lit "&amp;amp;") ;; clean_event_title offline t)
     = Ok (lit "&").
Proof. split; vm_compute; reflexivity. Qed.

(** C6 (amended).  Cleaning a cleaned title changes nothing, provided
    [html.unescape] leaves the cleaned title as it is, which is the case
    when it holds no [&].  Stripping, whitespace collapsing, the four suffix
    rules, the pipe rule and the final trimming are idempotent together;
    entity decoding is not.  (When the first cleaning raises, so does the
    expression [clean(clean(x))].) *)
Theorem clean_event_title_idempotent_after_decoding : forall W x,
  ((forall t, clean_event_title W x = Ok t -> unescape W t = Ok t) ->
   (t <- clean_event_title W x ;; clean_event_title W t) = clean_event_title W x)
  /\ ((forall t, clean_event_title W x = Ok t -> mem_char (chr "&") t = false) ->
      (t <- clean_event_title W x ;; clean_event_title W t) = clean_event_title W x).
Proof.
  intros W x.
  assert (H : (forall t, clean_event_title W x = Ok t -> unescape W t = Ok t) ->
              (t <- clean_event_title W x ;; clean_event_title W t)
              = clean_event_title W x).
  { intro Hu. destruct (clean_event_title W x) as [t|e] eqn:Hx; [|reflexivity].
    cbn [bind]. apply cleaned_fixed; [|apply Hu; reflexivity].
    apply (clean_event_title_cleaned W x). exact Hx. }
  split; [exact H|].
  intro Hamp. apply H. intros t Ht. apply unescape_without_amp. apply Hamp. exact Ht.
Qed.

(** C6 (witness): a title without entities. *)
Lemma clean_event_title_idempotent_after_decoding_witness :
  (t <- clean_event_title offline (lit "NFL: Team A @ Team B | Watch on Roxiestreams") ;;
   clean_event_title offline t)
  = clean_event_title offline (lit "NFL: Team A @ Team B | Watch on Roxiestreams").
Proof.
  apply (proj2 (clean_event_title_idempotent_after_decoding offline
                  (lit "NFL: Team A @ Team B | Watch on Roxiestreams"))).
  intros t Ht. vm_compute in Ht. injection Ht as <-. reflexivity.
Defined.

(* ================================================================== *)
(** ** Two runs *)

(** The only manifest reference of an event page lies in the raw body of its
    iframe; [get_event_m3u8] finds it through the search of the iframe's
    text, and the run records it under the anchor text of the category
    page. *)
Lemma manifest_in_iframe_body_is_found :
  get_event_m3u8 iframe_site (lit "https://roxiestreams.live/nba/lakers-celtics-7")
                 (Some (lit "Lakers vs Celtics"))
    = Ok [(lit "Lakers vs Celtics", lit "https://cdn.example.com/live/lakers.m3u8?token=abc")]
  /\ collect_streams iframe_site
     = Ok [stream_of [] (lit "Lakers vs Celtics")
                     (lit "https://cdn.example.com/live/lakers.m3u8?token=abc")].
Proof. split; vm_compute; reflexivity. Qed.

(** An iframe whose [src] is [//[] makes [urljoin] raise [ValueError]
    inside [get_event_m3u8], which [main] calls outside its [try]: no file
    is written. *)
Lemma malformed_iframe_src_ends_the_run :
  get_event_m3u8 broken_iframe_site
                 (lit "https://roxiestreams.live/nba/lakers-celtics-7")
                 (Some (lit "Lakers vs Celtics"))
    = Raise ValueError
  /\ main broken_iframe_site
     = ({| vlc_output := None; tivimate_output := None |}, Raise ValueError).
Proof. split; vm_compute; reflexivity. Qed.

(* ================================================================== *)
(** ** Matching a text and matching its own match *)

Lemma cut_off_orelse : forall a o1 o1' o2 o2',
  cut_off a o1 o1' -> cut_off a o2 o2' ->
  cut_off a (match o1 with Some r => Some r | None => o2 end)
            (match o1' with Some r => Some r | None => o2' end).
Proof.
  intros a o1 o1' o2 o2' [H1 H1'] H2. destruct o1 as [z|].
  - split; [discriminate|]. intros y H. inversion H; subst z.
    rewrite (H1' y eq_refl). reflexivity.
  - rewrite (H1 eq_refl). exact H2.
Qed.

Lemma cut_off_none : forall a, cut_off a None None.
Proof. intro a. split; [reflexivity | discriminate]. Qed.

Lemma run_shorter : forall r k, shorter k -> shorter (fun s => run r s k).
Proof.
  intros r k Hk x out H. apply run_sound in H. destruct H as (m & rest & -> & _ & H).
  apply Hk in H. rewrite length_app. lia.
Qed.

Lemma rep_run_stop_none : forall g p hi s k,
  rep_run g p 0 hi s k = None -> k s = None.
Proof.
  intros g p hi s k H. destruct s as [|c s]; simpl in H; destruct g;
    repeat match type of H with
           | match ?x with _ => _ end = None => destruct x eqn:?; try discriminate
           end; auto.
Qed.

Lemma rep_run_cut_off : forall g p a k k',
  shorter k -> (forall x, cut_off a (k (x ++ a)) (k' x)) ->
  forall s lo hi,
    cut_off a (rep_run g p lo hi (s ++ a) k) (rep_run g p lo hi s k').
Proof.
  intros g p a k k' Hk Hcut. induction s as [|c s IH]; intros lo hi.
  - split.
    + intro H. simpl. destruct lo as [|lo].
      * apply rep_run_stop_none in H. apply (Hcut []) in H. rewrite H.
        destruct g; reflexivity.
      * destruct g; reflexivity.
    + intros y H. simpl app in H.
      destruct (rep_run_sound _ _ _ _ _ _ H) as (m & rest & Ha & _ & Hlo & _ & Hr).
      pose proof (Hk _ _ Hr) as Hlen. rewrite length_app in Hlen.
      assert (Hm : length a = length m + length rest)
        by (rewrite Ha at 1; apply length_app).
      assert (m = []) by (destruct m; [reflexivity | simpl in Hm; lia]).
      assert (y = []) by (destruct y; [reflexivity | simpl in Hlen; lia]).
      subst m y. simpl in Ha, Hlo. subst rest.
      apply (proj2 (Hcut [])) in Hr.
      assert (lo = 0) by lia. subst lo. simpl. rewrite Hr. destruct g; reflexivity.
  - assert (Hs : cut_off a (match lo with O => k ((c :: s) ++ a) | S _ => None end)
                           (match lo with O => k' (c :: s) | S _ => None end)).
    { destruct lo; [apply Hcut | apply cut_off_none]. }
    assert (Hm : cut_off a
              (if p c && more_allowed hi
               then rep_run g p (pred lo) (dec_bound hi) (s ++ a) k else None)
              (if p c && more_allowed hi
               then rep_run g p (pred lo) (dec_bound hi) s k' else None)).
    { destruct (p c && more_allowed hi); [apply IH | apply cut_off_none]. }
    simpl. destruct g; apply cut_off_orelse; assumption.
Qed.

Lemma run_cut_off : forall r a,
  eol_free r = true ->
  forall k k', shorter k -> (forall x, cut_off a (k (x ++ a)) (k' x)) ->
  forall x, cut_off a (run r (x ++ a) k) (run r x k').
Proof.
  intros r a. induction r as [|p|r1 IH1 r2 IH2|r1 IH1 r2 IH2|g lo hi p|];
    intros He k k' Hk Hcut x; simpl in He.
  - apply Hcut.
  - destruct x as [|c x]; simpl.
    + split; [reflexivity|]. intros y H. exfalso.
      destruct a as [|c a']; [discriminate|].
      destruct (p c); [|discriminate].
      apply Hk in H. rewrite length_app in H. simpl in H. lia.
    + destruct (p c); [apply Hcut | apply cut_off_none].
  - apply andb_prop in He. destruct He as [He1 He2]. simpl.
    apply (IH1 He1); [apply run_shorter; exact Hk|].
    intro x'. apply (IH2 He2); assumption.
  - apply andb_prop in He. destruct He as [He1 He2]. simpl.
    apply cut_off_orelse; [apply (IH1 He1) | apply (IH2 He2)]; assumption.
  - simpl. apply rep_run_cut_off; assumption.
  - discriminate.
Qed.

Lemma match_here_own_match : forall r m a,
  eol_free r = true -> match_here r (m ++ a) = Some (m, a) ->
  match_here r m = Some (m, []).
Proof.
  intros r m a He H. unfold match_here in *.
  destruct (run r (m ++ a) (fun rest => Some rest)) as [rest|] eqn:E; [|discriminate].
  injection H as _ Hr. subst rest.
  assert (Hc : cut_off a (run r (m ++ a) (fun rest => Some rest))
                         (run r m (fun rest => Some rest))).
  { apply run_cut_off; [exact He | |].
    - intros x out Hx. inversion Hx. lia.
    - intro x. split; [discriminate|]. intros y Hy. injection Hy as Hy.
      apply app_inv_tail in Hy. subst. reflexivity. }
  rewrite (proj2 Hc [] E). simpl. rewrite Nat.sub_0_r, firstn_all. reflexivity.
Qed.

Lemma search_at : forall r s b m a,
  search r s = Some (b, m, a) -> match_here r (m ++ a) = Some (m, a).
Proof.
  intros r s; induction s as [|c s IH]; intros b m a H; simpl in H.
  - destruct (match_here r []) as [[m' rest]|] eqn:Hh; [|discriminate].
    inversion H; subst. destruct (match_here_sound _ _ Hh) as [<- _]. exact Hh.
  - destruct (match_here r (c :: s)) as [[m' rest]|] eqn:Hh.
    + inversion H; subst. destruct (match_here_sound _ _ Hh) as [<- _]. exact Hh.
    + destruct (search r s) as [[[b0 m0] a0]|] eqn:Hs; [|discriminate].
      inversion H; subst. apply (IH _ _ _ eq_refl).
Qed.

Lemma search_own_match : forall r s b m a,
  eol_free r = true -> search r s = Some (b, m, a) -> search r m = Some ([], m, []).
Proof.
  intros r s b m a He H. apply search_at in H.
  apply (match_here_own_match _ _ _ He) in H.
  destruct m; simpl; rewrite H; reflexivity.
Qed.

Lemma manifest_url_truthy : forall u, manifest_url u -> truthy u = true.
Proof. intros u H. apply manifest_url_head in H. destruct H as (c & u' & -> & _). reflexivity. Qed.

(** X1.  A text from which [extract_m3u8_from_text] returns nothing contains
    no manifest URL at all, and conversely. *)
Theorem extract_misses_no_manifest_url : forall W text,
  extract_m3u8_from_text W text None = Ok None
  <-> ~ exists before u after, text = before ++ u ++ after /\ manifest_url u.
Proof.
  intros W text. unfold extract_m3u8_from_text. split.
  - intros H (b & u & a & Heq & Hu).
    destruct (search M3U8_RE text) as [[[b0 m0] a0]|] eqn:Hs.
    + destruct (truthy text) eqn:Ht; simpl in H; [discriminate|].
      apply manifest_url_truthy in Hu. subst text.
      destruct b; [destruct u; discriminate | discriminate].
    + apply (@search_none _ _ b Hs). exists u, a. split; [exact Heq|].
      apply M3U8_RE_matches. exact Hu.
  - intro H. destruct (truthy text); simpl; [|reflexivity].
    destruct (search M3U8_RE text) as [[[b m] a]|] eqn:Hs; [|reflexivity].
    exfalso. apply H. apply search_M3U8_RE in Hs. destruct Hs as (Heq & Hm & _).
    exists b, m, a. auto.
Qed.

(** X2.  Extraction is stable: the URL that [extract_m3u8_from_text] returns
    from a text is what it returns from that URL alone. *)
Theorem extract_from_own_result : forall W text u,
  extract_m3u8_from_text W text None = Ok (Some u) ->
  extract_m3u8_from_text W u None = Ok (Some u).
Proof.
  intros W text u H. unfold extract_m3u8_from_text in H.
  destruct (negb (truthy text)); [discriminate|].
  destruct (search M3U8_RE text) as [[[b m] a]|] eqn:Hs; [|discriminate].
  pose proof (search_M3U8_RE _ Hs) as (_ & Hm & _).
  rewrite (manifest_url_not_protocol_relative Hm) in H. inversion H; subst u.
  unfold extract_m3u8_from_text.
  rewrite (manifest_url_truthy _ Hm). cbn [negb].
  rewrite (search_own_match M3U8_RE _ _ _ _ eq_refl Hs).
  rewrite (manifest_url_not_protocol_relative Hm). reflexivity.
Qed.

Lemma extract_from_own_result_witness :
  extract_m3u8_from_text offline (lit "see HTTPS://cdn.example.com/a.M3U8?k=1 now") None
    = Ok (Some (lit "HTTPS://cdn.example.com/a.M3U8?k=1"))
  /\ extract_m3u8_from_text offline (lit "HTTPS://cdn.example.com/a.M3U8?k=1") None
    = Ok (Some (lit "HTTPS://cdn.example.com/a.M3U8?k=1")).
Proof.
  assert (H : extract_m3u8_from_text offline
                (lit "see HTTPS://cdn.example.com/a.M3U8?k=1 now") None
              = Ok (Some (lit "HTTPS://cdn.example.com/a.M3U8?k=1")))
    by (vm_compute; reflexivity).
  split; [exact H | exact (extract_from_own_result _ _ _ H)].
Defined.

(* ================================================================== *)
(** ** The match that the pattern picks *)















(** Of two URLs separated by a comma, the first alone is returned; a second
    URL that follows [?] belongs to the query of the first. *)
Lemma first_of_two_urls :
  extract_m3u8_from_text offline (lit "http://a/x.m3u8,http://b/y.m3u8") None
    = Ok (Some (lit "http://a/x.m3u8"))
  /\ extract_m3u8_from_text offline (lit "http://a/x.m3u8?k=1 http://b/y.m3u8") None
    = Ok (Some (lit "http://a/x.m3u8?k=1"))
  /\ extract_m3u8_from_text offline (lit "http://a/x.m3u8?u=http://b/y.m3u8") None
    = Ok (Some (lit "http://a/x.m3u8?u=http://b/y.m3u8")).
Proof. repeat split; vm_compute; reflexivity. Qed.

(* ================================================================== *)
(** ** The form of a cleaned title *)

Lemma In_pipe_has : forall t, In (chr "|") t -> has pipe_marker t.
Proof.
  intros t H. apply in_split in H. destruct H as (b & c & ->).
  exists b, [chr "|"], c. split; reflexivity.
Qed.

(* ================================================================== *)
(** ** Loops *)

Lemma foldM_invariant : forall (A B : Type) (Inv : A -> Prop) (body : A -> B -> result A),
  (forall a x a', Inv a -> body a x = Ok a' -> Inv a') ->
  forall l a a', Inv a -> foldM body l a = Ok a' -> Inv a'.
Proof.
  intros A B Inv body Hbody l; induction l as [|x l IH]; intros a a' Ha H; simpl in H.
  - inversion H; subst. exact Ha.
  - destruct (body a x) as [a1|] eqn:Hb; cbn [bind] in H; [|discriminate].
    eapply IH; [|exact H]. eapply Hbody; eauto.
Qed.

Lemma foldM_app : forall (A B : Type) (body : A -> B -> result A) l1 l2 a,
  foldM body (l1 ++ l2) a = (a1 <- foldM body l1 a ;; foldM body l2 a1).
Proof.
  intros A B body l1; induction l1 as [|x l1 IH]; intros l2 a; simpl; [reflexivity|].
  rewrite bind_assoc. apply bind_ext. intro a1. apply IH.
Qed.

Lemma foldM_raise : forall (A B : Type) (body : A -> B -> result A) l a e,
  foldM body l a = Raise e -> exists a1 x, In x l /\ body a1 x = Raise e.
Proof.
  intros A B body l; induction l as [|x l IH]; intros a e H; simpl in H; [discriminate|].
  destruct (body a x) as [a1|e1] eqn:Hb; cbn [bind] in H.
  - destruct (IH _ _ H) as (a2 & y & Hy & Hr). exists a2, y. split; [right|]; auto.
  - inversion H; subst. exists a, x. split; [left|]; auto.
Qed.

Lemma fold_left_invariant : forall (A B : Type) (Inv : A -> Prop) (f : A -> B -> A),
  (forall a x, Inv a -> Inv (f a x)) ->
  forall l a, Inv a -> Inv (fold_left f l a).
Proof.
  intros A B Inv f Hf l; induction l as [|x l IH]; intros a Ha; simpl; auto.
Qed.

Lemma distinct_urls_init : distinct_urls ([], []).
Proof. split; simpl; [constructor | tauto]. Qed.

Lemma distinct_urls_add : forall (st : scan_state) t u,
  distinct_urls st -> mem_str u (fst st) = false ->
  distinct_urls (u :: fst st, snd st ++ [(t, u)]).
Proof.
  intros [seen results] t u [Hnd Hcov] Hm. simpl in *. apply mem_str_false in Hm.
  split; simpl; rewrite map_app; simpl.
  - apply NoDup_app; auto.
    + constructor; [simpl; tauto | constructor].
    + intros x Hx [E | []]. subst x. apply Hm. apply Hcov. exact Hx.
  - intros x Hx. apply in_app_iff in Hx. destruct Hx as [Hx | [<- | []]]; auto.
Qed.

Lemma seen_recorded_init : seen_recorded ([], []).
Proof. intros u []. Qed.

Lemma seen_recorded_add : forall (st : scan_state) t u,
  seen_recorded st -> seen_recorded (u :: fst st, snd st ++ [(t, u)]).
Proof.
  intros [seen results] t u H x [<- | Hx]; simpl in *.
  - exists t. apply in_app_iff. right. left. reflexivity.
  - destruct (H x Hx) as (t' & Ht'). exists t'. apply in_app_iff. left. exact Ht'.
Qed.

Ltac peel H :=
  match type of H with
  | bind ?t _ = Ok _ => destruct t eqn:?; cbn [bind] in H; [|discriminate]
  end.

(* ================================================================== *)
(** ** When cleaning raises, and what it returns *)

Lemma rstrip_chars_length : forall chars s,
  length (rstrip_chars chars s) <= length s.
Proof.
  intros chars s. unfold rstrip_chars, rstrip_by.
  destruct (lstrip_by_split (fun c => mem_char c chars) (rev s)) as (a & Ea & _).
  apply (f_equal (@length char)) in Ea. rewrite length_app, length_rev in Ea.
  rewrite length_rev. lia.
Qed.

Lemma scan_hits_length : forall r f s m,
  In (Hit m) (scan f r s) -> length m <= length s.
Proof.
  intros r f; induction f as [|f IH]; intros s m H.
  - simpl in H. destruct H as [H | []]. discriminate.
  - rewrite scan_S in H.
    destruct (search r s) as [[[b m0] a]|] eqn:Hs.
    + apply search_sound in Hs. destruct Hs as [Hs _].
      apply (f_equal (@length char)) in Hs. rewrite !length_app in Hs.
      destruct H as [H | [H | H]]; [discriminate | |].
      * inversion H; subst. lia.
      * destruct m0 as [|c m0].
        -- destruct a as [|c a]; [destruct H|].
           destruct H as [H | H]; [discriminate|]. apply IH in H.
           cbn [length] in Hs. lia.
        -- apply IH in H. lia.
    + destruct H as [H | []]. discriminate.
Qed.

Lemma replace_charref_raises : forall W s e,
  replace_charref W s = Raise e ->
  e = ValueError /\ 0 < int_max_str_digits W < length s.
Proof.
  intros W s e H. unfold replace_charref in H.
  destruct s as [|c0 s1]; [discriminate|].
  destruct (char_eqb c0 (chr "#")); [|discriminate].
  destruct s1 as [|c1 s2]; [discriminate|].
  destruct (mem_char c1 (lit "xX")); [discriminate|].
  unfold int_decimal in H.
  destruct (0 <? int_max_str_digits W) eqn:H0; [|discriminate].
  destruct (int_max_str_digits W <? length (rstrip_chars (lit ";") (c1 :: s2))) eqn:H1;
    [|discriminate].
  cbn [andb bind] in H. injection H as <-.
  apply Nat.ltb_lt in H0. apply Nat.ltb_lt in H1.
  pose proof (rstrip_chars_length (lit ";") (c1 :: s2)) as Hl.
  cbn [length] in *. split; [reflexivity | lia].
Qed.

(** [html.unescape] raises nothing but the [ValueError] of [int], and only
    where a limit on the digits of [int] is set, on a text that is longer
    than the limit and holds [&]. *)
Lemma unescape_raises : forall W s e,
  unescape W s = Raise e ->
  e = ValueError /\ 0 < int_max_str_digits W < length s
  /\ mem_char (chr "&") s = true.
Proof.
  intros W s e H. unfold unescape in H.
  destruct (mem_char (chr "&") s); cbn [negb] in H; [|discriminate].
  unfold re_sub_raising in H. apply foldM_raise in H.
  destruct H as (acc & [g|m] & Hin & H); [discriminate|].
  destruct (replace_charref W (skipn 1 m)) as [x|e'] eqn:Hr; cbn [bind] in H;
    [discriminate|].
  injection H as <-. apply replace_charref_raises in Hr.
  apply scan_hits_length in Hin.
  pose proof (length_skipn 1 m) as Hk.
  destruct Hr as (-> & H0 & H1). repeat split; auto; lia.
Qed.

(** What [clean_event_title] does to the decoded title. *)
Lemma clean_event_title_decoded : forall W x t,
  clean_event_title W x = Ok t ->
  exists d, unescape W x = Ok d /\ clean_event_title W x
    = Ok (strip_chars (lit " -,:")
            (erase pipe_re
               (erase (suffix_re "Live Stream")
                  (erase (suffix_re "Watch")
                     (erase (suffix_re "Watch Live")
                        (erase (suffix_re "Roxiestreams")
                           (join (lit " ") (split_ws (strip d))))))))).
Proof.
  intros W x t H. unfold clean_event_title in *.
  destruct (truthy x) eqn:Hx; cbn [negb] in *.
  - destruct (unescape W x) as [d|]; cbn [bind] in *; [|discriminate].
    exists d. auto.
  - destruct x; [|discriminate]. exists []. split; reflexivity.
Qed.

(** X3.  Whenever it returns, [clean_event_title] returns a title in normal
    form: whitespace only as single spaces; no space, dash, comma or colon
    at either end; no dash followed by [Roxiestreams], [Watch] or
    [Live Stream] in any letter case; no pipe and no line break.  It raises
    only when [html.unescape] raises on the title, which is the [ValueError]
    of [int] on a decimal character reference with more digits than the
    limit of the interpreter. *)
Theorem clean_event_title_normal_form : forall W x,
  match clean_event_title W x with
  | Ok t => cleaned t /\ ~ In (chr "|") t /\ ~ In 10%Z t
  | Raise e =>
      e = ValueError /\ unescape W x = Raise ValueError
      /\ 0 < int_max_str_digits W < length x
  end.
Proof.
  intros W x. destruct (clean_event_title W x) as [t|e] eqn:Hc.
  - pose proof (clean_event_title_cleaned W x t Hc) as H.
    split; [exact H|]. destruct H as (Ht & _ & _ & _ & _ & _ & Hp). split.
    + intro Hin. apply Hp. apply In_pipe_has. exact Hin.
    + intro Hin. apply tidy_no_newline in Ht.
      rewrite forallb_forall in Ht. apply Ht in Hin. discriminate.
  - unfold clean_event_title in Hc.
    destruct (truthy x); cbn [negb] in Hc; [|discriminate].
    destruct (unescape W x) as [d|e'] eqn:Hu; cbn [bind] in Hc; [discriminate|].
    injection Hc as <-.
    destruct (unescape_raises W x _ Hu) as (-> & [H0 Hl] & _).
    repeat split; auto.
Qed.

(** X4.  [clean_event_title] only cuts: the cleaned title is a contiguous
    part of the decoded title with its whitespace normalised, and what is
    dropped in front of it are separator characters only (space, dash,
    comma, colon).  Nothing inside the title is changed. *)
Theorem clean_event_title_only_cuts : forall W x t,
  clean_event_title W x = Ok t ->
  exists decoded before after,
    unescape W x = Ok decoded
    /\ join (lit " ") (split_ws (strip decoded)) = before ++ t ++ after
    /\ forallb (fun c => mem_char c (lit " -,:")) before = true.
Proof.
  intros W x t Hc.
  destruct (clean_event_title_decoded W x t Hc) as (d & Hd & E).
  rewrite E in Hc. injection Hc as <-. exists d.
  set (t0 := join (lit " ") (split_ws (strip d))).
  assert (H0 : tidy t0 = true).
  { apply join_words. apply split_ws_acc_words. reflexivity. }
  assert (Hstep : forall r core s, cut_spec r core -> (forall y, core y -> y <> []) ->
                    tidy s = true ->
                    tidy (erase r s) = true /\ exists q, s = erase r s ++ q).
  { intros r core s Hspec Hne Ht. split.
    - apply (erase_step r core s Hspec Hne Ht).
    - apply (erase_prefix r core Hspec Hne s). apply tidy_no_newline. exact Ht. }
  destruct (Hstep _ _ t0 (suffix_re_cut "Roxiestreams") (marker_nonempty _) H0)
    as (H1 & q1 & E1).
  set (t1 := erase (suffix_re "Roxiestreams") t0) in *.
  destruct (Hstep _ _ t1 (suffix_re_cut "Watch Live") (marker_nonempty _) H1)
    as (H2 & q2 & E2).
  set (t2 := erase (suffix_re "Watch Live") t1) in *.
  destruct (Hstep _ _ t2 (suffix_re_cut "Watch") (marker_nonempty _) H2)
    as (H3 & q3 & E3).
  set (t3 := erase (suffix_re "Watch") t2) in *.
  destruct (Hstep _ _ t3 (suffix_re_cut "Live Stream") (marker_nonempty _) H3)
    as (H4 & q4 & E4).
  set (t4 := erase (suffix_re "Live Stream") t3) in *.
  destruct (Hstep _ _ t4 pipe_re_cut pipe_marker_nonempty H4) as (H5 & q5 & E5).
  set (t5 := erase pipe_re t4) in *.
  unfold strip_chars, strip_by, rstrip_by.
  set (p := fun c => mem_char c (lit " -,:")).
  destruct (lstrip_by_split p t5) as (a & Ea & Ha).
  destruct (lstrip_by_split p (rev (lstrip_by p t5))) as (b & Eb & _).
  apply (f_equal (@rev char)) in Eb. rewrite rev_involutive, rev_app_distr in Eb.
  exists a, (rev b ++ q5 ++ q4 ++ q3 ++ q2 ++ q1).
  split; [exact Hd|]. split; [|exact Ha].
  rewrite E1, E2, E3, E4, E5 at 1. rewrite Ea at 1. rewrite Eb at 1.
  rewrite <- !app_assoc. reflexivity.
Qed.

Lemma clean_event_title_only_cuts_witness :
  exists decoded before after,
    unescape offline (lit " - Team A &amp; Team B | Live ") = Ok decoded
    /\ join (lit " ") (split_ws (strip decoded))
       = before ++ lit "Team A & Team B" ++ after
    /\ forallb (fun c => mem_char c (lit " -,:")) before = true.
Proof.
  apply (clean_event_title_only_cuts offline (lit " - Team A &amp; Team B | Live ")).
  vm_compute. reflexivity.
Defined.

(** A decimal reference of 4301 digits makes [html.unescape] raise where the
    limit is 4300; one of 4300 digits is decoded, here to U+FFFD. *)
Lemma overlong_reference_raises :
  unescape offline (lit "&#" ++ repeat (chr "1") 4301) = Raise ValueError
  /\ clean_event_title offline (lit "&#" ++ repeat (chr "1") 4301) = Raise ValueError
  /\ unescape offline (lit "&#" ++ repeat (chr "1") 4300) = Ok [65533%Z].
Proof.
  assert (H : unescape offline (lit "&#" ++ repeat (chr "1") 4301) = Raise ValueError)
    by (vm_compute; reflexivity).
  split; [exact H|]. split; [|vm_compute; reflexivity].
  unfold clean_event_title. change (truthy (lit "&#" ++ repeat (chr "1") 4301)) with true.
  cbn [negb]. rewrite H. reflexivity.
Qed.


(* ================================================================== *)
(** ** Every encounter has a record *)

Lemma foldM_at : forall (A B : Type) (body : A -> B -> result A) (l : list B) x a a',
  In x l -> foldM body l a = Ok a' ->
  exists l2 sa sb, body sa x = Ok sb /\ foldM body l2 sb = Ok a'.
Proof.
  intros A B body l x a a' Hin H.
  apply in_split in Hin. destruct Hin as (l1 & l2 & ->).
  rewrite foldM_app in H.
  destruct (foldM body l1 a) as [sa|]; cbn [bind] in H; [|discriminate].
  cbn [foldM] in H. destruct (body sa x) as [sb|] eqn:Hb; cbn [bind] in H; [|discriminate].
  exists l2, sa, sb. auto.
Qed.

Lemma add_new_seen : forall o st u,
  In u (snd st) -> In u (snd (fold_left add_new o st)).
Proof.
  induction o as [|r o IH]; intros st u H; cbn [fold_left]; [exact H|].
  apply IH. unfold add_new. destruct (mem_str (manifestUrl r) (snd st)); [exact H|].
  right. exact H.
Qed.

Lemma process_candidate_seen : forall W cat st c st' u,
  In u (snd st) -> process_candidate W cat st c = Ok st' -> In u (snd st').
Proof.
  intros W cat st c st' u Hu H. apply process_candidate_offers in H.
  destruct H as (o & _ & ->). apply add_new_seen. exact Hu.
Qed.

Lemma process_category_seen : forall W st cat st' u,
  In u (snd st) -> process_category W st cat = Ok st' -> In u (snd st').
Proof.
  intros W st cat st' u Hu H. unfold process_category in H.
  destruct (get_category_event_candidates W cat) as [cands|];
    [|injection H as <-; exact Hu].
  apply (foldM_invariant _ _ (fun s => In u (snd s)) (process_candidate W cat)
           (fun a x a' Ha Hb => process_candidate_seen W cat a x a' u Ha Hb)
           cands st st' Hu H).
Qed.

(** The turn of a resolved stream puts its URL into [seen_urls]. *)
Lemma event_step_records : forall W cat anchor_text href st ev_title ev_url st' e,
  contains (lit ".m3u8") ev_url = true ->
  extract_m3u8_from_text W ev_url (Some href) = Ok e ->
  oor_else e ev_url <> [] ->
  (if negb (truthy ev_url) || negb (contains (lit ".m3u8") ev_url) then Ok st
   else
     e <- extract_m3u8_from_text W ev_url (Some href) ;;
     let clean := oor_else e ev_url in
     if negb (truthy clean) then Ok st
     else if mem_str clean (snd st) then Ok st
     else
       final_title <-
         (if truthy ev_title then Ok ev_title
          else if truthy anchor_text then Ok anchor_text
          else d <- derive_title_from_page W None (Some href) ;;
               Ok (or_else d clean)) ;;
       final_title <- clean_event_title W final_title ;;
       Ok (fst st ++ [{| category := or_else cat (lit "misc");
                         displayName := display_name cat final_title;
                         manifestUrl := clean |}],
           clean :: snd st)) = Ok st' ->
  In (oor_else e ev_url) (snd st').
Proof.
  intros W cat anchor_text href st ev_title ev_url st' e Hc He Hne H.
  assert (Ht : truthy ev_url = true).
  { destruct ev_url; [vm_compute in Hc; discriminate | reflexivity]. }
  rewrite Ht, Hc, He in H. cbn [negb orb bind] in H. cbv zeta in H.
  assert (Hcl : truthy (oor_else e ev_url) = true).
  { destruct (oor_else e ev_url); [congruence | reflexivity]. }
  rewrite Hcl in H. cbn [negb] in H.
  destruct (mem_str (oor_else e ev_url) (snd st)) eqn:Hm.
  - injection H as <-. apply mem_str_In. exact Hm.
  - peel H. peel H. injection H as <-. left. reflexivity.
Qed.

(** The turn of a candidate puts every URL it comes to into [seen_urls]. *)
Lemma process_candidate_records : forall W cat st cand st' u,
  met_for W cand u ->
  process_candidate W cat st cand = Ok st' ->
  In u (snd st').
Proof.
  intros W cat st [anchor_text href] st' u Hmet H.
  unfold met_for in Hmet. destruct Hmet as [Hne Hmet].
  unfold process_candidate in H.
  destruct (contains (lit ".m3u8") href) eqn:Hc.
  - destruct Hmet as (e & He & ->). rewrite He in H. cbn [bind] in H. cbv zeta in H.
    assert (Hcl : truthy (oor_else e href) = true).
    { destruct (oor_else e href); [congruence | reflexivity]. }
    rewrite Hcl in H. cbn [andb] in H.
    destruct (mem_str (oor_else e href) (snd st)) eqn:Hm; cbn [negb] in H.
    + injection H as <-. apply mem_str_In. exact Hm.
    + peel H. peel H. injection H as <-. left. reflexivity.
  - destruct Hmet as (found & t & ev_url & e & Hf & Hin & Hcm & He & ->).
    rewrite Hf in H. cbn [bind] in H.
    destruct (foldM_at _ _ _ _ _ _ _ Hin H) as (l2 & sa & sb & Hb & Hrest).
    cbv beta iota in Hb.
    apply (event_step_records W cat anchor_text href sa t ev_url sb e Hcm He Hne) in Hb.
    refine (foldM_invariant _ _ (fun s => In (oor_else e ev_url) (snd s)) _ _
              l2 sb st' Hb Hrest).
    intros a ev a' Ha Hstep.
    destruct (@event_step_offers W cat anchor_text href a ev a' Hstep) as (o & _ & ->).
    apply add_new_seen. exact Ha.
Qed.

Lemma process_category_records : forall W st cat candidates cand st' u,
  get_category_event_candidates W cat = Ok candidates ->
  In cand candidates ->
  met_for W cand u ->
  process_category W st cat = Ok st' ->
  In u (snd st').
Proof.
  intros W st cat cands cand st' u Hg Hin Hmet H.
  unfold process_category in H. rewrite Hg in H.
  destruct (foldM_at _ _ _ _ _ _ _ Hin H) as (l2 & sa & sb & Hb & Hrest).
  apply (process_candidate_records W cat sa cand sb u Hmet) in Hb.
  exact (foldM_invariant _ _ (fun s => In u (snd s)) (process_candidate W cat)
           (fun a x a' Ha Hs => process_candidate_seen W cat a x a' u Ha Hs)
           l2 sb st' Hb Hrest).
Qed.

(** When the loop of [main] completes, every URL the run came to has a
    record. *)
Lemma met_urls_are_recorded : forall W streams cat candidates cand u,
  collect_streams W = Ok streams ->
  In cat CATEGORIES ->
  get_category_event_candidates W cat = Ok candidates ->
  In cand candidates ->
  met_for W cand u ->
  In u (map manifestUrl streams).
Proof.
  intros W streams cat cands cand u H Hcat Hg Hin Hmet.
  unfold collect_streams in H.
  destruct (foldM (process_category W) CATEGORIES ([], [])) as [st|] eqn:Hst;
    cbn [bind] in H; [|discriminate].
  injection H as <-.
  assert (Hcons : consistent st).
  { pose proof Hst as Hst'.
    change (@nil stream, @nil str) with (fold_left add_new [] (@nil stream, @nil str))
      in Hst'.
    apply process_categories_offers in Hst'. destruct Hst' as (o & _ & ->).
    apply fold_add_new_consistent. exact consistent_init. }
  apply (proj2 Hcons).
  destruct (foldM_at _ _ _ _ _ _ _ Hcat Hst) as (l2 & sa & sb & Hb & Hrest).
  apply (process_category_records W sa cat cands cand sb u Hg Hin Hmet) in Hb.
  exact (foldM_invariant _ _ (fun s => In u (snd s)) (process_category W)
           (fun a x a' Ha Hs => process_category_seen W a x a' u Ha Hs)
           l2 sb st Hb Hrest).
Qed.

(** C3.  When the loop of [main] completes, no two records of
    [all_streams] share a [manifestUrl]; for every record the run met
    (whatever its category or candidate), [all_streams] holds exactly one
    record with that URL: the first one met in processing order, with its
    category and display name; and every URL that the run came to, for any
    candidate of any category, is the [manifestUrl] of a record. *)
Theorem all_streams_keep_first_encounter : forall W streams,
  collect_streams W = Ok streams ->
  NoDup (map manifestUrl streams) /\
  (exists enc,
    encounters W = Ok enc /\
    (forall r, In r streams -> In r enc) /\
    forall r, In r enc ->
      exists r1, first_with (manifestUrl r) enc = Some r1 /\
                 In r1 streams /\
                 forall r2, In r2 streams -> manifestUrl r2 = manifestUrl r -> r2 = r1) /\
  (forall cat candidates cand u,
     In cat CATEGORIES ->
     get_category_event_candidates W cat = Ok candidates ->
     In cand candidates ->
     met_for W cand u ->
     In u (map manifestUrl streams)).
Proof.
  intros W streams H.
  destruct (@collect_streams_keep_first _ _ H) as (enc & He & Hk).
  split; [rewrite Hk; apply keep_first_NoDup|]. split.
  - rewrite Hk. exists enc. split; [exact He|]. split.
    + intros r Hr. apply keep_first_spec in Hr. apply find_some in Hr. tauto.
    + intros r Hr.
      destruct (@first_with_exists _ _ _ Hr eq_refl) as [r1 H1].
      exists r1. split; [exact H1|].
      pose proof (first_with_url _ _ H1) as Hu1.
      split.
      * apply keep_first_spec. rewrite Hu1. exact H1.
      * intros r2 H2 Hu2. apply keep_first_spec in H2.
        rewrite Hu2, H1 in H2. inversion H2. reflexivity.
  - intros cat cands cand u Hcat Hg Hin Hmet.
    exact (met_urls_are_recorded W streams cat cands cand u H Hcat Hg Hin Hmet).
Qed.

(** C3 (witness): the root page and the soccer page lead to the same
    manifest; the record of the root category is the one kept. *)
Lemma all_streams_keep_first_encounter_witness :
  collect_streams shared_site
    = Ok [stream_of [] (lit "Cup Final") (lit "https://cdn.example.com/live/a.m3u8");
          stream_of (lit "soccer") (lit "Derby") (lit "https://cdn.example.com/live/b.m3u8")]
  /\ NoDup [lit "https://cdn.example.com/live/a.m3u8";
            lit "https://cdn.example.com/live/b.m3u8"].
Proof.
  assert (H : collect_streams shared_site
    = Ok [stream_of [] (lit "Cup Final") (lit "https://cdn.example.com/live/a.m3u8");
          stream_of (lit "soccer") (lit "Derby") (lit "https://cdn.example.com/live/b.m3u8")]).
  { vm_compute. reflexivity. }
  split; [exact H|].
  exact (proj1 (all_streams_keep_first_encounter shared_site _ H)).
Defined.

(* ================================================================== *)
(** ** [get_event_m3u8]: the shortcut *)

(** X6.  An href from which the extractor returns a URL is resolved on the
    spot: [get_event_m3u8] returns that one URL, titled by the cleaned
    anchor text or else by the cleaned URL, or raises what the cleaning of
    that title raises; and it asks the server nothing: the outcome is the
    same with any server. *)
Theorem direct_href_is_resolved_without_fetch :
  forall W g event_href anchor_text event_url direct,
  (if startswith (lit "http") event_href then Ok event_href
   else urljoin W BASE_URL event_href) = Ok event_url ->
  extract_m3u8_from_text W event_href (Some event_url) = Ok (Some direct) ->
  truthy direct = true ->
  get_event_m3u8 (with_http g W) event_href anchor_text
  = (title <- clean_event_title W (oor_else anchor_text direct) ;;
     Ok [(title, direct)]).
Proof.
  intros W g event_href anchor_text event_url direct Hu Hd Ht.
  unfold get_event_m3u8.
  change (urljoin (with_http g W)) with (urljoin W).
  change (extract_m3u8_from_text (with_http g W)) with (extract_m3u8_from_text W).
  change (clean_event_title (with_http g W)) with (clean_event_title W).
  assert (Hh : truthy event_href = true).
  { destruct event_href; [|reflexivity]. simpl in Hd. discriminate. }
  rewrite Hh. cbn [negb]. rewrite Hu. cbn [bind]. rewrite Hd.
  cbn [bind otruthy oor_else]. unfold or_else at 1 2 3. rewrite Ht.
  unfold derive_title_from_page.
  destruct anchor_text as [[|c a]|]; cbn [otruthy truthy oor_else or_else bind];
    rewrite ?Ht; reflexivity.
Qed.

Lemma direct_href_is_resolved_without_fetch_witness :
  get_event_m3u8 (with_http (echo (lit "<html></html>")) offline)
                 (lit "https://cdn.example.com/live/a.m3u8?k=1") None
  = Ok [(lit "https://cdn.example.com/live/a.m3u8?k=1",
         lit "https://cdn.example.com/live/a.m3u8?k=1")].
Proof.
  apply (direct_href_is_resolved_without_fetch offline (echo (lit "<html></html>"))
           (lit "https://cdn.example.com/live/a.m3u8?k=1") None
           (lit "https://cdn.example.com/live/a.m3u8?k=1")
           (lit "https://cdn.example.com/live/a.m3u8?k=1"));
    vm_compute; reflexivity.
Defined.

(* ================================================================== *)
(** ** [get_event_m3u8]: what the scan of a page keeps *)

Lemma get_event_m3u8_unfold : forall W event_href anchor_text,
  get_event_m3u8 W event_href anchor_text =
  if negb (truthy event_href) then Ok []
  else
    event_url <- (if startswith (lit "http") event_href then Ok event_href
                  else urljoin W BASE_URL event_href) ;;
    direct <- extract_m3u8_from_text W event_href (Some event_url) ;;
    if otruthy direct then
      let direct := oor_else direct [] in
      t <- (if otruthy anchor_text then Ok (oor_else anchor_text [])
            else d <- derive_title_from_page W None (Some event_url) ;;
                 Ok (or_else d direct)) ;;
      title <- clean_event_title W t ;;
      Ok [(title, direct)]
    else
      match fetch W event_url with
      | (None, html_text) =>
          if truthy html_text then Raise AttributeError else Ok []
      | (Some sp, html_text) =>
          base_title <- (if otruthy anchor_text
                         then clean_event_title W (oor_else anchor_text [])
                         else Ok []) ;;
          base_title <- (if negb (truthy base_title)
                         then derive_title_from_page W (Some sp) (Some event_url)
                         else Ok base_title) ;;
          st <- foldM (anchor_step W event_url base_title)
                      (find_all ["a"] "href" sp) ([], []) ;;
          st <- foldM (media_step W event_url base_title)
                      (find_all ["source"; "video"] "src" sp) st ;;
          st <- foldM (iframe_step W event_url base_title)
                      (find_all ["iframe"] "src" sp) st ;;
          cand <- extract_m3u8_from_text W html_text (Some event_url) ;;
          fin <- foldM (final_step W sp event_url)
                       (snd (text_step base_title cand st)) ([], []) ;;
          Ok (snd fin)
      end.
Proof. reflexivity. Qed.

Lemma grows_one : forall (st : scan_state) t u,
  mem_str u (fst st) = false -> grows st (u :: fst st, snd st ++ [(t, u)]).
Proof. intros st t u H. apply grows_add; [apply grows_refl | exact H]. Qed.

Lemma grows_trans : forall a b c, grows a b -> grows b c -> grows a c.
Proof.
  intros a b c Hab Hbc. induction Hbc as [|b c t u Hbc IH Hm]; [exact Hab|].
  apply grows_add; auto.
Qed.

Lemma grows_distinct : forall st st',
  grows st st' -> distinct_urls st -> distinct_urls st'.
Proof.
  intros st st' H Hinv. induction H as [|st st' t u H IH Hm]; [exact Hinv|].
  apply distinct_urls_add; auto.
Qed.

Lemma grows_recorded : forall st st',
  grows st st' -> seen_recorded st -> seen_recorded st'.
Proof.
  intros st st' H Hinv. induction H as [|st st' t u H IH Hm]; [exact Hinv|].
  apply seen_recorded_add; auto.
Qed.

Lemma grows_seen : forall st st' u, grows st st' -> In u (fst st) -> In u (fst st').
Proof.
  intros st st' u H Hin. induction H as [|st st' t u' H IH Hm]; [exact Hin|].
  right. auto.
Qed.

Lemma foldM_grows : forall (B : Type) (body : scan_state -> B -> result scan_state),
  (forall st x st', body st x = Ok st' -> grows st st') ->
  forall l st st', foldM body l st = Ok st' -> grows st st'.
Proof.
  intros B body Hbody l; induction l as [|x l IH]; intros st st' H; simpl in H.
  - inversion H. apply grows_refl.
  - destruct (body st x) as [st1|] eqn:Hb; cbn [bind] in H; [|discriminate].
    eapply grows_trans; eauto.
Qed.

(** A loop that only grows the state, seen at the turn of one element. *)
Lemma foldM_grows_at : forall (B : Type) (body : scan_state -> B -> result scan_state),
  (forall st x st', body st x = Ok st' -> grows st st') ->
  forall l x st st', In x l -> foldM body l st = Ok st' ->
    exists sa sb, body sa x = Ok sb /\ grows sb st'.
Proof.
  intros B body Hbody l x st st' Hin H.
  apply in_split in Hin. destruct Hin as (l1 & l2 & ->).
  rewrite foldM_app in H.
  destruct (foldM body l1 st) as [sa|]; cbn [bind] in H; [|discriminate].
  simpl in H. destruct (body sa x) as [sb|] eqn:Hb; cbn [bind] in H; [|discriminate].
  exists sa, sb. split; [exact Hb|]. eapply foldM_grows; eauto.
Qed.

Lemma note_cand_grows : forall W base_title own cand st st',
  note_cand W base_title own cand st = Ok st' -> grows st st'.
Proof.
  intros W bt own [c|] st st' H; unfold note_cand in H;
    [|injection H as <-; apply grows_refl].
  destruct (truthy c); cbn [andb] in H; [|injection H as <-; apply grows_refl].
  destruct (mem_str c (fst st)) eqn:Hm; cbn [negb] in H;
    [injection H as <-; apply grows_refl|].
  peel H. injection H as <-. apply grows_one. exact Hm.
Qed.

Lemma note_cand_seen : forall W base_title own c st st',
  truthy c = true -> note_cand W base_title own (Some c) st = Ok st' ->
  In c (fst st').
Proof.
  intros W bt own c st st' Hc H. unfold note_cand in H. rewrite Hc in H.
  cbn [andb] in H.
  destruct (mem_str c (fst st)) eqn:Hm; cbn [negb] in H.
  - injection H as <-. apply mem_str_In. exact Hm.
  - peel H. injection H as <-. left. reflexivity.
Qed.

Lemma anchor_step_grows : forall W event_url base_title st a st',
  anchor_step W event_url base_title st a = Ok st' -> grows st st'.
Proof.
  intros W eu bt st a st' H. unfold anchor_step in H. cbv zeta in H.
  destruct (extract_m3u8_from_text W (strip _) (Some eu)) as [c1|];
    cbn [bind] in H; [|discriminate].
  destruct (if otruthy c1 then Ok c1 else _) as [cand|]; cbn [bind] in H; [|discriminate].
  destruct (otruthy cand); [|injection H as <-; apply grows_refl].
  destruct (mem_str _ (fst st)) eqn:Hm; cbn [negb] in H;
    [injection H as <-; apply grows_refl|].
  peel H. injection H as <-. apply grows_one. exact Hm.
Qed.

Lemma media_step_grows : forall W event_url base_title st t st',
  media_step W event_url base_title st t = Ok st' -> grows st st'.
Proof.
  intros W eu bt st t st' H. unfold media_step in H. cbv zeta in H.
  peel H. apply note_cand_grows in H. exact H.
Qed.

Lemma iframe_step_grows : forall W event_url base_title st iframe st',
  iframe_step W event_url base_title st iframe = Ok st' -> grows st st'.
Proof.
  intros W eu bt st iframe st' H. unfold iframe_step in H. cbv zeta in H.
  peel H. destruct (fetch W _) as [soup_if html_if].
  destruct (truthy html_if); [|injection H as <-; apply grows_refl].
  peel H.
  destruct (note_cand W bt _ _ st) as [st0|] eqn:H0; cbn [bind] in H; [|discriminate].
  apply note_cand_grows in H0. eapply grows_trans; [exact H0|].
  destruct soup_if as [soup_if|]; [|injection H as <-; apply grows_refl].
  destruct (foldM _ (find_all ["a"] "href" soup_if) _) as [st1|] eqn:H1;
    cbn [bind] in H; [|discriminate].
  apply foldM_grows in H1; [apply foldM_grows in H|].
  - eapply grows_trans; eauto.
  - intros s x s' Hb. peel Hb. apply note_cand_grows in Hb. exact Hb.
  - intros s x s' Hb. peel Hb. apply note_cand_grows in Hb. exact Hb.
Qed.

Lemma text_step_grows : forall base_title cand st, grows st (text_step base_title cand st).
Proof.
  intros bt [c|] st; unfold text_step; [|apply grows_refl].
  destruct (truthy c); cbn [andb]; [|apply grows_refl].
  destruct (mem_str c (fst st)) eqn:Hm; cbn [negb]; [apply grows_refl|].
  apply grows_one. exact Hm.
Qed.

Lemma final_step_grows : forall W sp event_url fs tu fs',
  final_step W sp event_url fs tu = Ok fs' -> grows fs fs'.
Proof.
  intros W sp eu fs [t u] fs' H. unfold final_step in H. cbv zeta in H.
  destruct (negb (truthy u)); [injection H as <-; apply grows_refl|].
  peel H. peel H.
  destruct (mem_str _ (fst fs)) eqn:Hm; [injection H as <-; apply grows_refl|].
  peel H. peel H. injection H as <-. apply grows_one. exact Hm.
Qed.

(** A manifest URL is left alone by [strip]. *)
Lemma url_char_not_space : forall c, url_char c = true -> is_space c = false.
Proof.
  intros c H. unfold url_char, none_of, url_stop, cup in H.
  apply negb_true_iff in H. apply orb_false_iff in H. tauto.
Qed.

Lemma manifest_url_last : forall u,
  manifest_url u -> exists u' c, u = u' ++ [c] /\ is_space c = false.
Proof.
  intros u (sch & body & ext & qry & -> & _ & _ & _ & Hext & Hq).
  destruct Hq as [-> | (q & -> & Hq)].
  - unfold caseless in Hext.
    destruct ext as [|c1 [|c2 [|c3 [|c4 [|c5 [|c6 ext]]]]]]; simpl in Hext;
      try discriminate; try (rewrite !andb_false_r in Hext; discriminate).
    do 4 (apply andb_prop in Hext; destruct Hext as [_ Hext]).
    rewrite andb_true_r in Hext. apply c_ieq_exact in Hext; [|reflexivity]. subst c5.
    exists (sch ++ lit "://" ++ body ++ [c1; c2; c3; c4]), (chr "8").
    split; [|reflexivity]. rewrite app_nil_r, <- !app_assoc. reflexivity.
  - assert (Hne : chr "?" :: q <> []) by discriminate.
    destruct (exists_last Hne) as (q' & z & E). rewrite E.
    exists (sch ++ lit "://" ++ body ++ ext ++ q'), z.
    split; [rewrite <- !app_assoc; reflexivity|].
    assert (Hz : In z (chr "?" :: q))
      by (rewrite E; apply in_app_iff; right; left; reflexivity).
    destruct Hz as [<- | Hz]; [reflexivity|].
    rewrite forallb_forall in Hq. apply url_char_not_space. apply Hq. exact Hz.
Qed.

Lemma manifest_url_strip : forall u, manifest_url u -> strip u = u.
Proof.
  intros u Hu. apply strip_by_id. split.
  - destruct (manifest_url_head Hu) as (c & u' & -> & Hc).
    apply lstrip_by_id. letter_cases Hc; reflexivity.
  - destruct (manifest_url_last u Hu) as (u' & c & -> & Hc).
    rewrite rev_app_distr. simpl. rewrite Hc. reflexivity.
Qed.

Lemma extract_manifest : forall W text c,
  extract_m3u8_from_text W text None = Ok (Some c) -> manifest_url c.
Proof.
  intros W text c H. unfold extract_m3u8_from_text in H.
  destruct (negb (truthy text)); [discriminate|].
  destruct (search M3U8_RE text) as [[[b m] a]|] eqn:Hs; [|discriminate].
  apply search_M3U8_RE in Hs. destruct Hs as (_ & Hm & _).
  rewrite (manifest_url_not_protocol_relative Hm) in H. inversion H; subst. exact Hm.
Qed.

(** With a base, a call that returns gives the match found without one,
    unless the match spells [https] with U+017F. *)
Lemma extract_based : forall W text b c e,
  extract_m3u8_from_text W text None = Ok (Some c) ->
  nth 4 c 0%Z <> 383%Z ->
  extract_m3u8_from_text W text (Some b) = Ok e ->
  e = Some c.
Proof.
  intros W text b c e Hc H4 H. rewrite extract_with_base_eq, Hc in H.
  apply Z.eqb_neq in H4. rewrite H4 in H.
  destruct (truthy b); [destruct (urlparse W c); [|discriminate]|]; inversion H; reflexivity.
Qed.

Lemma anchor_step_seen : forall W event_url base_title st a st' c,
  extract_m3u8_from_text W (strip (attr_or_empty "href" a)) None = Ok (Some c) ->
  nth 4 c 0%Z <> 383%Z ->
  anchor_step W event_url base_title st a = Ok st' ->
  In c (fst st').
Proof.
  intros W eu bt st a st' c Hc H4 H. pose proof (extract_manifest _ _ _ Hc) as Hm.
  unfold anchor_step in H. cbv zeta in H.
  destruct (extract_m3u8_from_text W _ (Some eu)) as [c1|] eqn:H1;
    cbn [bind] in H; [|discriminate].
  apply (extract_based _ _ _ _ _ Hc H4) in H1. subst c1.
  assert (Eo : or_else c [] = c)
    by (unfold or_else; rewrite (manifest_url_truthy _ Hm); reflexivity).
  cbn [otruthy] in H. rewrite (manifest_url_truthy _ Hm) in H. cbn [bind otruthy] in H.
  rewrite (manifest_url_truthy _ Hm) in H. cbn [oor_else] in H.
  rewrite !Eo, !(manifest_url_strip _ Hm), !(manifest_url_not_protocol_relative Hm) in H.
  destruct (mem_str c (fst st)) eqn:Hs; cbn [negb] in H.
  - injection H as <-. apply mem_str_In. exact Hs.
  - peel H. injection H as <-. left. reflexivity.
Qed.

Lemma media_step_seen : forall W event_url base_title st t st' c,
  extract_m3u8_from_text W (strip (attr_or_empty "src" t)) None = Ok (Some c) ->
  nth 4 c 0%Z <> 383%Z ->
  media_step W event_url base_title st t = Ok st' ->
  In c (fst st').
Proof.
  intros W eu bt st t st' c Hc H4 H. pose proof (extract_manifest _ _ _ Hc) as Hm.
  unfold media_step in H. cbv zeta in H.
  destruct (extract_m3u8_from_text W _ (Some eu)) as [c1|] eqn:H1;
    cbn [bind] in H; [|discriminate].
  apply (extract_based _ _ _ _ _ Hc H4) in H1. subst c1.
  apply note_cand_seen in H; [exact H|]. apply manifest_url_truthy. exact Hm.
Qed.

Lemma fetch_ok : forall W url text,
  http_get W url = Some text -> fetch W url = (Some (html_parser W text), text).
Proof. intros W url text H. unfold fetch. rewrite H. reflexivity. Qed.

Lemma iframe_step_seen : forall W event_url base_title st iframe st' iframe_url html_if c,
  urljoin W event_url (strip (attr_or_empty "src" iframe)) = Ok iframe_url ->
  http_get W iframe_url = Some html_if ->
  extract_m3u8_from_text W html_if None = Ok (Some c) ->
  nth 4 c 0%Z <> 383%Z ->
  iframe_step W event_url base_title st iframe = Ok st' ->
  In c (fst st').
Proof.
  intros W eu bt st iframe st' iu html_if c Hj Hget Hc H4 H.
  pose proof (extract_manifest _ _ _ Hc) as Hm.
  pose proof H as Hg.
  unfold iframe_step in H. cbv zeta in H. rewrite Hj in H. cbn [bind] in H.
  rewrite (fetch_ok _ _ _ Hget) in H.
  assert (Ht : truthy html_if = true).
  { destruct html_if; [simpl in Hc; discriminate | reflexivity]. }
  rewrite Ht in H.
  destruct (extract_m3u8_from_text W html_if (Some iu)) as [c1|] eqn:H1;
    cbn [bind] in H; [|discriminate].
  apply (extract_based _ _ _ _ _ Hc H4) in H1. subst c1.
  destruct (note_cand W bt (first_attr "title" "name" iframe) (Some c) st)
    as [st0|] eqn:E0; cbn [bind] in H; [|discriminate].
  assert (Hin : In c (fst st0)).
  { apply note_cand_seen in E0; [exact E0|]. apply manifest_url_truthy. exact Hm. }
  destruct (foldM _ (find_all ["a"] "href" (html_parser W html_if)) _) as [st1|] eqn:E1;
    cbn [bind] in H; [|discriminate].
  apply foldM_grows in E1; [apply foldM_grows in H|].
  - eapply grows_seen; [exact H|]. eapply grows_seen; [exact E1|]. exact Hin.
  - intros s x s' Hb. peel Hb. apply note_cand_grows in Hb. exact Hb.
  - intros s x s' Hb. peel Hb. apply note_cand_grows in Hb. exact Hb.
Qed.

Lemma text_step_seen : forall base_title c st,
  truthy c = true -> In c (fst (text_step base_title (Some c) st)).
Proof.
  intros bt c st Hc. unfold text_step. rewrite Hc. cbn [andb].
  destruct (mem_str c (fst st)) eqn:Hm; cbn [negb fst].
  - apply mem_str_In. exact Hm.
  - left. reflexivity.
Qed.

Lemma final_step_seen : forall W sp event_url fs t u fs',
  manifest_url u -> nth 4 u 0%Z <> 383%Z ->
  final_step W sp event_url fs (t, u) = Ok fs' ->
  In u (fst fs').
Proof.
  intros W sp eu fs t u fs' Hm H4 H. unfold final_step in H. cbv zeta in H.
  rewrite (manifest_url_truthy _ Hm) in H. cbn [negb] in H.
  rewrite (manifest_url_strip _ Hm), (manifest_url_not_protocol_relative Hm) in H.
  destruct (urlparse W u) as [p|] eqn:Hp; cbn [bind] in H; [|discriminate].
  apply urlparse_scheme in Hp. rewrite Hp, (scheme_of_manifest_url Hm) in H.
  apply Z.eqb_neq in H4. rewrite H4 in H. cbn [negb bind] in H.
  destruct (mem_str u (fst fs)) eqn:Hs.
  - injection H as <-. apply mem_str_In. exact Hs.
  - peel H. peel H. injection H as <-. left. reflexivity.
Qed.

(** The final pass keeps every manifest URL of [results]. *)
Lemma final_pass_keeps : forall W sp event_url results fin t u,
  foldM (final_step W sp event_url) results ([], []) = Ok fin ->
  In (t, u) results -> manifest_url u -> nth 4 u 0%Z <> 383%Z ->
  In u (map snd (snd fin)).
Proof.
  intros W sp eu results fin t u H Hin Hm H4.
  pose proof (foldM_grows _ _ (final_step_grows W sp eu) _ _ _ H) as Hg.
  destruct (foldM_grows_at _ _ (final_step_grows W sp eu) _ _ _ _ Hin H)
    as (sa & sb & Hb & Hgb).
  apply final_step_seen in Hb; auto.
  apply (grows_seen _ _ _ Hgb) in Hb.
  apply (grows_recorded _ _ Hg seen_recorded_init) in Hb. destruct Hb as (t' & Ht').
  apply in_map_iff. exists (t', u). auto.
Qed.

(** The bodies of the two loops over the document of an iframe. *)
Lemma inner_step_grows : forall W bt iu (text_of title_of : tag -> str) st x st',
  (cand <- extract_m3u8_from_text W (text_of x) (Some iu) ;;
   note_cand W bt (title_of x) cand st) = Ok st' ->
  grows st st'.
Proof.
  intros W bt iu text_of title_of st x st' H. peel H.
  apply note_cand_grows in H. exact H.
Qed.

Lemma inner_step_seen : forall W bt iu (text_of title_of : tag -> str) st x st' c,
  extract_m3u8_from_text W (text_of x) None = Ok (Some c) ->
  nth 4 c 0%Z <> 383%Z ->
  (cand <- extract_m3u8_from_text W (text_of x) (Some iu) ;;
   note_cand W bt (title_of x) cand st) = Ok st' ->
  In c (fst st').
Proof.
  intros W bt iu text_of title_of st x st' c Hc H4 H.
  destruct (extract_m3u8_from_text W (text_of x) (Some iu)) as [c1|] eqn:H1;
    cbn [bind] in H; [|discriminate].
  apply (extract_based _ _ _ _ _ Hc H4) in H1. subst c1.
  apply note_cand_seen in H; [exact H|].
  apply manifest_url_truthy. apply (extract_manifest _ _ _ Hc).
Qed.

Lemma named_by_iframe_manifest : forall W html_if c,
  named_by_iframe W html_if c -> manifest_url c.
Proof.
  intros W html_if c [E | [(a & _ & E) | (t & _ & E)]]; eapply extract_manifest; eauto.
Qed.

(** The turn of an iframe whose document names [c] puts [c] into [seen]. *)
Lemma iframe_step_names : forall W event_url base_title st iframe st' iframe_url html_if c,
  urljoin W event_url (strip (attr_or_empty "src" iframe)) = Ok iframe_url ->
  http_get W iframe_url = Some html_if ->
  html_if <> [] ->
  named_by_iframe W html_if c ->
  nth 4 c 0%Z <> 383%Z ->
  iframe_step W event_url base_title st iframe = Ok st' ->
  In c (fst st').
Proof.
  intros W eu bt st iframe st' iu html_if c Hj Hget Hne Hnamed H4 H.
  unfold iframe_step in H. cbv zeta in H. rewrite Hj in H. cbn [bind] in H.
  rewrite (fetch_ok _ _ _ Hget) in H.
  assert (Ht : truthy html_if = true) by (destruct html_if; [congruence | reflexivity]).
  rewrite Ht in H.
  destruct (extract_m3u8_from_text W html_if (Some iu)) as [c1|] eqn:H1;
    cbn [bind] in H; [|discriminate].
  destruct (note_cand W bt (first_attr "title" "name" iframe) c1 st)
    as [st0|] eqn:E0; cbn [bind] in H; [|discriminate].
  destruct (foldM _ (find_all ["a"] "href" (html_parser W html_if)) _) as [st1|] eqn:E1;
    cbn [bind] in H; [|discriminate].
  pose proof (foldM_grows _ _
                (inner_step_grows W bt iu (attr_or_empty "href") tag_text) _ _ _ E1) as G1.
  pose proof (foldM_grows _ _
                (inner_step_grows W bt iu (attr_or_empty "src") (first_attr "title" "alt"))
                _ _ _ H) as G2.
  destruct Hnamed as [E | [(a & Ha & E) | (t & Hin & E)]].
  - apply (extract_based _ _ _ _ _ E H4) in H1. subst c1.
    apply note_cand_seen in E0;
      [|apply manifest_url_truthy; apply (extract_manifest _ _ _ E)].
    eapply grows_seen; [exact G2|]. eapply grows_seen; [exact G1|]. exact E0.
  - destruct (foldM_grows_at _ _
                (inner_step_grows W bt iu (attr_or_empty "href") tag_text)
                _ _ _ _ Ha E1) as (sa & sb & Hb & Hgb).
    apply (inner_step_seen _ _ _ _ _ _ _ _ _ E H4) in Hb.
    eapply grows_seen; [exact G2|]. eapply grows_seen; [exact Hgb|]. exact Hb.
  - destruct (foldM_grows_at _ _
                (inner_step_grows W bt iu (attr_or_empty "src") (first_attr "title" "alt"))
                _ _ _ _ Hin H) as (sa & sb & Hb & Hgb).
    apply (inner_step_seen _ _ _ _ _ _ _ _ _ E H4) in Hb.
    eapply grows_seen; [exact Hgb|]. exact Hb.
Qed.

(** A manifest URL that is in [seen] when the scan of the event page ends is
    among the URLs returned. *)
Lemma resolved_if_seen : forall W event_href anchor_text event_url text c found,
  truthy event_href = true ->
  (if startswith (lit "http") event_href then Ok event_href
   else urljoin W BASE_URL event_href) = Ok event_url ->
  extract_m3u8_from_text W event_href None = Ok None ->
  http_get W event_url = Some text ->
  manifest_url c -> nth 4 c 0%Z <> 383%Z ->
  (forall bt st1 st2 st3 cand,
     foldM (anchor_step W event_url bt)
           (find_all ["a"] "href" (html_parser W text)) ([], []) = Ok st1 ->
     foldM (media_step W event_url bt)
           (find_all ["source"; "video"] "src" (html_parser W text)) st1 = Ok st2 ->
     foldM (iframe_step W event_url bt)
           (find_all ["iframe"] "src" (html_parser W text)) st2 = Ok st3 ->
     extract_m3u8_from_text W text (Some event_url) = Ok cand ->
     In c (fst (text_step bt cand st3))) ->
  get_event_m3u8 W event_href anchor_text = Ok found ->
  In c (map snd found).
Proof.
  intros W href anchor eu text c found Hh Hu Hd Hget Hm H4 Hseen H.
  rewrite get_event_m3u8_unfold, Hh in H. cbn [negb] in H.
  rewrite Hu in H. cbn [bind] in H.
  rewrite extract_with_base_eq, Hd in H. cbn [bind otruthy] in H.
  rewrite (fetch_ok _ _ _ Hget) in H. cbv zeta in H.
  destruct (if otruthy anchor then _ else _) as [bt0|]; cbn [bind] in H; [|discriminate].
  destruct (if negb _ then _ else _) as [bt|]; cbn [bind] in H; [|discriminate].
  destruct (foldM (anchor_step W eu bt) _ _) as [st1|] eqn:H1; cbn [bind] in H; [|discriminate].
  destruct (foldM (media_step W eu bt) _ _) as [st2|] eqn:H2; cbn [bind] in H; [|discriminate].
  destruct (foldM (iframe_step W eu bt) _ _) as [st3|] eqn:H3; cbn [bind] in H; [|discriminate].
  destruct (extract_m3u8_from_text W text (Some eu)) as [cand|] eqn:Hc;
    cbn [bind] in H; [|discriminate].
  destruct (foldM (final_step W _ eu) _ _) as [fin|] eqn:Hf; cbn [bind] in H; [|discriminate].
  injection H as <-.
  pose proof (foldM_grows _ _ (anchor_step_grows W eu bt) _ _ _ H1) as G1.
  pose proof (foldM_grows _ _ (media_step_grows W eu bt) _ _ _ H2) as G2.
  pose proof (foldM_grows _ _ (iframe_step_grows W eu bt) _ _ _ H3) as G3.
  pose proof (text_step_grows bt cand st3) as G4.
  assert (Hrec : seen_recorded (text_step bt cand st3)).
  { eapply grows_recorded; [exact G4|]. eapply grows_recorded; [exact G3|].
    eapply grows_recorded; [exact G2|]. eapply grows_recorded; [exact G1|].
    exact seen_recorded_init. }
  destruct (Hrec c (Hseen bt st1 st2 st3 cand H1 H2 H3 eq_refl)) as (t & Ht).
  eapply final_pass_keeps; eauto.
Qed.

(** X7.  No manifest URL that [get_event_m3u8] comes across is lost.  When
    the href itself names no manifest and the event page is fetched, every
    URL that the page names (in the href of an anchor, in the [src] of a
    [source] or [video] element, in the document of one of its iframes, or
    as the first match in its text) is among the URLs returned, provided
    its [https] is not spelled with U+017F. *)
Theorem named_manifests_are_resolved :
  forall W event_href anchor_text event_url text c found,
  truthy event_href = true ->
  (if startswith (lit "http") event_href then Ok event_href
   else urljoin W BASE_URL event_href) = Ok event_url ->
  extract_m3u8_from_text W event_href None = Ok None ->
  http_get W event_url = Some text ->
  named_by_page W event_url text c ->
  nth 4 c 0%Z <> 383%Z ->
  get_event_m3u8 W event_href anchor_text = Ok found ->
  In c (map snd found).
Proof.
  intros W href anchor eu text c found Hh Hu Hd Hget Hnamed H4 H.
  assert (Hm : manifest_url c).
  { destruct Hnamed as [(a & _ & E) | [(t & _ & E) | [(i & iu & h & _ & _ & _ & E) | E]]];
      eapply extract_manifest; eauto. }
  apply (resolved_if_seen W href anchor eu text c found Hh Hu Hd Hget Hm H4); [|exact H].
  intros bt st1 st2 st3 cand H1 H2 H3 Hc.
  pose proof (foldM_grows _ _ (media_step_grows W eu bt) _ _ _ H2) as G2.
  pose proof (foldM_grows _ _ (iframe_step_grows W eu bt) _ _ _ H3) as G3.
  pose proof (text_step_grows bt cand st3) as G4.
  destruct Hnamed as [(a & Ha & E) | [(t & Ht & E) | [(i & iu & h & Hi & Hj & Hg & E) | E]]].
  - destruct (foldM_grows_at _ _ (anchor_step_grows W eu bt) _ _ _ _ Ha H1)
      as (sa & sb & Hb & Hgb).
    apply (anchor_step_seen _ _ _ _ _ _ _ E H4) in Hb.
    eapply grows_seen; [exact G4|]. eapply grows_seen; [exact G3|].
    eapply grows_seen; [exact G2|]. eapply grows_seen; eauto.
  - destruct (foldM_grows_at _ _ (media_step_grows W eu bt) _ _ _ _ Ht H2)
      as (sa & sb & Hb & Hgb).
    apply (media_step_seen _ _ _ _ _ _ _ E H4) in Hb.
    eapply grows_seen; [exact G4|]. eapply grows_seen; [exact G3|].
    eapply grows_seen; eauto.
  - destruct (foldM_grows_at _ _ (iframe_step_grows W eu bt) _ _ _ _ Hi H3)
      as (sa & sb & Hb & Hgb).
    apply (iframe_step_seen _ _ _ _ _ _ _ _ _ Hj Hg E H4) in Hb.
    eapply grows_seen; [exact G4|]. eapply grows_seen; eauto.
  - apply (extract_based _ _ _ _ _ E H4) in Hc. subst cand.
    apply text_step_seen. apply manifest_url_truthy. exact Hm.
Qed.

(** The iframe of the event page of [iframe_site] names a manifest in its
    script. *)
Lemma named_manifests_are_resolved_witness :
  In (lit "https://cdn.example.com/live/lakers.m3u8?token=abc")
     (map snd [(lit "Lakers vs Celtics",
                lit "https://cdn.example.com/live/lakers.m3u8?token=abc")]).
Proof.
  apply (named_manifests_are_resolved iframe_site
           (lit "https://roxiestreams.live/nba/lakers-celtics-7")
           (Some (lit "Lakers vs Celtics"))
           (lit "https://roxiestreams.live/nba/lakers-celtics-7")
           (tag_markup (iframe_tag (lit "/embed/1")))
           (lit "https://cdn.example.com/live/lakers.m3u8?token=abc"));
    try (vm_compute; reflexivity).
  - right. right. left.
    exists (iframe_tag (lit "/embed/1")), (lit "https://roxiestreams.live/embed/1"),
           (lit "var src = 'https://cdn.example.com/live/lakers.m3u8?token=abc';").
    repeat split; try (vm_compute; reflexivity). vm_compute. left. reflexivity.
  - vm_compute. discriminate.
Defined.

(** X8.  [get_event_m3u8] never returns the same URL twice. *)
Theorem event_urls_are_distinct : forall W event_href anchor_text found,
  get_event_m3u8 W event_href anchor_text = Ok found -> NoDup (map snd found).
Proof.
  intros W event_href anchor_text found H. rewrite get_event_m3u8_unfold in H.
  destruct (negb (truthy event_href)); [inversion H; constructor|].
  peel H. peel H.
  destruct (otruthy _).
  { peel H. peel H. inversion H. simpl. constructor; [simpl; tauto | constructor]. }
  destruct (fetch W _) as [[sp|] html_text].
  2:{ destruct (truthy html_text); [discriminate|]. inversion H. constructor. }
  cbv zeta in H. do 6 peel H.
  destruct (foldM (final_step W sp _) _ _) as [fin|] eqn:Hf; cbn [bind] in H; [|discriminate].
  injection H as <-.
  apply foldM_grows in Hf; [|apply final_step_grows].
  exact (proj1 (grows_distinct _ _ Hf distinct_urls_init)).
Qed.

Lemma event_urls_are_distinct_witness :
  get_event_m3u8 mirror_site (lit "/nba/lakers-celtics-7") None
    = Ok [(lit "Main", lit "https://cdn.example.com/live/a.m3u8");
          (lit "Backup", lit "https://cdn.example.com/live/b.m3u8")]
  /\ NoDup [lit "https://cdn.example.com/live/a.m3u8";
            lit "https://cdn.example.com/live/b.m3u8"].
Proof.
  assert (H : get_event_m3u8 mirror_site (lit "/nba/lakers-celtics-7") None
              = Ok [(lit "Main", lit "https://cdn.example.com/live/a.m3u8");
                    (lit "Backup", lit "https://cdn.example.com/live/b.m3u8")])
    by (vm_compute; reflexivity).
  split; [exact H | exact (event_urls_are_distinct _ _ _ _ H)].
Defined.

(** C5.  [get_event_m3u8] follows iframes one level deep, and no deeper.
    (1) One level: when the event page is fetched, every manifest URL named
    by the document of one of its iframes (in the text of the document, in
    the href of one of its anchors or in the [src] of one of its [source] or
    [video] elements) is among the URLs returned, provided its [https] is
    not spelled with U+017F.  (2) No deeper: the result depends on the
    server only through the event page and the documents of the iframes
    that occur in the event page itself; replace the server by any [g] that
    answers alike on these URLs, and the result is the same.  What the
    server holds anywhere else, such as the document of an iframe nested in
    an iframe's document, is never fetched and cannot contribute a
    manifest. *)
Theorem iframes_are_followed_one_level : forall W,
  (forall event_href anchor_text event_url text iframe iframe_url html_if c found,
     truthy event_href = true ->
     (if startswith (lit "http") event_href then Ok event_href
      else urljoin W BASE_URL event_href) = Ok event_url ->
     extract_m3u8_from_text W event_href None = Ok None ->
     http_get W event_url = Some text ->
     In iframe (find_all ["iframe"] "src" (html_parser W text)) ->
     urljoin W event_url (strip (attr_or_empty "src" iframe)) = Ok iframe_url ->
     http_get W iframe_url = Some html_if ->
     html_if <> [] ->
     named_by_iframe W html_if c ->
     nth 4 c 0%Z <> 383%Z ->
     get_event_m3u8 W event_href anchor_text = Ok found ->
     In c (map snd found))
  /\ (forall g event_href anchor_text,
        (forall event_url,
           (if startswith (lit "http") event_href then Ok event_href
            else urljoin W BASE_URL event_href) = Ok event_url ->
           g event_url = http_get W event_url /\
           forall text iframe iframe_url,
             http_get W event_url = Some text ->
             In iframe (find_all ["iframe"] "src" (html_parser W text)) ->
             urljoin W event_url (strip (attr_or_empty "src" iframe)) = Ok iframe_url ->
             g iframe_url = http_get W iframe_url) ->
        get_event_m3u8 (with_http g W) event_href anchor_text
        = get_event_m3u8 W event_href anchor_text).
Proof.
  intro W. split.
  - intros href anchor eu text iframe iu html_if c found
           Hh Hu Hd Hget Hin Hj Hgi Hne Hnamed H4 H.
    apply (resolved_if_seen W href anchor eu text c found Hh Hu Hd Hget
             (named_by_iframe_manifest _ _ _ Hnamed) H4); [|exact H].
    intros bt st1 st2 st3 cand H1 H2 H3 Hc.
    destruct (foldM_grows_at _ _ (iframe_step_grows W eu bt) _ _ _ _ Hin H3)
      as (sa & sb & Hb & Hgb).
    apply (iframe_step_names _ _ _ _ _ _ _ _ _ Hj Hgi Hne Hnamed H4) in Hb.
    eapply grows_seen; [apply text_step_grows|]. eapply grows_seen; eauto.
  - intros g href anchor Hagree. apply get_event_m3u8_with_http. exact Hagree.
Qed.

(** C5 (witness).  In [iframe_site] the manifest named by the document of
    the iframe of the event page is returned.  In [nested_site] the only
    manifest is named by the document of an iframe nested in an iframe: the
    event yields no stream, and yields the same with or without that
    document on the server. *)
Lemma iframes_are_followed_one_level_witness :
  In (lit "https://cdn.example.com/live/lakers.m3u8?token=abc")
     (map snd [(lit "Lakers vs Celtics",
                lit "https://cdn.example.com/live/lakers.m3u8?token=abc")])
  /\ get_event_m3u8 nested_site (lit "/nba/lakers-celtics-7") None = Ok []
  /\ get_event_m3u8 (with_http nested_site_cut nested_site)
                    (lit "/nba/lakers-celtics-7") None
     = get_event_m3u8 nested_site (lit "/nba/lakers-celtics-7") None.
Proof.
  split; [|split; [vm_compute; reflexivity|]].
  - apply (proj1 (iframes_are_followed_one_level iframe_site)
             (lit "https://roxiestreams.live/nba/lakers-celtics-7")
             (Some (lit "Lakers vs Celtics"))
             (lit "https://roxiestreams.live/nba/lakers-celtics-7")
             (tag_markup (iframe_tag (lit "/embed/1")))
             (iframe_tag (lit "/embed/1"))
             (lit "https://roxiestreams.live/embed/1")
             (lit "var src = 'https://cdn.example.com/live/lakers.m3u8?token=abc';")
             (lit "https://cdn.example.com/live/lakers.m3u8?token=abc"));
      try (vm_compute; reflexivity).
    + vm_compute. left. reflexivity.
    + discriminate.
    + left. vm_compute. reflexivity.
    + vm_compute. discriminate.
  - apply (proj2 (iframes_are_followed_one_level nested_site) nested_site_cut
             (lit "/nba/lakers-celtics-7") None).
    intros event_url Hu. vm_compute in Hu. inversion Hu; subst event_url; clear Hu.
    split; [reflexivity|].
    intros text iframe iframe_url Ht Hin Hj.
    vm_compute in Ht. inversion Ht; subst text; clear Ht.
    vm_compute in Hin. destruct Hin as [<- | []].
    vm_compute in Hj. inversion Hj; subst iframe_url. reflexivity.
Defined.

(* ================================================================== *)
(** ** [get_category_event_candidates] *)

Lemma crawl_unfold : forall W category_path,
  get_category_event_candidates W category_path
  = (cat_url <- (if negb (truthy category_path) then Ok BASE_URL
                 else urljoin W BASE_URL category_path) ;;
     match fetch W cat_url with
     | (None, html_text) => if truthy html_text then Raise AttributeError else Ok []
     | (Some sp, html_text) =>
         st <- foldM (crawl_step W cat_url) (find_all ["a"] "href" sp) ([], []) ;;
         Ok (snd (if negb (truthy_list (snd st))
                  then fold_left fallback_step (findall M3U8_RE html_text) st
                  else st))
     end).
Proof. reflexivity. Qed.

Lemma crawl_step_cases : forall W cat_url st a st',
  crawl_step W cat_url st a = Ok st' ->
  st' = st \/
  exists full,
    mem_str full (fst st) = false /\
    st' = (full :: fst st, snd st ++ [(strip (or_else (tag_text_sp a) []), full)]).
Proof.
  intros W cat_url st a st' Hb. unfold crawl_step in Hb. cbv zeta in Hb.
  destruct (negb _ || _ || _); [inversion Hb; auto|].
  peel Hb.
  destruct (_ || _ || _); [|inversion Hb; auto].
  destruct (mem_str _ (fst st)) eqn:Hm; cbn [negb] in Hb; inversion Hb; subst; eauto.
Qed.

Lemma fallback_step_cases : forall st m,
  fallback_step st m = st \/
  (truthy m = true /\ mem_str m (fst st) = false /\
   fallback_step st m = (m :: fst st, snd st ++ [([], m)])).
Proof.
  intros st m. unfold fallback_step. destruct (truthy m); cbn [andb]; auto.
  destruct (mem_str m (fst st)); cbn [negb]; auto.
Qed.

Lemma crawl_step_distinct : forall W cat_url st a st',
  distinct_urls st -> crawl_step W cat_url st a = Ok st' -> distinct_urls st'.
Proof.
  intros W cat_url st a st' Hinv Hb.
  destruct (crawl_step_cases _ _ _ _ _ Hb) as [-> | (full & Hm & ->)];
    [exact Hinv | apply distinct_urls_add; assumption].
Qed.

Lemma fallback_step_distinct : forall st m,
  distinct_urls st -> distinct_urls (fallback_step st m).
Proof.
  intros st m Hinv.
  destruct (fallback_step_cases st m) as [-> | (_ & Hm & ->)];
    [exact Hinv | apply distinct_urls_add; assumption].
Qed.

(** X9.  [get_category_event_candidates] never returns the same URL twice,
    whether the candidates come from the anchors or from the scan of the
    page text. *)
Theorem candidate_urls_are_distinct : forall W category_path candidates,
  get_category_event_candidates W category_path = Ok candidates ->
  NoDup (map snd candidates).
Proof.
  intros W cat cands H. rewrite crawl_unfold in H.
  peel H.
  destruct (fetch W _) as [[sp|] html_text].
  2:{ destruct (truthy html_text); [discriminate|]. inversion H. constructor. }
  destruct (foldM _ _ _) as [st|] eqn:Hst; cbn [bind] in H; [|discriminate].
  injection H as <-.
  apply (foldM_invariant _ _ distinct_urls _ (crawl_step_distinct W _)) in Hst;
    [|exact distinct_urls_init].
  destruct (negb (truthy_list _)); [|apply Hst].
  apply (fold_left_invariant _ _ distinct_urls _ fallback_step_distinct). exact Hst.
Qed.

Lemma candidate_urls_are_distinct_witness :
  get_category_event_candidates shared_site (lit "soccer")
    = Ok [(lit "Soccer Final", lit "https://cdn.example.com/live/a.m3u8");
          (lit "Derby", lit "https://cdn.example.com/live/b.m3u8")]
  /\ NoDup [lit "https://cdn.example.com/live/a.m3u8";
            lit "https://cdn.example.com/live/b.m3u8"].
Proof.
  assert (H : get_category_event_candidates shared_site (lit "soccer")
              = Ok [(lit "Soccer Final", lit "https://cdn.example.com/live/a.m3u8");
                    (lit "Derby", lit "https://cdn.example.com/live/b.m3u8")])
    by (vm_compute; reflexivity).
  split; [exact H | exact (candidate_urls_are_distinct _ _ _ H)].
Defined.

Lemma crawl_step_recorded : forall W cat_url st a st',
  seen_recorded st -> crawl_step W cat_url st a = Ok st' -> seen_recorded st'.
Proof.
  intros W cat_url st a st' Hinv Hb.
  destruct (crawl_step_cases _ _ _ _ _ Hb) as [-> | (full & Hm & ->)];
    [exact Hinv | apply seen_recorded_add; assumption].
Qed.

Lemma crawl_step_keeps : forall W cat_url tu st a st',
  In tu (snd st) -> crawl_step W cat_url st a = Ok st' -> In tu (snd st').
Proof.
  intros W cat_url tu st a st' Hin Hb.
  destruct (crawl_step_cases _ _ _ _ _ Hb) as [-> | (full & Hm & ->)];
    [exact Hin | simpl; apply in_app_iff; left; exact Hin].
Qed.

(** X10.  No qualifying link of a category page is lost: an anchor whose
    stripped href is not empty, is no [mailto:] or [javascript:] link and
    passes the test (it names [.m3u8], or holds a keyword, or ends in a dash
    and digits) has its resolved URL among the candidates returned. *)
Theorem qualifying_links_become_candidates :
  forall W category_path cat_url text candidates a href,
  (if negb (truthy category_path) then Ok BASE_URL
   else urljoin W BASE_URL category_path) = Ok cat_url ->
  http_get W cat_url = Some text ->
  get_category_event_candidates W category_path = Ok candidates ->
  In a (find_all ["a"] "href" (html_parser W text)) ->
  strip (attr_or_empty "href" a) = href ->
  truthy href = true ->
  startswith (lit "mailto:") href = false ->
  startswith (lit "javascript:") href = false ->
  qualifies W href = true ->
  exists t full,
    (if startswith (lit "http") href then Ok href else urljoin W cat_url href) = Ok full
    /\ In (t, full) candidates.
Proof.
  intros W cat cat_url text cands a href Hu Hget H Hin Hhref Ht Hmail Hjs Hq.
  rewrite crawl_unfold, Hu in H. cbn [bind] in H.
  unfold fetch in H. rewrite Hget in H.
  destruct (foldM _ _ _) as [st3|] eqn:Hst; cbn [bind] in H; [|discriminate].
  injection H as <-.
  apply in_split in Hin. destruct Hin as (l1 & l2 & Hl). rewrite Hl in Hst.
  rewrite foldM_app in Hst.
  destruct (foldM _ l1 _) as [st1|] eqn:H1; cbn [bind] in Hst; [|discriminate].
  simpl foldM in Hst.
  destruct (crawl_step W cat_url st1 a) as [st2|] eqn:H2; cbn [bind] in Hst; [|discriminate].
  apply (foldM_invariant _ _ seen_recorded _ (crawl_step_recorded W _)) in H1;
    [|exact seen_recorded_init].
  assert (Hfull : exists t full,
            (if startswith (lit "http") href then Ok href else urljoin W cat_url href)
              = Ok full /\ In (t, full) (snd st2)).
  { unfold crawl_step in H2. cbv zeta in H2. rewrite Hhref, Ht, Hmail, Hjs in H2.
    cbn [negb orb] in H2.
    destruct (if startswith (lit "http") href then Ok href else urljoin W cat_url href)
      as [full|] eqn:Hf; cbn [bind] in H2; [|discriminate].
    unfold qualifies in Hq. rewrite Hq in H2.
    destruct (mem_str full (fst st1)) eqn:Hm; cbn [negb] in H2; inversion H2; subst.
    - apply mem_str_In in Hm. destruct (H1 _ Hm) as (t & Hin). exists t, full. auto.
    - eexists _, full. split; [reflexivity|]. simpl. apply in_app_iff. right. left.
      reflexivity. }
  destruct Hfull as (t & full & Hf & Hin2). exists t, full. split; [exact Hf|].
  apply (foldM_invariant _ _ (fun st => In (t, full) (snd st)) _
           (crawl_step_keeps W cat_url (t, full))) in Hst; [|exact Hin2].
  destruct st3 as [seen [|r results]]; [contradiction|]. exact Hst.
Qed.

Lemma qualifying_links_become_candidates_witness :
  exists t full,
    (if startswith (lit "http") (lit "/nba/lakers-celtics-7")
     then Ok (lit "/nba/lakers-celtics-7")
     else urljoin iframe_site BASE_URL (lit "/nba/lakers-celtics-7")) = Ok full
    /\ In (t, full) [(lit "Lakers vs Celtics",
                      lit "https://roxiestreams.live/nba/lakers-celtics-7")].
Proof.
  apply (qualifying_links_become_candidates iframe_site [] BASE_URL
           (tag_markup (anchor (lit "/nba/lakers-celtics-7") (lit "Lakers vs Celtics")))
           [(lit "Lakers vs Celtics", lit "https://roxiestreams.live/nba/lakers-celtics-7")]
           (anchor (lit "/nba/lakers-celtics-7") (lit "Lakers vs Celtics"))
           (lit "/nba/lakers-celtics-7"));
    try (vm_compute; reflexivity).
  vm_compute. left. reflexivity.
Defined.

(* ================================================================== *)
(** ** The scan of the page text *)

Lemma scan_hits_match : forall r f s m,
  In (Hit m) (scan f r s) -> exists a, Matches r m a.
Proof.
  intros r f; induction f as [|f IH]; intros s m H.
  - simpl in H. destruct H as [H | []]. discriminate.
  - rewrite scan_S in H.
    destruct (search r s) as [[[b m0] a]|] eqn:Hs.
    + destruct H as [H | [H | H]]; [discriminate | |].
      * inversion H; subst. apply search_sound in Hs. exists a. tauto.
      * destruct m0 as [|c m0].
        -- destruct a as [|c a]; [destruct H|].
           destruct H as [H | H]; [discriminate|]. eapply IH; eauto.
        -- eapply IH; eauto.
    + destruct H as [H | []]. discriminate.
Qed.

Lemma findall_matches : forall r s m, In m (findall r s) -> exists a, Matches r m a.
Proof.
  intros r s m H. unfold findall in H. apply in_flat_map in H.
  destruct H as ([g | m'] & Hp & Hm); [destruct Hm|].
  destruct Hm as [<- | []]. eapply scan_hits_match; eauto.
Qed.

Lemma findall_M3U8_RE : forall text u, In u (findall M3U8_RE text) -> manifest_url u.
Proof.
  intros text u H. apply findall_matches in H. destruct H as [a H].
  eapply M3U8_RE_shape; eauto.
Qed.

Lemma str_eq_dec : forall a b : str, {a = b} + {a <> b}.
Proof. apply list_eq_dec. apply Z.eq_dec. Qed.

Lemma fallback_fold_spec : forall l (st : scan_state),
  forall t u,
    In (t, u) (snd (fold_left fallback_step l st)) <->
    In (t, u) (snd st)
    \/ (t = [] /\ In u l /\ truthy u = true /\ mem_str u (fst st) = false).
Proof.
  induction l as [|m l IH]; intros st t u; simpl fold_left.
  - simpl. tauto.
  - rewrite IH. destruct (fallback_step_cases st m) as [E | (Hm & Hs & E)]; rewrite E.
    + split; [simpl; tauto|].
      intros [H | (Ht & [<- | Hu] & Htr & Hseen)]; auto.
      exfalso. unfold fallback_step in E. rewrite Htr, Hseen in E. simpl in E.
      apply (f_equal (fun p => length (fst p))) in E. simpl in E. lia.
    + cbn [fst snd]. rewrite in_app_iff. split.
      * intros [[H | [H | []]] | (Ht & Hu & Htr & Hseen)]; auto.
        -- inversion H; subst. right. simpl. auto.
        -- right. repeat split; simpl; auto.
           simpl in Hseen. apply orb_false_iff in Hseen. tauto.
      * intros [H | (Ht & Hu & Htr & Hseen)]; auto.
        destruct (str_eq_dec u m) as [-> | Hne].
        -- subst t. left. right. left. reflexivity.
        -- destruct Hu as [-> | Hu]; [congruence|].
           right. repeat split; auto. simpl. apply orb_false_iff. split; auto.
           destruct (str_eqb u m) eqn:Eq; auto. apply str_eqb_eq in Eq. congruence.
Qed.

Lemma passed_over_step : forall W cat_url st a,
  passed_over W cat_url a -> crawl_step W cat_url st a = Ok st.
Proof.
  intros W cat_url st a H. unfold passed_over in H. unfold crawl_step. cbv zeta in *.
  destruct H as [H | [H | [H | ((full & Hf) & Hq)]]].
  - rewrite H. reflexivity.
  - rewrite H. rewrite orb_true_r. reflexivity.
  - rewrite H. rewrite orb_true_r. reflexivity.
  - destruct (negb _ || _ || _); [reflexivity|].
    rewrite Hf. cbn [bind]. unfold qualifies in Hq. rewrite Hq. reflexivity.
Qed.

Lemma passed_over_loop : forall W cat_url l st,
  (forall a, In a l -> passed_over W cat_url a) ->
  foldM (crawl_step W cat_url) l st = Ok st.
Proof.
  intros W cat_url l; induction l as [|a l IH]; intros st H; simpl; [reflexivity|].
  rewrite passed_over_step by (apply H; left; reflexivity). cbn [bind].
  apply IH. intros a' Ha'. apply H. right. exact Ha'.
Qed.

(** X11.  When the loop passes over every anchor of a category page, the
    page is searched as text, and every match counts: the candidates are
    the manifest URLs that [findall] takes from the text of the page, each
    with an empty anchor text. *)
Theorem page_without_links_is_scanned : forall W category_path cat_url text,
  (if negb (truthy category_path) then Ok BASE_URL
   else urljoin W BASE_URL category_path) = Ok cat_url ->
  http_get W cat_url = Some text ->
  (forall a, In a (find_all ["a"] "href" (html_parser W text)) ->
             passed_over W cat_url a) ->
  exists candidates,
    get_category_event_candidates W category_path = Ok candidates
    /\ (forall t u, In (t, u) candidates <-> t = [] /\ In u (findall M3U8_RE text))
    /\ (forall t u, In (t, u) candidates -> manifest_url u).
Proof.
  intros W cat cat_url text Hu Hget Hno.
  rewrite crawl_unfold, Hu. cbn [bind]. unfold fetch. rewrite Hget.
  rewrite (passed_over_loop _ _ _ _ Hno).
  cbn [foldM bind snd truthy_list negb]. eexists. split; [reflexivity|].
  assert (Hspec : forall t u,
            In (t, u) (snd (fold_left fallback_step (findall M3U8_RE text) ([], [])))
            <-> t = [] /\ In u (findall M3U8_RE text)).
  { intros t u. rewrite fallback_fold_spec. simpl. split.
    - intros [[] | (Ht & Hin & _)]. auto.
    - intros [Ht Hin]. right. repeat split; auto.
      apply manifest_url_truthy. eapply findall_M3U8_RE; eauto. }
  split; [exact Hspec|].
  intros t u H. apply Hspec in H. eapply findall_M3U8_RE. exact (proj2 H).
Qed.

Lemma page_without_links_is_scanned_witness :
  exists candidates,
    get_category_event_candidates script_site [] = Ok candidates
    /\ (forall t u, In (t, u) candidates <->
          t = [] /\ In u (findall M3U8_RE (fst script_page)))
    /\ (forall t u, In (t, u) candidates -> manifest_url u).
Proof.
  apply (page_without_links_is_scanned script_site [] BASE_URL (fst script_page));
    [reflexivity | vm_compute; reflexivity |].
  intros a Ha. vm_compute in Ha. destruct Ha as [<- | [<- | []]].
  - right. left. vm_compute. reflexivity.
  - right. right. right. split; [|vm_compute; reflexivity].
    eexists. vm_compute. reflexivity.
Defined.

(** In [script_site] the scan finds both manifests, the repeated one
    once. *)
Lemma script_site_candidates :
  get_category_event_candidates script_site []
  = Ok [([], lit "https://cdn.example.com/a.m3u8");
        ([], lit "https://cdn.example.com/b.m3u8?x=1")].
Proof. vm_compute. reflexivity. Qed.

(* ================================================================== *)
(** ** Where the candidates come from *)

Lemma foldM_invariant_in : forall (A B : Type) (Inv : A -> Prop)
    (body : A -> B -> result A) (l : list B),
  (forall a x a', In x l -> Inv a -> body a x = Ok a' -> Inv a') ->
  forall a a', Inv a -> foldM body l a = Ok a' -> Inv a'.
Proof.
  intros A B Inv body l; induction l as [|x l IH]; intros Hbody a a' Ha H; simpl in H.
  - inversion H; subst. exact Ha.
  - destruct (body a x) as [a1|] eqn:Hb; cbn [bind] in H; [|discriminate].
    apply (IH (fun a0 y a0' Hy => Hbody a0 y a0' (or_intror Hy)) a1 a'); [|exact H].
    apply (Hbody a x a1 (or_introl eq_refl) Ha Hb).
Qed.

Lemma crawl_step_adds : forall W cat_url st a st',
  crawl_step W cat_url st a = Ok st' ->
  st' = st \/ exists c, candidate_of W cat_url a c /\ st' = (snd c :: fst st, snd st ++ [c]).
Proof.
  intros W cat_url st a st' Hb. unfold crawl_step in Hb. cbv zeta in Hb.
  destruct (negb (truthy (strip (attr_or_empty "href" a)))) eqn:Ht; cbn [orb] in Hb;
    [injection Hb as <-; auto|].
  destruct (startswith (lit "mailto:") (strip (attr_or_empty "href" a))) eqn:Hm;
    cbn [orb] in Hb; [injection Hb as <-; auto|].
  destruct (startswith (lit "javascript:") (strip (attr_or_empty "href" a))) eqn:Hj;
    [injection Hb as <-; auto|].
  destruct (if startswith (lit "http") (strip (attr_or_empty "href" a))
            then Ok (strip (attr_or_empty "href" a))
            else urljoin W cat_url (strip (attr_or_empty "href" a))) as [full|] eqn:Hf;
    cbn [bind] in Hb; [|discriminate].
  destruct (_ || _ || _) eqn:Hq; [|injection Hb as <-; auto].
  destruct (mem_str full (fst st)); cbn [negb] in Hb; injection Hb as <-; auto.
  right. exists (strip (or_else (tag_text_sp a) []), full). split; [|reflexivity].
  unfold candidate_of. cbv zeta. apply negb_false_iff in Ht.
  repeat split; auto.
Qed.

(** X12.  Where the candidates come from.  Either every candidate that
    [get_category_event_candidates] returns is the stripped text and the
    resolved href of an anchor of the page that passes the test (so no
    [mailto:] or [javascript:] link and no empty href is among them), or no
    anchor gave a candidate and every candidate is a match of the manifest
    pattern in the text of the page, with an empty anchor text. *)
Theorem candidates_come_from_links_or_text :
  forall W category_path cat_url text candidates,
  (if negb (truthy category_path) then Ok BASE_URL
   else urljoin W BASE_URL category_path) = Ok cat_url ->
  http_get W cat_url = Some text ->
  get_category_event_candidates W category_path = Ok candidates ->
  (forall c, In c candidates ->
     exists a, In a (find_all ["a"] "href" (html_parser W text))
               /\ candidate_of W cat_url a c)
  \/ (forall t u, In (t, u) candidates -> t = [] /\ In u (findall M3U8_RE text)).
Proof.
  intros W cat cat_url text cands Hu Hget H.
  rewrite crawl_unfold, Hu in H. cbn [bind] in H.
  rewrite (fetch_ok _ _ _ Hget) in H.
  destruct (foldM _ _ _) as [st|] eqn:Hst; cbn [bind] in H; [|discriminate].
  injection H as <-.
  assert (Hinv : forall c, In c (snd st) ->
            exists a, In a (find_all ["a"] "href" (html_parser W text))
                      /\ candidate_of W cat_url a c).
  { apply (foldM_invariant_in _ _
             (fun st => forall c, In c (snd st) ->
                exists a, In a (find_all ["a"] "href" (html_parser W text))
                          /\ candidate_of W cat_url a c)
             (crawl_step W cat_url) (find_all ["a"] "href" (html_parser W text)))
      with (a := (@nil str, @nil (str * str))); [| intros c [] | exact Hst].
    intros st0 a st1 Ha Hinv Hb c Hc.
    destruct (crawl_step_adds _ _ _ _ _ Hb) as [-> | (c' & Hc' & ->)]; [auto|].
    cbn [snd] in Hc. apply in_app_iff in Hc. destruct Hc as [Hc | [<- | []]]; [auto|].
    exists a. auto. }
  destruct st as [seen [|r results]]; cbn [snd truthy_list negb].
  - right. intros t u Hin. apply fallback_fold_spec in Hin.
    destruct Hin as [[] | (Ht & Hin & _)]. auto.
  - left. exact Hinv.
Qed.

Lemma candidates_come_from_links_or_text_witness :
  (forall c,
     In c [(lit "Soccer Final", lit "https://cdn.example.com/live/a.m3u8");
           (lit "Derby", lit "https://cdn.example.com/live/b.m3u8")] ->
     exists a,
       In a (find_all ["a"] "href"
               (html_parser shared_site
                  (flat_map tag_markup
                     [anchor (lit "https://cdn.example.com/live/a.m3u8") (lit "Soccer Final");
                      anchor (lit "https://cdn.example.com/live/b.m3u8") (lit "Derby")])))
       /\ candidate_of shared_site (lit "https://roxiestreams.live/soccer") a c)
  \/ (forall t u,
        In (t, u) [(lit "Soccer Final", lit "https://cdn.example.com/live/a.m3u8");
                   (lit "Derby", lit "https://cdn.example.com/live/b.m3u8")] ->
        t = [] /\
        In u (findall M3U8_RE
                (flat_map tag_markup
                   [anchor (lit "https://cdn.example.com/live/a.m3u8") (lit "Soccer Final");
                    anchor (lit "https://cdn.example.com/live/b.m3u8") (lit "Derby")]))).
Proof.
  apply (candidates_come_from_links_or_text shared_site (lit "soccer"));
    vm_compute; reflexivity.
Defined.

(* ================================================================== *)
(** ** [get_tv_data_for_category] *)

Lemma tv_data_of_category : forall W,
  (forall s, In s (lit "misc" :: CATEGORIES) -> str_lower W s = s) ->
  forall c k, In (c, k) category_rows ->
    get_tv_data_for_category W (or_else (lit c) (lit "misc")) = tv_row k.
Proof.
  intros W Hlow c k Hin. unfold category_rows in Hin.
  repeat (destruct Hin as [Hin | Hin];
          [injection Hin as <- <-; unfold get_tv_data_for_category;
           rewrite Hlow by (vm_compute; tauto); vm_compute; reflexivity|]).
  destruct Hin.
Qed.

(* ================================================================== *)
(** ** The records of the run *)

Lemma event_offer_shape : forall W cat anchor_text href ev o,
  event_offer W cat anchor_text href ev = Ok o ->
  Forall (fun r => (exists title, r = stream_of cat title (manifestUrl r))
                   /\ manifestUrl r <> []) o.
Proof.
  intros W cat anchor_text href [ev_title ev_url] o H. unfold event_offer in H.
  destruct (negb (truthy ev_url) || negb (contains (lit ".m3u8") ev_url)).
  { inversion H. constructor. }
  peel H.
  destruct (negb (truthy (oor_else _ ev_url))) eqn:Ht; [inversion H; constructor|].
  peel H. inversion H; subst. unfold titled.
  destruct (clean_event_title W _); constructor; [|constructor]. simpl. split; [eauto|].
  intro E. rewrite E in Ht. discriminate.
Qed.

Lemma candidate_offers_shape : forall W cat c o,
  candidate_offers W cat c = Ok o ->
  Forall (fun r => (exists title, r = stream_of cat title (manifestUrl r))
                   /\ manifestUrl r <> []) o.
Proof.
  intros W cat [anchor_text href] o H. unfold candidate_offers in H.
  destruct (contains (lit ".m3u8") href).
  - peel H.
    destruct (truthy (oor_else _ href)) eqn:Ht; [|inversion H; constructor].
    destruct (clean_event_title W anchor_text); [|inversion H; constructor].
    peel H. inversion H; subst. constructor; [|constructor]. simpl. split; [eauto|].
    intro E. rewrite E in Ht. discriminate.
  - peel H.
    eapply foldM_collect_Forall; [|exact H|constructor].
    intros ev o'. apply event_offer_shape.
Qed.

Lemma encounters_shape : forall W all cats acc enc,
  incl cats all ->
  foldM (fun acc cat =>
           match get_category_event_candidates W cat with
           | Raise _ => Ok acc
           | Ok candidates =>
               foldM (fun acc c => o <- candidate_offers W cat c ;; Ok (acc ++ o))
                     candidates acc
           end) cats acc = Ok enc ->
  Forall (fun r => exists cat, In cat all /\
                     (exists title, r = stream_of cat title (manifestUrl r))
                     /\ manifestUrl r <> []) acc ->
  Forall (fun r => exists cat, In cat all /\
                     (exists title, r = stream_of cat title (manifestUrl r))
                     /\ manifestUrl r <> []) enc.
Proof.
  intros W all cats; induction cats as [|cat cats IH]; intros acc enc Hincl H Hacc;
    simpl in H.
  - inversion H; subst. exact Hacc.
  - assert (Hcat : In cat all) by (apply Hincl; left; reflexivity).
    assert (Hrest : incl cats all) by (intros x Hx; apply Hincl; right; exact Hx).
    destruct (get_category_event_candidates W cat) as [cands|]; cbn [bind] in H.
    + match type of H with bind ?t _ = _ => destruct t as [acc'|] eqn:Hc end;
        cbn [bind] in H; [|discriminate].
      eapply IH; eauto.
      eapply foldM_collect_Forall; [|exact Hc|exact Hacc].
      intros c o Ho. apply candidate_offers_shape in Ho.
      eapply Forall_impl; [|exact Ho]. intros r Hr. exists cat. split; [exact Hcat | exact Hr].
    + eapply IH; eauto.
Qed.

Lemma collected_shape : forall W streams,
  collect_streams W = Ok streams ->
  Forall (fun r => exists cat, In cat CATEGORIES /\
                     (exists title, r = stream_of cat title (manifestUrl r))
                     /\ manifestUrl r <> []) streams.
Proof.
  intros W streams H.
  destruct (@collect_streams_keep_first W streams H) as (enc & Henc & ->).
  apply (encounters_shape W CATEGORIES) in Henc; [|apply incl_refl|constructor].
  rewrite Forall_forall in *. intros r Hr. apply Henc.
  apply keep_first_spec in Hr. apply find_some in Hr. tauto.
Qed.

Lemma fold_add_new_appends : forall o st,
  exists part, fst (fold_left add_new o st) = fst st ++ part /\ incl part o.
Proof.
  induction o as [|r o IH]; intro st; simpl.
  - exists []. rewrite app_nil_r. split; [reflexivity | apply incl_refl].
  - destruct (IH (add_new st r)) as (part & E & Hi). rewrite E. unfold add_new.
    destruct (mem_str (manifestUrl r) (snd st)).
    + exists part. split; [reflexivity | apply incl_tl; exact Hi].
    + exists (r :: part). cbn [fst]. rewrite <- app_assoc. split; [reflexivity|].
      intros x [<- | Hx]; [left; reflexivity | right; apply Hi; exact Hx].
Qed.

Lemma shape_found_under : forall cat r,
  (exists title, r = stream_of cat title (manifestUrl r)) /\ manifestUrl r <> [] ->
  found_under cat r.
Proof.
  intros cat r [(title & E) Hne]. unfold found_under.
  split; [rewrite E; reflexivity|]. split; [|exact Hne].
  exists title. rewrite E. reflexivity.
Qed.

Lemma process_category_appends : forall W st cat st',
  process_category W st cat = Ok st' ->
  exists part, fst st' = fst st ++ part /\ Forall (found_under cat) part.
Proof.
  intros W st cat st' H. unfold process_category in H.
  destruct (get_category_event_candidates W cat) as [cands|].
  - change st with (fold_left add_new [] st) in H at 1.
    apply (foldM_offers (process_candidate W cat) (candidate_offers W cat)
             (process_candidate_offers W cat)) in H.
    destruct H as (o & Ho & ->).
    assert (Hshape : Forall (found_under cat) o).
    { eapply foldM_collect_Forall; [|exact Ho|constructor].
      intros c o' Hc. apply candidate_offers_shape in Hc.
      eapply Forall_impl; [|exact Hc]. intro r. apply shape_found_under. }
    destruct (fold_add_new_appends o st) as (part & E & Hi).
    exists part. split; [exact E|].
    rewrite Forall_forall in *. intros r Hr. apply Hshape. apply Hi. exact Hr.
  - injection H as <-. exists []. rewrite app_nil_r. split; [reflexivity | constructor].
Qed.

Lemma run_appends : forall W cats st st',
  foldM (process_category W) cats st = Ok st' ->
  exists parts,
    fst st' = fst st ++ concat parts
    /\ Forall2 (fun cat part => Forall (found_under cat) part) cats parts.
Proof.
  intros W cats; induction cats as [|cat cats IH]; intros st st' H; simpl in H.
  - injection H as <-. exists []. simpl. rewrite app_nil_r. split; [reflexivity|constructor].
  - destruct (process_category W st cat) as [st1|] eqn:H1; cbn [bind] in H; [|discriminate].
    apply process_category_appends in H1. destruct H1 as (part & E1 & Hp).
    destruct (IH _ _ H) as (parts & E & Hps).
    exists (part :: parts). simpl. rewrite E, E1, <- app_assoc.
    split; [reflexivity | constructor; assumption].
Qed.

(** X13.  The records of [all_streams] come grouped by category, in the order
    of [CATEGORIES]: the list is the concatenation of one group per
    category, and each record of the group of [cat] has [cat] (or [misc] for
    the root page) as its [category], the capitalised category name (or
    [Roxiestreams]), a dash and a title as its [displayName], and a
    non-empty [manifestUrl]. *)
Theorem records_are_grouped_by_category : forall W streams,
  collect_streams W = Ok streams ->
  exists groups,
    streams = concat groups
    /\ Forall2 (fun cat group =>
                  forall r, In r group ->
                    category r = or_else cat (lit "misc")
                    /\ (exists title,
                          displayName r
                          = str_title (or_else cat (lit "Roxiestreams"))
                            ++ lit " - " ++ title)
                    /\ manifestUrl r <> [])
               CATEGORIES groups.
Proof.
  intros W streams H. unfold collect_streams in H.
  destruct (foldM (process_category W) CATEGORIES ([], [])) as [st|] eqn:Hf;
    cbn [bind] in H; [|discriminate].
  injection H as <-. apply run_appends in Hf. destruct Hf as (groups & E & Hg).
  exists groups. split; [exact E|].
  eapply Forall2_impl; [|exact Hg]. intros cat group Hall r Hr.
  rewrite Forall_forall in Hall. exact (Hall r Hr).
Qed.

Lemma records_are_grouped_by_category_witness :
  exists groups,
    [stream_of [] (lit "Cup Final") (lit "https://cdn.example.com/live/a.m3u8");
     stream_of (lit "soccer") (lit "Derby") (lit "https://cdn.example.com/live/b.m3u8")]
    = concat groups
    /\ Forall2 (fun cat group =>
                  forall r, In r group ->
                    category r = or_else cat (lit "misc")
                    /\ (exists title,
                          displayName r
                          = str_title (or_else cat (lit "Roxiestreams"))
                            ++ lit " - " ++ title)
                    /\ manifestUrl r <> [])
               CATEGORIES groups.
Proof.
  apply (records_are_grouped_by_category shared_site). vm_compute. reflexivity.
Defined.

(** X14.  Which metadata a record gets.  Where [str.lower] leaves the
    category names as they are (they are lower-case ASCII), every record of
    [all_streams] belongs to a category of [category_rows], and the writer
    labels it with the row that [category_rows] gives: records of
    [wwe-streams] and of [motogp] get the row of [misc], since the
    normalised keys [wwe] and [motogp] are not in [TV_INFO] and contain none
    of its keys; the rows keyed [wwe-streams] and [f1-streams] are never
    selected by their key. *)
Theorem records_get_the_row_of_their_category : forall W streams,
  (forall s, In s (lit "misc" :: CATEGORIES) -> str_lower W s = s) ->
  collect_streams W = Ok streams ->
  forall r, In r streams ->
    exists c k,
      In (c, k) category_rows
      /\ category r = or_else (lit c) (lit "misc")
      /\ get_tv_data_for_category W (category r) = tv_row k.
Proof.
  intros W streams Hlow H r Hr. apply collected_shape in H.
  rewrite Forall_forall in H. destruct (H r Hr) as (cat & Hcat & (title & E) & _).
  assert (Hc : exists c k, In (c, k) category_rows /\ cat = lit c).
  { unfold CATEGORIES in Hcat. apply in_map_iff in Hcat.
    destruct Hcat as (c & <- & Hc). exists c.
    simpl in Hc.
    repeat (destruct Hc as [<- | Hc];
            [eexists; split; [|reflexivity]; unfold category_rows; simpl; tauto|]).
    destruct Hc. }
  destruct Hc as (c & k & Hck & ->). exists c, k.
  rewrite E. cbn [category stream_of]. split; [exact Hck|]. split; [reflexivity|].
  apply tv_data_of_category; assumption.
Qed.

Lemma records_get_the_row_of_their_category_witness :
  exists c k,
    In (c, k) category_rows
    /\ lit "soccer" = or_else (lit c) (lit "misc")
    /\ get_tv_data_for_category shared_site (lit "soccer") = tv_row k.
Proof.
  apply (records_get_the_row_of_their_category shared_site
           [stream_of [] (lit "Cup Final") (lit "https://cdn.example.com/live/a.m3u8");
            stream_of (lit "soccer") (lit "Derby")
                      (lit "https://cdn.example.com/live/b.m3u8")]
           ltac:(intros s Hs; vm_compute in Hs;
                 repeat (destruct Hs as [<- | Hs]; [vm_compute; reflexivity|]);
                 destruct Hs)
           ltac:(vm_compute; reflexivity)
           (stream_of (lit "soccer") (lit "Derby")
                      (lit "https://cdn.example.com/live/b.m3u8"))).
  right. left. reflexivity.
Defined.

(* ================================================================== *)
(** ** The lines of the playlists *)

Lemma split_on_acc_line : forall a w rest,
  forallb any_char a = true ->
  split_on_acc 10%Z w (a ++ 10%Z :: rest) = (rev w ++ a) :: split_on_acc 10%Z [] rest.
Proof.
  induction a as [|c a IH]; intros w rest Ha; simpl.
  - rewrite app_nil_r. reflexivity.
  - simpl in Ha. apply andb_prop in Ha. destruct Ha as [Hc Ha].
    unfold any_char in Hc. apply negb_true_iff in Hc. unfold char_eqb. rewrite Hc.
    rewrite (IH (c :: w) rest Ha). simpl. rewrite <- app_assoc. reflexivity.
Qed.

Lemma lines_cons : forall a rest,
  forallb any_char a = true -> lines (a ++ 10%Z :: rest) = a :: lines rest.
Proof. intros a rest Ha. unfold lines, split_on. apply (split_on_acc_line a [] rest Ha). Qed.

Lemma lines_blank : forall rest, lines (10%Z :: rest) = [] :: lines rest.
Proof. intro rest. apply (lines_cons [] rest eq_refl). Qed.

Lemma forallb_any_char_app : forall a b,
  forallb any_char a = true -> forallb any_char b = true ->
  forallb any_char (a ++ b) = true.
Proof. intros a b Ha Hb. rewrite forallb_app, Ha, Hb. reflexivity. Qed.

Lemma tv_data_in_table : forall W cat_path,
  In (get_tv_data_for_category W cat_path) (map snd TV_INFO).
Proof.
  intros W cat. unfold get_tv_data_for_category. cbv zeta.
  destruct (find (fun kv => str_eqb _ _) TV_INFO) as [kv|] eqn:H1.
  - apply find_some in H1. apply in_map. tauto.
  - destruct (find (fun kv => contains _ _) TV_INFO) as [kv|] eqn:H2.
    + apply find_some in H2. apply in_map. tauto.
    + unfold TV_INFO. cbn [map snd]. do 13 right. left. reflexivity.
Qed.

Lemma extinf_line_text : forall W s, extinf_line W s = extinf_text W s ++ nl.
Proof.
  intros W s. unfold extinf_line, extinf_text.
  destruct (get_tv_data_for_category W (category s)) as [[tvg_id logo] group_name].
  rewrite <- !app_assoc. reflexivity.
Qed.

Lemma extinf_text_one_line : forall W s,
  forallb any_char (displayName s) = true -> forallb any_char (extinf_text W s) = true.
Proof.
  intros W s Hd. unfold extinf_text.
  pose proof (tv_data_in_table W (category s)) as Hin.
  assert (Hrows : forall row, In row (map snd TV_INFO) ->
            forallb any_char (fst (fst row)) = true
            /\ forallb any_char (snd (fst row)) = true
            /\ forallb any_char (snd row) = true).
  { intros row Hrow. unfold TV_INFO in Hrow. cbn [map snd] in Hrow.
    repeat (destruct Hrow as [<- | Hrow]; [repeat split; vm_compute; reflexivity|]).
    destruct Hrow. }
  destruct (get_tv_data_for_category W (category s)) as [[tvg_id logo] group_name].
  destruct (Hrows _ Hin) as (H1 & H2 & H3). simpl in H1, H2, H3.
  repeat (apply forallb_any_char_app; [try reflexivity; assumption|]). exact Hd.
Qed.

Lemma entries_lines : forall (line url : stream -> str) streams,
  (forall s, In s streams ->
     forallb any_char (line s) = true /\ forallb any_char (url s) = true) ->
  lines (flat_map (fun s => (line s ++ nl) ++ url s ++ nl ++ nl) streams)
  = flat_map (fun s => [line s; url s; []]) streams ++ [[]].
Proof.
  intros line url streams. unfold nl.
  induction streams as [|s streams IH]; intro H.
  - reflexivity.
  - destruct (H s (or_introl eq_refl)) as [Hl Hu].
    assert (E : forall rest,
              ((line s ++ [10%Z]) ++ url s ++ [10%Z] ++ [10%Z]) ++ rest
              = line s ++ 10%Z :: url s ++ 10%Z :: 10%Z :: rest)
      by (intro rest; rewrite <- !app_assoc; reflexivity).
    cbn [flat_map]. rewrite E.
    rewrite (lines_cons _ _ Hl), (lines_cons _ _ Hu).
    rewrite lines_blank. rewrite IH; [reflexivity|].
    intros s' Hs'. apply H. right. exact Hs'.
Qed.

Lemma header_then : forall W body,
  forallb any_char (lit (utcnow W)) = true ->
  lines (playlist_header W ++ body) = header_lines W ++ [] :: lines body.
Proof.
  intros W body Hnow. unfold playlist_header, header_lines, nl.
  rewrite <- !app_assoc. rewrite !app_assoc. rewrite <- !app_assoc.
  change (lit "#EXTM3U x-tvg-url=" ++ dq
          ++ lit "https://epgshare01.online/epgshare01/epg_ripper_ALL_SOURCES1.xml.gz"
          ++ dq ++ [10%Z] ++ lit "# Last Updated: " ++ lit (utcnow W)
          ++ [10%Z] ++ [10%Z] ++ body)
    with ((lit "#EXTM3U x-tvg-url=" ++ dq
           ++ lit "https://epgshare01.online/epgshare01/epg_ripper_ALL_SOURCES1.xml.gz"
           ++ dq) ++ 10%Z :: (lit "# Last Updated: " ++ lit (utcnow W))
           ++ 10%Z :: [] ++ 10%Z :: body).
  rewrite lines_cons by reflexivity.
  rewrite lines_cons by (apply forallb_any_char_app; [reflexivity | exact Hnow]).
  cbn [app]. rewrite lines_blank. reflexivity.
Qed.

(* ================================================================== *)
(** ** Writing the files *)

Lemma encodable_app : forall a b, encodable (a ++ b) = encodable a && encodable b.
Proof. intros a b. unfold encodable. apply forallb_app. Qed.

(** A literal of the program holds no surrogate. *)
Lemma encodable_lit : forall s, encodable (lit s) = true.
Proof.
  intro s. unfold encodable, lit. apply forallb_forall. intros c Hc.
  apply in_map_iff in Hc. destruct Hc as (a & <- & _).
  pose proof (Ascii.N_ascii_bounded a) as Hb. unfold chr.
  apply negb_true_iff. apply andb_false_iff. left. apply Z.leb_gt. lia.
Qed.

Lemma header_encodable : forall W, encodable (playlist_header W) = true.
Proof.
  intro W. unfold playlist_header. rewrite !encodable_app, !encodable_lit. reflexivity.
Qed.

Lemma extinf_line_encodable : forall W s,
  encodable (extinf_line W s) = encodable (displayName s).
Proof.
  intros W s. unfold extinf_line.
  pose proof (tv_data_in_table W (category s)) as Hin.
  assert (Hrows : forall row, In row (map snd TV_INFO) ->
            encodable (fst (fst row)) = true
            /\ encodable (snd (fst row)) = true
            /\ encodable (snd row) = true).
  { intros row Hrow. unfold TV_INFO in Hrow. cbn [map snd] in Hrow.
    repeat (destruct Hrow as [<- | Hrow]; [repeat split; vm_compute; reflexivity|]).
    destruct Hrow. }
  destruct (get_tv_data_for_category W (category s)) as [[tvg_id logo] group_name].
  destruct (Hrows _ Hin) as (H1 & H2 & H3). cbn [fst snd] in H1, H2, H3.
  rewrite !encodable_app, !encodable_lit, H1, H2, H3.
  change (encodable dq) with true. change (encodable nl) with true.
  cbn [andb]. apply andb_true_r.
Qed.

Lemma entry_chunks_encodable : forall W tail s,
  encodable tail = true ->
  forallb encodable (entry_chunks W tail s) = record_encodable s.
Proof.
  intros W tail s Ht. unfold entry_chunks, record_encodable. cbn [forallb].
  rewrite extinf_line_encodable, encodable_app, Ht, !andb_true_r. reflexivity.
Qed.

Lemma entries_encodable : forall W tail streams,
  encodable tail = true ->
  forallb encodable (flat_map (entry_chunks W tail) streams)
  = forallb record_encodable streams.
Proof.
  intros W tail streams Ht. induction streams as [|s streams IH]; [reflexivity|].
  cbn [flat_map forallb]. rewrite forallb_app, IH, entry_chunks_encodable by exact Ht.
  reflexivity.
Qed.

Lemma concat_entries : forall W tail streams,
  concat (flat_map (entry_chunks W tail) streams)
  = flat_map (fun s => extinf_line W s ++ manifestUrl s ++ tail) streams.
Proof.
  intros W tail streams. induction streams as [|s streams IH]; [reflexivity|].
  cbn [flat_map]. rewrite concat_app, IH. unfold entry_chunks. cbn [concat].
  rewrite app_nil_r, <- app_assoc. reflexivity.
Qed.

Lemma write_chunks_ok : forall chunks written,
  forallb encodable chunks = true ->
  write_chunks chunks written = (written ++ concat chunks, None).
Proof.
  induction chunks as [|c chunks IH]; intros written H; cbn [write_chunks concat].
  - rewrite app_nil_r. reflexivity.
  - cbn [forallb] in H. apply andb_prop in H. destruct H as [Hc H].
    rewrite Hc, (IH _ H), <- app_assoc. reflexivity.
Qed.

Lemma write_chunks_stops : forall good bad rest written,
  forallb encodable good = true -> encodable bad = false ->
  write_chunks (good ++ bad :: rest) written
  = (written ++ concat good, Some UnicodeEncodeError).
Proof.
  induction good as [|c good IH]; intros bad rest written Hg Hb;
    cbn [app write_chunks concat].
  - rewrite Hb, app_nil_r. reflexivity.
  - cbn [forallb] in Hg. apply andb_prop in Hg. destruct Hg as [Hc Hg].
    rewrite Hc, (IH _ _ _ Hg Hb), <- app_assoc. reflexivity.
Qed.


Lemma vlc_tail_encodable : encodable (nl ++ nl) = true.
Proof. reflexivity. Qed.

Lemma tivimate_tail_encodable :
  encodable (lit "|referer=" ++ REFERER ++ lit "|user-agent=" ++ quote_all USER_AGENT
             ++ nl ++ nl) = true.
Proof. vm_compute. reflexivity. Qed.

(** Records without surrogates are written in full, to both files. *)
Lemma write_playlists_ok : forall W streams,
  forallb record_encodable streams = true ->
  write_playlists W streams
  = ({| vlc_output := Some (playlist_header W ++ flat_map (vlc_entry W) streams);
        tivimate_output :=
          Some (playlist_header W ++ flat_map (tivimate_entry W) streams) |},
     Ok tt).
Proof.
  intros W streams H. unfold write_playlists. cbv zeta.
  rewrite write_chunks_ok
    by (cbn [forallb]; rewrite header_encodable, entries_encodable, H;
        [reflexivity | exact vlc_tail_encodable]).
  rewrite write_chunks_ok
    by (cbn [forallb]; rewrite header_encodable, entries_encodable, H;
        [reflexivity | exact tivimate_tail_encodable]).
  cbn [app concat]. rewrite !concat_entries. unfold vlc_entry, tivimate_entry.
  repeat f_equal.
Qed.

(** The first record with a surrogate ends the writing of the VLC file. *)
Lemma write_playlists_stops : forall W good bad rest,
  forallb record_encodable good = true -> record_encodable bad = false ->
  write_playlists W (good ++ bad :: rest)
  = ({| vlc_output :=
          Some (playlist_header W ++ flat_map (vlc_entry W) good
                ++ (if encodable (displayName bad) then extinf_line W bad else []));
        tivimate_output := None |},
     Raise UnicodeEncodeError).
Proof.
  intros W good bad rest Hg Hb. unfold write_playlists. cbv zeta.
  rewrite flat_map_app. cbn [flat_map]. unfold entry_chunks at 2. cbn [app].
  assert (Hge : forallb encodable
                  (playlist_header W :: flat_map (entry_chunks W (nl ++ nl)) good)
                = true).
  { cbn [forallb]. rewrite header_encodable, entries_encodable, Hg;
      [reflexivity | exact vlc_tail_encodable]. }
  destruct (encodable (displayName bad)) eqn:Hd.
  - assert (Hu : encodable (manifestUrl bad ++ nl ++ nl) = false).
    { unfold record_encodable in Hb. rewrite Hd in Hb. cbn [andb] in Hb.
      rewrite encodable_app, Hb. reflexivity. }
    change (playlist_header W
            :: flat_map (entry_chunks W (nl ++ nl)) good
               ++ extinf_line W bad :: (manifestUrl bad ++ nl ++ nl)
                  :: flat_map (entry_chunks W (nl ++ nl)) rest)
      with ((playlist_header W :: flat_map (entry_chunks W (nl ++ nl)) good)
            ++ extinf_line W bad :: (manifestUrl bad ++ nl ++ nl)
               :: flat_map (entry_chunks W (nl ++ nl)) rest).
    replace ((playlist_header W :: flat_map (entry_chunks W (nl ++ nl)) good)
             ++ extinf_line W bad :: (manifestUrl bad ++ nl ++ nl)
                :: flat_map (entry_chunks W (nl ++ nl)) rest)
      with (((playlist_header W :: flat_map (entry_chunks W (nl ++ nl)) good)
             ++ [extinf_line W bad])
            ++ (manifestUrl bad ++ nl ++ nl)
               :: flat_map (entry_chunks W (nl ++ nl)) rest)
      by (rewrite <- app_assoc; reflexivity).
    rewrite write_chunks_stops; [| |exact Hu].
    + rewrite concat_app. cbn [app concat]. rewrite concat_entries, app_nil_r.
      rewrite <- app_assoc. reflexivity.
    + rewrite forallb_app, Hge. cbn [forallb]. rewrite extinf_line_encodable, Hd.
      reflexivity.
  - change (playlist_header W
            :: flat_map (entry_chunks W (nl ++ nl)) good
               ++ extinf_line W bad :: (manifestUrl bad ++ nl ++ nl)
                  :: flat_map (entry_chunks W (nl ++ nl)) rest)
      with ((playlist_header W :: flat_map (entry_chunks W (nl ++ nl)) good)
            ++ extinf_line W bad :: (manifestUrl bad ++ nl ++ nl)
               :: flat_map (entry_chunks W (nl ++ nl)) rest).
    rewrite write_chunks_stops; [|exact Hge|].
    + cbn [app concat]. rewrite concat_entries, app_nil_r. reflexivity.
    + rewrite extinf_line_encodable. exact Hd.
Qed.

(** X16.  The playlists are well formed.  When the [displayName] and the
    [manifestUrl] of every record hold no surrogate code point,
    [write_playlists] completes and writes both files; when, moreover, they
    and the clock text hold no line feed, each file is, line by line: the
    two header lines, an empty line, then for every record of [streams], in
    order, exactly three lines (its [#EXTINF] line with the logo, id and
    group of its category and its [displayName]; its URL; an empty line).
    The VLC file has the bare URL; the TiviMate file has the URL followed by
    [|referer=], the referer, [|user-agent=] and the percent-encoded user
    agent.  So the URLs, read back from either file, are the [manifestUrl]s
    of the records. *)
Theorem playlists_have_three_lines_per_record : forall W streams,
  forallb any_char (lit (utcnow W)) = true ->
  (forall s, In s streams ->
     forallb any_char (displayName s) = true
     /\ forallb any_char (manifestUrl s) = true
     /\ encodable (displayName s) = true
     /\ encodable (manifestUrl s) = true) ->
  exists vlc tivimate,
    write_playlists W streams
    = ({| vlc_output := Some vlc; tivimate_output := Some tivimate |}, Ok tt)
    /\ lines vlc
       = header_lines W ++ [[]]
         ++ flat_map (fun s => [extinf_text W s; manifestUrl s; []]) streams ++ [[]]
    /\ lines tivimate
       = header_lines W ++ [[]]
         ++ flat_map (fun s => [extinf_text W s; manifestUrl s ++ tivimate_suffix; []])
                     streams ++ [[]].
Proof.
  intros W streams Hnow Hs.
  assert (Henc : forallb record_encodable streams = true).
  { apply forallb_forall. intros s Hin. destruct (Hs s Hin) as (_ & _ & Hd & Hu).
    unfold record_encodable. rewrite Hd, Hu. reflexivity. }
  eexists. eexists. split; [apply write_playlists_ok; exact Henc|]. split.
  - rewrite (header_then W _ Hnow). f_equal. cbn [app]. f_equal.
    transitivity
      (lines (flat_map (fun s => (extinf_text W s ++ nl) ++ manifestUrl s ++ nl ++ nl)
                       streams)).
    + f_equal. apply flat_map_ext. intro s. unfold vlc_entry.
      rewrite extinf_line_text. reflexivity.
    + apply (entries_lines (extinf_text W) manifestUrl streams).
      intros s Hin. destruct (Hs s Hin) as (Hd & Hu & _).
      split; [apply extinf_text_one_line; exact Hd | exact Hu].
  - rewrite (header_then W _ Hnow). f_equal. cbn [app]. f_equal.
    transitivity
      (lines (flat_map (fun s => (extinf_text W s ++ nl)
                                 ++ (manifestUrl s ++ tivimate_suffix) ++ nl ++ nl)
                       streams)).
    + f_equal. apply flat_map_ext. intro s. unfold tivimate_entry.
      rewrite extinf_line_text, <- !app_assoc. reflexivity.
    + apply (entries_lines (extinf_text W)
               (fun s => manifestUrl s ++ tivimate_suffix) streams).
      intros s Hin. destruct (Hs s Hin) as (Hd & Hu & _).
      split; [apply extinf_text_one_line; exact Hd|].
      apply forallb_any_char_app; [exact Hu | vm_compute; reflexivity].
Qed.

Lemma playlists_have_three_lines_per_record_witness :
  exists vlc tivimate,
    write_playlists offline
      [stream_of (lit "soccer") (lit "Derby") (lit "https://cdn.example.com/live/b.m3u8")]
    = ({| vlc_output := Some vlc; tivimate_output := Some tivimate |}, Ok tt)
    /\ lines vlc
       = header_lines offline ++ [[]]
         ++ [extinf_text offline
               (stream_of (lit "soccer") (lit "Derby")
                          (lit "https://cdn.example.com/live/b.m3u8"));
             lit "https://cdn.example.com/live/b.m3u8"; []] ++ [[]]
    /\ lines tivimate
       = header_lines offline ++ [[]]
         ++ [extinf_text offline
               (stream_of (lit "soccer") (lit "Derby")
                          (lit "https://cdn.example.com/live/b.m3u8"));
             lit "https://cdn.example.com/live/b.m3u8" ++ tivimate_suffix; []] ++ [[]].
Proof.
  apply (playlists_have_three_lines_per_record offline
           [stream_of (lit "soccer") (lit "Derby")
                      (lit "https://cdn.example.com/live/b.m3u8")]).
  - reflexivity.
  - intros s [<- | []]. repeat split; reflexivity.
Defined.

(** X17.  A record that cannot be encoded ends the writing.  When [bad] is
    the first record whose [displayName] or [manifestUrl] holds a surrogate
    code point, [write_playlists] raises [UnicodeEncodeError] while it writes
    the VLC file: that file is left with the header, the entries of the
    records before [bad] and, if the surrogate is in the URL, the [#EXTINF]
    line of [bad]; the TiviMate file is not written at all. *)
Theorem unencodable_record_truncates_the_playlist : forall W good bad rest,
  forallb record_encodable good = true ->
  record_encodable bad = false ->
  write_playlists W (good ++ bad :: rest)
  = ({| vlc_output :=
          Some (playlist_header W ++ flat_map (vlc_entry W) good
                ++ (if encodable (displayName bad) then extinf_line W bad else []));
        tivimate_output := None |},
     Raise UnicodeEncodeError).
Proof. exact write_playlists_stops. Qed.

Lemma unencodable_record_truncates_the_playlist_witness :
  write_playlists offline
    ([stream_of (lit "soccer") (lit "Derby") (lit "https://cdn.example.com/live/b.m3u8")]
     ++ stream_of (lit "nba") [55296%Z] (lit "https://cdn.example.com/live/c.m3u8")
        :: [])
  = ({| vlc_output :=
          Some (playlist_header offline
                ++ flat_map (vlc_entry offline)
                     [stream_of (lit "soccer") (lit "Derby")
                                (lit "https://cdn.example.com/live/b.m3u8")]
                ++ []);
        tivimate_output := None |},
     Raise UnicodeEncodeError).
Proof.
  apply (unencodable_record_truncates_the_playlist offline
           [stream_of (lit "soccer") (lit "Derby")
                      (lit "https://cdn.example.com/live/b.m3u8")]
           (stream_of (lit "nba") [55296%Z] (lit "https://cdn.example.com/live/c.m3u8"))
           []); reflexivity.
Defined.

(* ================================================================== *)
(** ** What can end the run *)



(* ================================================================== *)
(** ** Failed fetches and empty results *)





Section DeadIframes.

Variable W : world.
Variable dead : tag -> bool.
Hypothesis dead_is_iframe : forall t, dead t = true -> tag_name t = lit "iframe".










End DeadIframes.



